(** * placeengine: the placement data model of [placetools/place_engine.py]

    A shallow embedding of [SiteInfo], [Cell], [Micro] and the registry part
    of [PlaceCellEngine], followed by the properties of the specification
    that concern them.

    Number model.  The Python code computes on floats; the specification
    reasons about real coordinates.  Coordinates are embedded as exact
    rationals kept in lowest terms ([Qred] after every arithmetic
    operation), so that Leibniz equality of two stored coordinates is
    numeric equality.  [round] is Python's built-in: nearest integer, ties
    to the even neighbour.

    Grid pitches.  Python raises [ZeroDivisionError] as soon as a grid with
    a zero pitch is used, so the embedding describes the code on grids whose
    pitches are not zero ([SiteInfo.wf]).  The properties whose truth depends
    on it carry it as a hypothesis.

    Exceptions of the arithmetic.  The functions of the embedding return
    the value the code returns when it returns.  What [round(x / pitch)]
    raises (a zero pitch, a quotient beyond the range of a float) is
    described apart, by [round_quotient_raises]. *)

From Stdlib Require Import QArith Qround Qminmax Qabs ZArith Lia Lqa List.
From stdpp Require Import base strings gmap.
Import ListNotations.

Set Warnings "-register-all".

Local Open Scope Q_scope.

(** ** Arithmetic on coordinates *)

Definition fadd (a b : Q) : Q := Qred (a + b).
Definition fsub (a b : Q) : Q := Qred (a - b).
Definition fmul (a b : Q) : Q := Qred (a * b).
Definition fdiv (a b : Q) : Q := Qred (a / b).

(** [int * float]: the integer is converted first. *)
Definition imul (n : Z) (a : Q) : Q := fmul (inject_Z n) a.

(** Python's [round(x)] on a float: round half to even. *)
Definition py_round (q : Q) : Z :=
  let f := Qfloor q in
  match Qcompare (q - inject_Z f) (1 # 2) with
  | Lt => f
  | Gt => (f + 1)%Z
  | Eq => if Z.even f then f else (f + 1)%Z
  end.




(** [round(x, 3)], used for the exported (derived) fields only. *)
Definition round3 (q : Q) : Q := fdiv (inject_Z (py_round (q * 1000))) 1000.

(** [min(...)] and [max(...)] over a non-empty generator: the first
    extremal element is kept. *)
Definition py_min (l : list Q) : Q :=
  match l with
  | [] => 0
  | a :: r => fold_left Qmin r a
  end.

Definition py_max (l : list Q) : Q :=
  match l with
  | [] => 0
  | a :: r => fold_left Qmax r a
  end.

(** ** Orientation *)

Inductive Orientation : Type :=
  | N    (* normal *)
  | S    (* rotated by 180 degrees *)
  | FN   (* mirrored about the Y axis *)
  | FS.  (* mirrored about the X axis *)

Definition Orientation_eqb (a b : Orientation) : bool :=
  match a, b with
  | N, N | S, S | FN, FN | FS, FS => true
  | _, _ => false
  end.

Definition Orientation_value (o : Orientation) : string :=
  match o with N => "N" | S => "S" | FN => "FN" | FS => "FS" end.

(** [Orientation(s)]: the member whose value is [s]; Python raises
    [ValueError] for any other string. *)
Definition Orientation_of_value (s : string) : option Orientation :=
  if String.eqb s "N" then Some N
  else if String.eqb s "S" then Some S
  else if String.eqb s "FN" then Some FN
  else if String.eqb s "FS" then Some FS
  else None.

(** ** SiteInfo *)

Module SiteInfo.

Record t : Type := mk { width : Q; height : Q }.

(** [SiteInfo()] *)
Definition default : t := mk (7 # 50) (9 # 10).

(** No division by a pitch raises [ZeroDivisionError]. *)
Definition wf (s : t) : Prop := ~ width s == 0 /\ ~ height s == 0.

Definition snap_to_grid (s : t) (x y : Q) : Q * Q :=
  let grid_x := imul (py_round (fdiv x (width s))) (width s) in
  let grid_y := imul (py_round (fdiv y (height s))) (height s) in
  (grid_x, grid_y).


Definition to_grid_coords (s : t) (x y : Q) : Z * Z :=
  let grid_x := py_round (fdiv x (width s)) in
  let grid_y := py_round (fdiv y (height s)) in
  (grid_x, grid_y).

Definition from_grid_coords (s : t) (grid_x grid_y : Z) : Q * Q :=
  let x := imul grid_x (width s) in
  let y := imul grid_y (height s) in
  (x, y).

End SiteInfo.

(** ** Cell *)

Module Cell.

Record t : Type := mk {
  name : string;
  x : Q;                      (* stored position, always for orientation N *)
  y : Q;
  orientation : Orientation;
  width : Q;
  height : Q;
  absolute_x : Q;
  absolute_y : Q;
  hierarchical_path : string;
  site_info : SiteInfo.t;
  grid_x : Z;
  grid_y : Z;
  rel_grid_x : Z;
  rel_grid_y : Z;
  bbox_min_x : Q;
  bbox_min_y : Q;
  bbox_max_x : Q;
  bbox_max_y : Q
}.

(** Attribute assignments, one per group of attributes the methods write
    together. *)

Definition with_position (rx ry : Q) (c : t) : t :=
  mk (name c) rx ry (orientation c) (width c) (height c)
     (absolute_x c) (absolute_y c) (hierarchical_path c) (site_info c)
     (grid_x c) (grid_y c) (rel_grid_x c) (rel_grid_y c)
     (bbox_min_x c) (bbox_min_y c) (bbox_max_x c) (bbox_max_y c).

Definition with_orientation (o : Orientation) (c : t) : t :=
  mk (name c) (x c) (y c) o (width c) (height c)
     (absolute_x c) (absolute_y c) (hierarchical_path c) (site_info c)
     (grid_x c) (grid_y c) (rel_grid_x c) (rel_grid_y c)
     (bbox_min_x c) (bbox_min_y c) (bbox_max_x c) (bbox_max_y c).

Definition with_size (w h : Q) (c : t) : t :=
  mk (name c) (x c) (y c) (orientation c) w h
     (absolute_x c) (absolute_y c) (hierarchical_path c) (site_info c)
     (grid_x c) (grid_y c) (rel_grid_x c) (rel_grid_y c)
     (bbox_min_x c) (bbox_min_y c) (bbox_max_x c) (bbox_max_y c).

Definition with_absolute (ax ay : Q) (c : t) : t :=
  mk (name c) (x c) (y c) (orientation c) (width c) (height c)
     ax ay (hierarchical_path c) (site_info c)
     (grid_x c) (grid_y c) (rel_grid_x c) (rel_grid_y c)
     (bbox_min_x c) (bbox_min_y c) (bbox_max_x c) (bbox_max_y c).

Definition with_path (p : string) (c : t) : t :=
  mk (name c) (x c) (y c) (orientation c) (width c) (height c)
     (absolute_x c) (absolute_y c) p (site_info c)
     (grid_x c) (grid_y c) (rel_grid_x c) (rel_grid_y c)
     (bbox_min_x c) (bbox_min_y c) (bbox_max_x c) (bbox_max_y c).

Definition with_site_info (s : SiteInfo.t) (c : t) : t :=
  mk (name c) (x c) (y c) (orientation c) (width c) (height c)
     (absolute_x c) (absolute_y c) (hierarchical_path c) s
     (grid_x c) (grid_y c) (rel_grid_x c) (rel_grid_y c)
     (bbox_min_x c) (bbox_min_y c) (bbox_max_x c) (bbox_max_y c).

Definition with_grid (gx gy rgx rgy : Z) (c : t) : t :=
  mk (name c) (x c) (y c) (orientation c) (width c) (height c)
     (absolute_x c) (absolute_y c) (hierarchical_path c) (site_info c)
     gx gy rgx rgy
     (bbox_min_x c) (bbox_min_y c) (bbox_max_x c) (bbox_max_y c).

Definition with_bbox (x0 y0 x1 y1 : Q) (c : t) : t :=
  mk (name c) (x c) (y c) (orientation c) (width c) (height c)
     (absolute_x c) (absolute_y c) (hierarchical_path c) (site_info c)
     (grid_x c) (grid_y c) (rel_grid_x c) (rel_grid_y c)
     x0 y0 x1 y1.

(** An optional [site_info] argument replaces the cell's one when given. *)
Definition take_site_info (s : option SiteInfo.t) (c : t) : t :=
  match s with
  | Some s' => with_site_info s' c
  | None => c
  end.

Definition _update_grid_coordinates (c : t) : t :=
  let '(gx, gy) :=
    SiteInfo.to_grid_coords (site_info c) (absolute_x c) (absolute_y c) in
  let '(rgx, rgy) := SiteInfo.to_grid_coords (site_info c) (x c) (y c) in
  with_grid gx gy rgx rgy c.

(** The bounding box is always the one of orientation N. *)
Definition _update_bbox (c : t) : t :=
  with_bbox (absolute_x c) (absolute_y c)
            (fadd (absolute_x c) (width c))
            (fadd (absolute_y c) (height c)) c.

(** [Cell(name, x, y, orientation, width, height)] with [__post_init__]. *)
Definition init (nm : string) (x0 y0 : Q) (o : Orientation) (w h : Q) : t :=
  _update_bbox
    (_update_grid_coordinates
       (mk nm x0 y0 o w h x0 y0 nm SiteInfo.default 0 0 0 0 0 0 0 0)).

Definition set_rel_position (rel_x rel_y : Q) (s : option SiteInfo.t)
           (c : t) : t :=
  _update_bbox
    (_update_grid_coordinates (with_position rel_x rel_y (take_site_info s c))).

Definition set_absolute_position (origin_x origin_y : Q)
           (s : option SiteInfo.t) (c : t) : t :=
  let c := take_site_info s c in
  _update_bbox
    (_update_grid_coordinates
       (with_absolute (fadd origin_x (x c)) (fadd origin_y (y c)) c)).

(** [if parent_path:] tests for the non-empty string. *)
Definition set_hierarchical_path (parent_path : string) (c : t) : t :=
  if String.eqb parent_path EmptyString
  then with_path (name c) c
  else with_path (parent_path +:+ "/" +:+ name c) c.

Definition set_orientation (o : Orientation) (c : t) : t :=
  with_orientation o c.

Definition set_size (w h : Q) (c : t) : t :=
  _update_bbox (with_size w h c).

Definition get_placement_origin (c : t) : Q * Q :=
  match orientation c with
  | N => (absolute_x c, absolute_y c)
  | S => (fadd (absolute_x c) (width c), fadd (absolute_y c) (height c))
  | FN => (fadd (absolute_x c) (width c), absolute_y c)
  | FS => (absolute_x c, fadd (absolute_y c) (height c))
  end.

Definition left_ori : list Orientation := [FS; N].
Definition right_ori : list Orientation := [FN; S].

Definition get_orientation_for_row (c : t) (row_y : Q) : Orientation :=
  let grid_y := py_round (fdiv row_y (SiteInfo.height (site_info c))) in
  let orientation_type := existsb (Orientation_eqb (orientation c)) left_ori in
  if orientation_type then
    if (grid_y mod 2 =? 0)%Z then FS else N
  else
    if (grid_y mod 2 =? 0)%Z then S else FN.

Definition flip_oritentation (c : t) : t :=
  match orientation c with
  | N => with_orientation FN c
  | S => with_orientation FS c
  | FN => with_orientation N c
  | FS => with_orientation S c
  end.

Definition get_bbox (c : t) : Q * Q * Q * Q :=
  (bbox_min_x c, bbox_min_y c, bbox_max_x c, bbox_max_y c).

Definition clone (c : t) : t :=
  let new_cell :=
    init (name c) (x c) (y c) (orientation c) (width c) (height c) in
  let new_cell := with_path (hierarchical_path c) new_cell in
  let new_cell := with_site_info (site_info c) new_cell in
  let new_cell := with_absolute (absolute_x c) (absolute_y c) new_cell in
  _update_grid_coordinates new_cell.

(** The record written by [to_dict]. *)
Record dict : Type := mk_dict {
  d_name : string;
  d_rel_x : Q;
  d_rel_y : Q;
  d_rel_grid_x : Z;
  d_rel_grid_y : Z;
  d_abs_x : Q;
  d_abs_y : Q;
  d_placement_x : Q;
  d_placement_y : Q;
  d_grid_x : Z;
  d_grid_y : Z;
  d_width : Q;
  d_height : Q;
  d_orientation : string;
  d_bbox : Q * Q * Q * Q;
  d_hierarchical_path : string
}.

Definition to_dict (c : t) : dict :=
  let '(placement_x, placement_y) := get_placement_origin c in
  mk_dict (name c) (x c) (y c) (rel_grid_x c) (rel_grid_y c)
          (round3 (absolute_x c)) (round3 (absolute_y c))
          (round3 placement_x) (round3 placement_y)
          (grid_x c) (grid_y c) (width c) (height c)
          (Orientation_value (orientation c))
          (round3 (bbox_min_x c), round3 (bbox_min_y c),
           round3 (bbox_max_x c), round3 (bbox_max_y c))
          (hierarchical_path c).

End Cell.

(** ** Micro *)

Module Micro.

(** A Micro owns its cells and its sub-micros.  The [parent] attribute is a
    back-reference that is read in [_update_grid_coordinates] only, for the
    parent's grid and current origin; it is embedded as an explicit
    argument ([parent_ctx], [None] for a root) of the methods that reach
    that code. *)
Inductive t : Type := mk {
  name : string;
  origin_x : Q;
  origin_y : Q;
  description : string;
  site_info : SiteInfo.t;
  cells : list Cell.t;
  sub_micros : list t;
  hierarchical_path : string;
  grid_x : Z;
  grid_y : Z;
  rel_grid_x : Z;
  rel_grid_y : Z
}.

Record parent_ctx : Type := mk_ctx {
  p_site_info : SiteInfo.t;
  p_origin_x : Q;
  p_origin_y : Q
}.

Definition ctx_of (m : t) : parent_ctx :=
  mk_ctx (site_info m) (origin_x m) (origin_y m).

Definition with_name (nm : string) (m : t) : t :=
  mk nm (origin_x m) (origin_y m) (description m) (site_info m)
     (cells m) (sub_micros m) (hierarchical_path m)
     (grid_x m) (grid_y m) (rel_grid_x m) (rel_grid_y m).

Definition with_origin (ox oy : Q) (m : t) : t :=
  mk (name m) ox oy (description m) (site_info m)
     (cells m) (sub_micros m) (hierarchical_path m)
     (grid_x m) (grid_y m) (rel_grid_x m) (rel_grid_y m).

Definition with_site_info (s : SiteInfo.t) (m : t) : t :=
  mk (name m) (origin_x m) (origin_y m) (description m) s
     (cells m) (sub_micros m) (hierarchical_path m)
     (grid_x m) (grid_y m) (rel_grid_x m) (rel_grid_y m).

Definition with_cells (cs : list Cell.t) (m : t) : t :=
  mk (name m) (origin_x m) (origin_y m) (description m) (site_info m)
     cs (sub_micros m) (hierarchical_path m)
     (grid_x m) (grid_y m) (rel_grid_x m) (rel_grid_y m).

Definition with_sub_micros (ss : list t) (m : t) : t :=
  mk (name m) (origin_x m) (origin_y m) (description m) (site_info m)
     (cells m) ss (hierarchical_path m)
     (grid_x m) (grid_y m) (rel_grid_x m) (rel_grid_y m).

Definition with_path (p : string) (m : t) : t :=
  mk (name m) (origin_x m) (origin_y m) (description m) (site_info m)
     (cells m) (sub_micros m) p
     (grid_x m) (grid_y m) (rel_grid_x m) (rel_grid_y m).

Definition with_grid (gx gy rgx rgy : Z) (m : t) : t :=
  mk (name m) (origin_x m) (origin_y m) (description m) (site_info m)
     (cells m) (sub_micros m) (hierarchical_path m)
     gx gy rgx rgy.

Definition _update_grid_coordinates (parent : option parent_ctx) (m : t) : t :=
  let '(gx, gy) :=
    SiteInfo.to_grid_coords (site_info m) (origin_x m) (origin_y m) in
  match parent with
  | Some p =>
      let '(parent_grid_x, parent_grid_y) :=
        SiteInfo.to_grid_coords (p_site_info p) (p_origin_x p) (p_origin_y p) in
      with_grid gx gy (gx - parent_grid_x)%Z (gy - parent_grid_y)%Z m
  | None => with_grid gx gy gx gy m
  end.

(** What [_update_absolute_positions] does to one cell. *)
Definition refresh_cell (ox oy : Q) (s : SiteInfo.t) (cell : Cell.t) : Cell.t :=
  let cell := Cell.set_absolute_position ox oy (Some s) cell in
  let cell_orientation :=
    Cell.get_orientation_for_row cell (Cell.absolute_y cell) in
  Cell.set_orientation cell_orientation cell.

(** [set_origin] and [_update_absolute_positions] call each other; the
    recursion descends into the sub-micros. *)
Fixpoint set_origin (parent : option parent_ctx) (m : t) (x y : Q)
         {struct m} : t :=
  let '(snapped_x, snapped_y) := SiteInfo.snap_to_grid (site_info m) x y in
  let self := _update_grid_coordinates parent (with_origin snapped_x snapped_y m) in
  with_sub_micros
    (List.map (fun sub_micro =>
                 set_origin (Some (ctx_of self)) sub_micro
                            (fadd (origin_x self) (origin_x sub_micro))
                            (fadd (origin_y self) (origin_y sub_micro)))
              (sub_micros m))
    (with_cells
       (List.map (refresh_cell (origin_x self) (origin_y self) (site_info self))
                 (cells m))
       self).

Definition _update_absolute_positions (m : t) : t :=
  with_sub_micros
    (List.map (fun sub_micro =>
                 set_origin (Some (ctx_of m)) sub_micro
                            (fadd (origin_x m) (origin_x sub_micro))
                            (fadd (origin_y m) (origin_y sub_micro)))
              (sub_micros m))
    (with_cells
       (List.map (refresh_cell (origin_x m) (origin_y m) (site_info m))
                 (cells m))
       m).

(** [Micro(name, origin_x, origin_y, description, site_info)]: a fresh
    Micro has no cells and no sub-micros, so the final call of
    [_update_absolute_positions] changes nothing. *)
Definition init (nm : string) (ox oy : Q) (descr : string)
           (s : SiteInfo.t) : t :=
  let '(gx, gy) := SiteInfo.to_grid_coords s ox oy in
  _update_absolute_positions (mk nm ox oy descr s [] [] nm gx gy 0 0).

Fixpoint set_hierarchical_path (parent_path : string) (m : t) {struct m} : t :=
  let path :=
    if String.eqb parent_path EmptyString then name m
    else parent_path +:+ "/" +:+ name m in
  with_sub_micros
    (List.map (set_hierarchical_path path) (sub_micros m))
    (with_cells
       (List.map (Cell.set_hierarchical_path path) (cells m))
       (with_path path m)).

Definition add_cell (self : t) (cell : Cell.t) : t :=
  let cell_cpy := Cell.clone cell in
  let cell_cpy :=
    Cell.set_absolute_position (origin_x self) (origin_y self)
                               (Some (site_info self)) cell_cpy in
  let cell_cpy := Cell.set_hierarchical_path (hierarchical_path self) cell_cpy in
  with_cells (cells self ++ [cell_cpy]) self.

Definition add_cells (self : t) (cs : list Cell.t) : t :=
  fold_left add_cell cs self.

Definition set_origin_by_grid (parent : option parent_ctx) (m : t)
           (gx gy : Z) : t :=
  let '(x, y) := SiteInfo.from_grid_coords (site_info m) gx gy in
  set_origin parent m x y.

Definition move_by (parent : option parent_ctx) (m : t) (dx dy : Q) : t :=
  let '(snapped_dx, snapped_dy) := SiteInfo.snap_to_grid (site_info m) dx dy in
  let m := with_origin (fadd (origin_x m) snapped_dx)
                       (fadd (origin_y m) snapped_dy) m in
  _update_absolute_positions (_update_grid_coordinates parent m).

Definition move_by_grid (parent : option parent_ctx) (m : t)
           (dgrid_x dgrid_y : Z) : t :=
  let dx := imul dgrid_x (SiteInfo.width (site_info m)) in
  let dy := imul dgrid_y (SiteInfo.height (site_info m)) in
  move_by parent m dx dy.

Fixpoint get_all_cells (m : t) : list Cell.t :=
  cells m ++ flat_map get_all_cells (sub_micros m).

Fixpoint get_all_sub_micros (m : t) : list t :=
  flat_map (fun sub_micro => sub_micro :: get_all_sub_micros sub_micro)
           (sub_micros m).

Definition calculate_bounding_box (m : t) : Q * Q * Q * Q :=
  let all_cells := get_all_cells m in
  match all_cells with
  | [] => (0, 0, 0, 0)
  | _ =>
      (py_min (List.map Cell.bbox_min_x all_cells),
       py_min (List.map Cell.bbox_min_y all_cells),
       py_max (List.map Cell.bbox_max_x all_cells),
       py_max (List.map Cell.bbox_max_y all_cells))
  end.

(** Nesting depth: the recursion measure of [clone] and [flip_horizontal],
    which recurse on Micros they have just rebuilt. *)
Fixpoint depth (m : t) : nat :=
  fold_right (fun sub_micro d => Nat.max (Datatypes.S (depth sub_micro)) d)
             O (sub_micros m).

(** [add_sub_micro], with the clone operation [cl] it calls. *)
Definition add_sub_micro_with (cl : t -> t) (self sub_micro : t) : t :=
  let sub_micro_cpy := cl sub_micro in
  let sub_micro_cpy :=
    set_hierarchical_path (hierarchical_path self) sub_micro_cpy in
  let sub_micro_cpy :=
    set_origin (Some (ctx_of self)) sub_micro_cpy
               (fadd (origin_x self) (origin_x sub_micro_cpy))
               (fadd (origin_y self) (origin_y sub_micro_cpy)) in
  with_sub_micros (sub_micros self ++ [sub_micro_cpy]) self.

(** [new_name or self.name] *)
Definition clone_name (new_name : option string) (m : t) : string :=
  match new_name with
  | Some nm => if String.eqb nm EmptyString then name m else nm
  | None => name m
  end.

(** The body of [clone]; [rec] stands for the calls of [clone()] on the
    sub-micros and, inside [add_sub_micro], on their copies. *)
Definition clone_body (rec : t -> t) (new_name : option string) (m : t) : t :=
  let cloned_micro :=
    init (clone_name new_name m) (origin_x m) (origin_y m) (description m)
         (SiteInfo.mk (SiteInfo.width (site_info m))
                      (SiteInfo.height (site_info m))) in
  let cloned_micro :=
    fold_left (fun cloned_micro cell => add_cell cloned_micro (Cell.clone cell))
              (cells m) cloned_micro in
  fold_left
    (fun cloned_micro sub_micro =>
       add_sub_micro_with rec cloned_micro (rec sub_micro))
    (sub_micros m) cloned_micro.

(** [clone] calls [add_sub_micro], which clones its argument again, so the
    recursion is not structural: it is on the nesting depth, given as
    fuel.  With no fuel left there are no sub-micros left either. *)
Fixpoint clone_fuel (fuel : nat) (new_name : option string) (m : t) : t :=
  match fuel with
  | O => clone_body (fun sub_micro => sub_micro) new_name m
  | Datatypes.S fuel' => clone_body (clone_fuel fuel' None) new_name m
  end.

Definition clone (new_name : option string) (m : t) : t :=
  clone_fuel (depth m) new_name m.

Definition add_sub_micro (self sub_micro : t) : t :=
  add_sub_micro_with (clone None) self sub_micro.

(** The body of [flip_horizontal]; [rec] stands for the calls of
    [flip_horizontal()] on the sub-micros, whose parent is this Micro. *)
Definition flip_horizontal_body (rec : option parent_ctx -> t -> t)
           (parent : option parent_ctx) (m : t) : t :=
  let '(min_x, _, max_x, _) := calculate_bounding_box m in
  let max_x := fsub max_x min_x in
  let cells' :=
    List.map
      (fun cell =>
         Cell.flip_oritentation
           (Cell.set_rel_position
              (fsub (fsub max_x (Cell.x cell))
                    (fsub (Cell.bbox_max_x cell) (Cell.bbox_min_x cell)))
              (Cell.y cell) (Some (site_info m)) cell))
      (cells m) in
  let sub_micros' :=
    List.map
      (fun sub_micro =>
         let '(sub_micro_min_x, _, sub_micro_max_x, _) :=
           calculate_bounding_box sub_micro in
         let sub_micro_max_x := fsub sub_micro_max_x sub_micro_min_x in
         let sub_micro :=
           set_origin (Some (ctx_of m)) sub_micro
                      (fsub (fsub max_x (origin_x sub_micro)) sub_micro_max_x)
                      (origin_y sub_micro) in
         rec (Some (ctx_of m)) sub_micro)
      (sub_micros m) in
  _update_absolute_positions
    (_update_grid_coordinates parent
       (with_sub_micros sub_micros' (with_cells cells' m))).

(** [flip_horizontal] recurses on each sub-micro after moving it with
    [set_origin]: the fuel is the nesting depth again. *)
Fixpoint flip_horizontal_fuel (fuel : nat) (parent : option parent_ctx)
         (m : t) : t :=
  match fuel with
  | O => flip_horizontal_body (fun _ sub_micro => sub_micro) parent m
  | Datatypes.S fuel' =>
      flip_horizontal_body (flip_horizontal_fuel fuel') parent m
  end.

Definition flip_horizontal (parent : option parent_ctx) (m : t) : t :=
  flip_horizontal_fuel (depth m) parent m.

(** The nested record written by [to_dict]. *)
Inductive dict : Type := mk_dict {
  d_name : string;
  d_origin_x : Q;
  d_origin_y : Q;
  d_grid_x : Z;
  d_grid_y : Z;
  d_rel_grid_x : Z;
  d_rel_grid_y : Z;
  d_site_info : Q * Q;
  d_description : string;
  d_hierarchical_path : string;
  d_cells : list Cell.dict;
  d_sub_micros : list dict;
  d_bounding_box : Q * Q * Q * Q
}.

Fixpoint to_dict (m : t) : dict :=
  mk_dict (name m) (origin_x m) (origin_y m) (grid_x m) (grid_y m)
          (rel_grid_x m) (rel_grid_y m)
          (SiteInfo.width (site_info m), SiteInfo.height (site_info m))
          (description m) (hierarchical_path m)
          (List.map Cell.to_dict (cells m))
          (List.map to_dict (sub_micros m))
          (calculate_bounding_box m).

(** The loop over the cell records of [_load_from_dict]; [None] stands for
    the [ValueError] of [Orientation(...)] on an unknown value. *)
Fixpoint load_cells (l : list Cell.dict) (micro : t) : option t :=
  match l with
  | [] => Some micro
  | cell_data :: r =>
      match Orientation_of_value (Cell.d_orientation cell_data) with
      | None => None
      | Some o =>
          let cell :=
            Cell.init (Cell.d_name cell_data) (Cell.d_rel_x cell_data)
                      (Cell.d_rel_y cell_data) o (Cell.d_width cell_data)
                      (Cell.d_height cell_data) in
          load_cells r (add_cell micro cell)
      end
  end.

(** The loop over the sub-micro records; [load] stands for the recursive
    calls of [_load_from_dict]. *)
Definition load_sub_micros (load : dict -> option t)
  : list dict -> t -> option t :=
  fix loop (l : list dict) (micro : t) {struct l} : option t :=
    match l with
    | [] => Some micro
    | sub_micro_data :: r =>
        match load sub_micro_data with
        | None => None
        | Some sub_micro => loop r (add_sub_micro micro sub_micro)
        end
    end.

Fixpoint _load_from_dict (micro_data : dict) : option t :=
  let site_info :=
    SiteInfo.mk (fst (d_site_info micro_data)) (snd (d_site_info micro_data)) in
  let micro :=
    init (d_name micro_data) (d_origin_x micro_data) (d_origin_y micro_data)
         (d_description micro_data) site_info in
  match load_cells (d_cells micro_data) micro with
  | None => None
  | Some micro =>
      load_sub_micros _load_from_dict (d_sub_micros micro_data) micro
  end.

(** [load_from_file] reads the record back from its JSON file and then
    runs the same statements as [_load_from_dict]. *)
Definition load_from_file (micro_data : dict) : option t :=
  _load_from_dict micro_data.

(** [remove_cell]: the loop pops the first cell of that name and stops;
    [None] when the loop ends without a match. *)
Fixpoint remove_first_cell (cell_name : string) (cs : list Cell.t)
  : option (list Cell.t) :=
  match cs with
  | [] => None
  | cell :: r =>
      if String.eqb (Cell.name cell) cell_name then Some r
      else match remove_first_cell cell_name r with
           | Some r' => Some (cell :: r')
           | None => None
           end
  end.

(** The Micro after the call, and the boolean it returns. *)
Definition remove_cell (m : t) (cell_name : string) : t * bool :=
  match remove_first_cell cell_name (cells m) with
  | Some cs => (with_cells cs m, true)
  | None => (m, false)
  end.

Fixpoint remove_first_sub_micro (micro_name : string) (ss : list t)
  : option (list t) :=
  match ss with
  | [] => None
  | sub_micro :: r =>
      if String.eqb (name sub_micro) micro_name then Some r
      else match remove_first_sub_micro micro_name r with
           | Some r' => Some (sub_micro :: r')
           | None => None
           end
  end.

Definition remove_sub_micro (m : t) (micro_name : string) : t * bool :=
  match remove_first_sub_micro micro_name (sub_micros m) with
  | Some ss => (with_sub_micros ss m, true)
  | None => (m, false)
  end.

(** One entry of the list [get_cell_placements] returns. *)
Record placement : Type := mk_placement {
  p_cell : string;
  p_x : Q;
  p_y : Q;
  p_orientation : string;
  p_micro : string
}.

Definition get_cell_placements (m : t) : list placement :=
  List.map
    (fun cell =>
       let '(placement_x, placement_y) := Cell.get_placement_origin cell in
       mk_placement (Cell.hierarchical_path cell)
                    (round3 placement_x) (round3 placement_y)
                    (Orientation_value (Cell.orientation cell))
                    (name m))
    (get_all_cells m).

Definition get_cell_by_path (m : t) (path : string) : option Cell.t :=
  List.find (fun cell => String.eqb (Cell.hierarchical_path cell) path)
            (get_all_cells m).

(** [if result:] holds for every Micro the recursive call returns. *)
Fixpoint get_sub_micro_by_path (m : t) (path : string) {struct m} : option t :=
  if String.eqb (hierarchical_path m) path then Some m
  else
    (fix loop (l : list t) : option t :=
       match l with
       | [] => None
       | sub_micro :: r =>
           match get_sub_micro_by_path sub_micro path with
           | Some result => Some result
           | None => loop r
           end
       end) (sub_micros m).

End Micro.

(** ** PlaceCellEngine: the registry of active Micros *)

Module PlaceCellEngine.

(** The attributes read or written by the placement methods; the template
    library and the cached placement list are not touched by them. *)
Record t : Type := mk {
  active_micros : gmap string Micro.t;
  site_info : SiteInfo.t
}.

(** [raise ValueError(f"Micro '{micro_name}' not found")] *)
Inductive error : Type :=
  | NotFound (micro_name : string).

Definition with_active_micros (a : gmap string Micro.t) (e : t) : t :=
  mk a (site_info e).

(** [PlaceCellEngine(site_info=...)] *)
Definition init (s : SiteInfo.t) : t := mk ∅ s.

Definition create_micro (e : t) (nm : string) (ox oy : Q) (descr : string)
  : t * Micro.t :=
  let micro := Micro.init nm ox oy descr (site_info e) in
  (with_active_micros (<[nm := micro]> (active_micros e)) e, micro).

(** The registered Micros are roots: the methods run on them without a
    parent. *)
Definition place_micro (e : t) (micro_name : string) (ox oy : Q)
  : error + t :=
  match active_micros e !! micro_name with
  | None => inl (NotFound micro_name)
  | Some micro =>
      inr (with_active_micros
             (<[micro_name := Micro.set_origin None micro ox oy]>
                (active_micros e)) e)
  end.

Definition place_micro_by_grid (e : t) (micro_name : string) (gx gy : Z)
  : error + t :=
  match active_micros e !! micro_name with
  | None => inl (NotFound micro_name)
  | Some micro =>
      inr (with_active_micros
             (<[micro_name := Micro.set_origin_by_grid None micro gx gy]>
                (active_micros e)) e)
  end.

Definition move_micro (e : t) (micro_name : string) (dx dy : Q)
  : error + t :=
  match active_micros e !! micro_name with
  | None => inl (NotFound micro_name)
  | Some micro =>
      inr (with_active_micros
             (<[micro_name := Micro.move_by None micro dx dy]>
                (active_micros e)) e)
  end.

Definition move_micro_by_grid (e : t) (micro_name : string)
           (dgrid_x dgrid_y : Z) : error + t :=
  match active_micros e !! micro_name with
  | None => inl (NotFound micro_name)
  | Some micro =>
      inr (with_active_micros
             (<[micro_name := Micro.move_by_grid None micro dgrid_x dgrid_y]>
                (active_micros e)) e)
  end.

Definition flip_micro_horizontal (e : t) (micro_name : string) : error + t :=
  match active_micros e !! micro_name with
  | None => inl (NotFound micro_name)
  | Some micro =>
      inr (with_active_micros
             (<[micro_name := Micro.flip_horizontal None micro]>
                (active_micros e)) e)
  end.

Definition get_micro (e : t) (micro_name : string) : option Micro.t :=
  active_micros e !! micro_name.


(** [remove_micro]: the engine after the call, and the boolean it returns. *)
Definition remove_micro (e : t) (micro_name : string) : t * bool :=
  match active_micros e !! micro_name with
  | Some _ => (with_active_micros (delete micro_name (active_micros e)) e, true)
  | None => (e, false)
  end.

(** One record of the list given to [create_micro_from_cells], a dict: the
    keys [cell], [x] and [y] are read with [cell_data[...]], which raises
    [KeyError] when the key is missing; the others with
    [cell_data.get(..., default)]. *)
Record cell_data : Type := mk_cell_data {
  cd_cell : option string;
  cd_x : option Q;
  cd_y : option Q;
  cd_orientation : option string;
  cd_width : option Q;
  cd_height : option Q
}.

(** What the loop of [create_micro_from_cells] can raise. *)
Inductive data_error : Type :=
  | ValueError (orientation : string)
  | KeyError (key : string).

(** The [Cell] the loop body constructs from one record.  The orientation is
    read first, then the sizes, then the three keys in the order of the
    arguments of [Cell(...)]. *)
Definition cell_from_data (data : cell_data) : data_error + Cell.t :=
  match Orientation_of_value (default "N" (cd_orientation data)) with
  | None => inl (ValueError (default "N" (cd_orientation data)))
  | Some orientation =>
      let width := default (7 # 50) (cd_width data) in
      let height := default (9 # 10) (cd_height data) in
      match cd_cell data with
      | None => inl (KeyError "cell")
      | Some cell_name =>
          match cd_x data with
          | None => inl (KeyError "x")
          | Some x =>
              match cd_y data with
              | None => inl (KeyError "y")
              | Some y => inr (Cell.init cell_name x y orientation width height)
              end
          end
      end
  end.

(** The loop of [create_micro_from_cells]: the Micro with the cells added so
    far, and the exception that stopped the loop, if any. *)
Fixpoint add_cells_from_data (cells : list cell_data) (micro : Micro.t)
  : Micro.t * option data_error :=
  match cells with
  | [] => (micro, None)
  | data :: r =>
      match cell_from_data data with
      | inl err => (micro, Some err)
      | inr cell => add_cells_from_data r (Micro.add_cell micro cell)
      end
  end.

(** [create_micro_from_cells]: the Micro is registered by [create_micro]
    before the loop and is the object the loop adds the cells to, so the
    engine holds the cells added so far also when the loop raises.  The
    result is the engine after the call, with the Micro returned or the
    exception raised. *)
Definition create_micro_from_cells (e : t) (nm : string)
           (cells : list cell_data) (ox oy : Q) : t * (data_error + Micro.t) :=
  let micro := Micro.init nm ox oy EmptyString (site_info e) in
  let '(micro, raised) := add_cells_from_data cells micro in
  (with_active_micros (<[nm := micro]> (active_micros e)) e,
   match raised with
   | Some err => inl err
   | None => inr micro
   end).

End PlaceCellEngine.

(** * Properties: vocabulary *)

(** ** The Micros of a tree and sequences of calls *)

(** A Micro together with all its sub-micros, recursively. *)
Definition tree_micros (m : Micro.t) : list Micro.t :=
  m :: Micro.get_all_sub_micros m.

(** The calls that move or grow a Micro.  [OnSubMicro i c] is the call [c]
    made on the sub-micro of index [i], reached through a reference such as
    the one [get_sub_micro_by_path] returns. *)
Inductive call : Type :=
  | SetOrigin (x y : Q)
  | SetOriginByGrid (grid_x grid_y : Z)
  | MoveBy (dx dy : Q)
  | MoveByGrid (dgrid_x dgrid_y : Z)
  | AddCell (cell : Cell.t)
  | AddSubMicro (sub_micro : Micro.t)
  | FlipHorizontal
  | OnSubMicro (i : nat) (c : call).

(** The Micro after one call; [parent] is what its [parent] attribute refers
    to.  A call addressed to a sub-micro that does not exist is not made. *)
Fixpoint do_call (parent : option Micro.parent_ctx) (m : Micro.t)
         (c : call) {struct c} : Micro.t :=
  match c with
  | SetOrigin x y => Micro.set_origin parent m x y
  | SetOriginByGrid i j => Micro.set_origin_by_grid parent m i j
  | MoveBy dx dy => Micro.move_by parent m dx dy
  | MoveByGrid di dj => Micro.move_by_grid parent m di dj
  | AddCell cell => Micro.add_cell m cell
  | AddSubMicro sub_micro => Micro.add_sub_micro m sub_micro
  | FlipHorizontal => Micro.flip_horizontal parent m
  | OnSubMicro i c' =>
      match Micro.sub_micros m !! i with
      | Some sub_micro =>
          Micro.with_sub_micros
            (<[i := do_call (Some (Micro.ctx_of m)) sub_micro c']>
               (Micro.sub_micros m))
            m
      | None => m
      end
  end.

Definition do_calls (parent : option Micro.parent_ctx) (cs : list call)
           (m : Micro.t) : Micro.t :=
  fold_left (do_call parent) cs m.

(** ** Positions *)

(** The absolute position of a cell is the origin of the Micro that owns it
    plus the stored position of the cell. *)
Definition positioned (ox oy : Q) (c : Cell.t) : Prop :=
  Cell.absolute_x c = fadd ox (Cell.x c) /\
  Cell.absolute_y c = fadd oy (Cell.y c).

Definition cells_positioned (m : Micro.t) : Prop :=
  Forall (positioned (Micro.origin_x m) (Micro.origin_y m)) (Micro.cells m).

(** The cached bounding box of a cell agrees with its absolute position and
    its size. *)
Definition boxed (c : Cell.t) : Prop :=
  Cell.bbox_min_x c = Cell.absolute_x c /\
  Cell.bbox_min_y c = Cell.absolute_y c /\
  Cell.bbox_max_x c = fadd (Cell.absolute_x c) (Cell.width c) /\
  Cell.bbox_max_y c = fadd (Cell.absolute_y c) (Cell.height c).

Definition cells_boxed (m : Micro.t) : Prop := Forall boxed (Micro.cells m).

(** The positions the cells of a tree would have if every origin were an
    offset from the parent: the sum of the origins of all the Micros on the
    way down to the cell, plus the stored position. *)
Fixpoint summed_positions (acc_x acc_y : Q) (m : Micro.t) : list (Q * Q) :=
  let sx := acc_x + Micro.origin_x m in
  let sy := acc_y + Micro.origin_y m in
  List.map (fun c => (sx + Cell.x c, sy + Cell.y c)) (Micro.cells m)
  ++ flat_map (summed_positions sx sy) (Micro.sub_micros m).

Definition absolute_positions (m : Micro.t) : list (Q * Q) :=
  List.map (fun c => (Cell.absolute_x c, Cell.absolute_y c))
           (Micro.get_all_cells m).

Definition same_position (p q : Q * Q) : Prop :=
  fst p == fst q /\ snd p == snd q.

(** ** Lattice points *)

Definition multiple_of (pitch x : Q) : Prop :=
  exists k : Z, x == inject_Z k * pitch.

Definition lattice_point (s : SiteInfo.t) (x y : Q) : Prop :=
  multiple_of (SiteInfo.width s) x /\ multiple_of (SiteInfo.height s) y.

Definition origin_on_lattice (m : Micro.t) : Prop :=
  lattice_point (Micro.site_info m) (Micro.origin_x m) (Micro.origin_y m).

(** ** Rows and orientations *)

(** The row index [round(absolute_y / pitch_y)] of an ordinate. *)
Definition row_index (s : SiteInfo.t) (abs_y : Q) : Z :=
  py_round (fdiv abs_y (SiteInfo.height s)).

(** Even rows hold FS or S, odd rows hold N or FN. *)
Definition row_parity (s : SiteInfo.t) (c : Cell.t) : Prop :=
  if Z.even (row_index s (Cell.absolute_y c))
  then Cell.orientation c = FS \/ Cell.orientation c = S
  else Cell.orientation c = N \/ Cell.orientation c = FN.

Definition cells_row_parity (m : Micro.t) : Prop :=
  Forall (row_parity (Micro.site_info m)) (Micro.cells m).

(** The partner of an orientation across a horizontal flip. *)
Definition mirror_partner (o : Orientation) : Orientation :=
  match o with N => FN | FN => N | S => FS | FS => S end.

(** The orientation [get_orientation_for_row] gives to orientation [o] in a
    row of index [j], as the code has it: the groups are {FS, N} and {FN, S}. *)
Definition orientation_in_row (o : Orientation) (j : Z) : Orientation :=
  match o with
  | FS | N => if Z.even j then FS else N
  | FN | S => if Z.even j then S else FN
  end.

(** The same as the specification words it: group L = {FN, N} gets FS on
    even rows and N on odd rows, group R = {FS, S} gets S on even rows and FS
    on odd rows. *)
Definition orientation_in_row_spec (o : Orientation) (j : Z) : Orientation :=
  match o with
  | FN | N => if Z.even j then FS else N
  | FS | S => if Z.even j then S else FS
  end.

(** ** Parts of the methods *)

(** The width [max_x - min_x] that [flip_horizontal] mirrors about. *)
Definition content_width (m : Micro.t) : Q :=
  let '(min_x, _, max_x, _) := Micro.calculate_bounding_box m in
  fsub max_x min_x.

(** One cell after [flip_horizontal] of its owner [m]. *)
Definition flipped_cell (m : Micro.t) (cell : Cell.t) : Cell.t :=
  Micro.refresh_cell (Micro.origin_x m) (Micro.origin_y m) (Micro.site_info m)
    (Cell.flip_oritentation
       (Cell.set_rel_position
          (fsub (fsub (content_width m) (Cell.x cell))
                (fsub (Cell.bbox_max_x cell) (Cell.bbox_min_x cell)))
          (Cell.y cell) (Some (Micro.site_info m)) cell)).

(** The depth of a list of sub-micros, as [Micro.depth] folds it. *)
Definition subs_depth (l : list Micro.t) : nat :=
  fold_right (fun s d => Nat.max (Datatypes.S (Micro.depth s)) d) O l.

(** The copy that [add_sub_micro] appends to the sub-micros of [self]. *)
Definition attached (cl : Micro.t -> Micro.t) (self sub_micro : Micro.t)
  : Micro.t :=
  let cpy := Micro.set_hierarchical_path (Micro.hierarchical_path self)
                                         (cl sub_micro) in
  Micro.set_origin (Some (Micro.ctx_of self)) cpy
                   (fadd (Micro.origin_x self) (Micro.origin_x cpy))
                   (fadd (Micro.origin_y self) (Micro.origin_y cpy)).

(** The copy that [add_cell] appends to the cells of [self]. *)
Definition placed (self : Micro.t) (cell : Cell.t) : Cell.t :=
  Cell.set_hierarchical_path (Micro.hierarchical_path self)
    (Cell.set_absolute_position (Micro.origin_x self) (Micro.origin_y self)
                                (Some (Micro.site_info self)) (Cell.clone cell)).

(** What a cell is constructed from: name, stored position, orientation and
    size. *)
Definition stored_cell (c : Cell.t)
  : string * Q * Q * Orientation * Q * Q :=
  (Cell.name c, Cell.x c, Cell.y c, Cell.orientation c,
   Cell.width c, Cell.height c).

Definition absolute_position (c : Cell.t) : Q * Q :=
  (Cell.absolute_x c, Cell.absolute_y c).

(** What a Micro is constructed from, with what its cells are constructed
    from and the names of its sub-micros, in order. *)
Definition root_view (m : Micro.t)
  : Q * Q * string * Q * Q * list (string * Q * Q * Orientation * Q * Q)
    * list string :=
  (Micro.origin_x m, Micro.origin_y m, Micro.description m,
   SiteInfo.width (Micro.site_info m), SiteInfo.height (Micro.site_info m),
   List.map stored_cell (Micro.cells m),
   List.map Micro.name (Micro.sub_micros m)).

(** A Micro built anew from the constructor arguments of [m], from its cells
    (through [g]) and from its sub-micros (through [h]), the way [clone] and
    [_load_from_dict] build one; [cl] is the clone inside [add_sub_micro]. *)
Definition rebuilt (nm : string) (m : Micro.t) (g : Cell.t -> Cell.t)
           (cl h : Micro.t -> Micro.t) : Micro.t :=
  fold_left (fun acc s => Micro.add_sub_micro_with cl acc (h s))
            (Micro.sub_micros m)
            (fold_left (fun acc c => Micro.add_cell acc (g c))
                       (Micro.cells m)
                       (Micro.init nm (Micro.origin_x m) (Micro.origin_y m)
                          (Micro.description m)
                          (SiteInfo.mk (SiteInfo.width (Micro.site_info m))
                                       (SiteInfo.height (Micro.site_info m))))).

(** The Micro that [_load_from_dict] builds from the record of [m]. *)
Fixpoint loaded (m : Micro.t) : Micro.t :=
  fold_left
    (fun micro sub_micro => Micro.add_sub_micro micro (loaded sub_micro))
    (Micro.sub_micros m)
    (fold_left
       (fun micro c =>
          Micro.add_cell micro
            (Cell.init (Cell.name c) (Cell.x c) (Cell.y c) (Cell.orientation c)
                       (Cell.width c) (Cell.height c)))
       (Micro.cells m)
       (Micro.init (Micro.name m) (Micro.origin_x m) (Micro.origin_y m)
                   (Micro.description m)
                   (SiteInfo.mk (SiteInfo.width (Micro.site_info m))
                                (SiteInfo.height (Micro.site_info m))))).

(** The clone before its loop over the sub-micros. *)
Definition cloned_cells (new_name : option string) (m : Micro.t) : Micro.t :=
  fold_left (fun cloned_micro cell => Micro.add_cell cloned_micro (Cell.clone cell))
            (Micro.cells m)
            (Micro.init (Micro.clone_name new_name m) (Micro.origin_x m)
                        (Micro.origin_y m) (Micro.description m)
                        (SiteInfo.mk (SiteInfo.width (Micro.site_info m))
                                     (SiteInfo.height (Micro.site_info m)))).

(** ** The engine calls and the Micro methods *)

Definition failed (r : PlaceCellEngine.error + PlaceCellEngine.t) : Prop :=
  match r with inl _ => True | inr _ => False end.

(** The call [r] fails exactly when [micro_name] is not registered, with the
    not-found error for that name; otherwise it replaces the registered Micro
    by what the method [f] makes of it. *)
Definition delegates (e : PlaceCellEngine.t) (micro_name : string)
           (f : Micro.t -> Micro.t)
           (r : PlaceCellEngine.error + PlaceCellEngine.t) : Prop :=
  (failed r <-> PlaceCellEngine.active_micros e !! micro_name = None) /\
  (failed r -> r = inl (PlaceCellEngine.NotFound micro_name)) /\
  (forall micro,
      PlaceCellEngine.active_micros e !! micro_name = Some micro ->
      r = inr (PlaceCellEngine.with_active_micros
                 (<[micro_name := f micro]> (PlaceCellEngine.active_micros e))
                 e)).


(** ** Example grids, cells and Micros *)

Definition unit_grid : SiteInfo.t := SiteInfo.mk 1 1.

Definition cell_a : Cell.t := Cell.init "a" 0 0 N (1 # 2) 1.
Definition cell_b : Cell.t := Cell.init "b" 1 0 N (1 # 2) 1.
Definition cell_fn : Cell.t := Cell.init "c" 0 0 FN (7 # 50) (9 # 10).

(** A container with two cells of width 0.5 at x = 0 and x = 1. *)
Definition two_cells : Micro.t :=
  Micro.add_cell
    (Micro.add_cell (Micro.init "A" 0 0 "container" unit_grid) cell_a) cell_b.

(** The two cells as [add_cell] has stored them. *)
Definition placed_a : Cell.t :=
  placed (Micro.init "A" 0 0 "container" unit_grid) cell_a.
Definition placed_b : Cell.t :=
  placed (Micro.init "A" 0 0 "container" unit_grid) cell_b.

(** A Micro with one cell, and a root at (1, 0) to which it is attached. *)
Definition leaf_B : Micro.t :=
  Micro.add_cell (Micro.init "B" 0 0 "leaf" unit_grid) cell_a.

Definition nested : Micro.t :=
  Micro.add_sub_micro (Micro.init "A" 1 0 "root" unit_grid) leaf_B.

(** A root constructed off the lattice of its grid. *)
Definition off_lattice : Micro.t := Micro.init "A" (1 # 4) 0 "root" unit_grid.



(** A container at the origin with two cells of width 0.5 at x = 0 and
    x = 1 whose orientations, FS and S, fit their row, the row 0. *)
Definition cell_fs : Cell.t := Cell.init "a" 0 0 FS (1 # 2) 1.
Definition cell_s : Cell.t := Cell.init "b" 1 0 S (1 # 2) 1.

Definition two_cells_fitted : Micro.t :=
  Micro.add_cell
    (Micro.add_cell (Micro.init "A" 0 0 "container" unit_grid) cell_fs) cell_s.

Definition placed_fs : Cell.t :=
  placed (Micro.init "A" 0 0 "container" unit_grid) cell_fs.
Definition placed_s : Cell.t :=
  placed (Micro.init "A" 0 0 "container" unit_grid) cell_s.


(** ** The claims that fail, as the specification states them *)


(** [move_by] leaves the Micro in the state [set_origin] gives for the
    current origin plus the snapped delta. *)
Definition move_by_is_set_origin (parent : option Micro.parent_ctx)
           (m : Micro.t) (dx dy : Q) : Prop :=
  Micro.move_by parent m dx dy =
  Micro.set_origin parent m
    (fadd (Micro.origin_x m)
          (fst (SiteInfo.snap_to_grid (Micro.site_info m) dx dy)))
    (fadd (Micro.origin_y m)
          (snd (SiteInfo.snap_to_grid (Micro.site_info m) dx dy))).

(** After [flip_horizontal] the two cells have swapped their places and each
    orientation is the mirror partner of the one before. *)
Definition flip_swaps_and_mirrors (m : Micro.t) : Prop :=
  List.map Cell.x (Micro.cells (Micro.flip_horizontal None m)) = [1; 0] /\
  List.map Cell.orientation (Micro.cells (Micro.flip_horizontal None m)) =
  List.map (fun c => mirror_partner (Cell.orientation c)) (Micro.cells m).

(** Every absolute position is the sum of the origins of all the ancestors
    plus the stored position. *)
Definition positions_are_summed_origins (m : Micro.t) : Prop :=
  Forall2 same_position (absolute_positions m) (summed_positions 0 0 m).

(** [get_orientation_for_row] follows the table of the specification. *)
Definition orientation_for_row_as_specified (c : Cell.t) (row_y : Q) : Prop :=
  Cell.get_orientation_for_row c row_y =
  orientation_in_row_spec (Cell.orientation c)
                          (row_index (Cell.site_info c) row_y).

(** ** Vocabulary of the further properties *)

(** The partner of an orientation across the boundary of two rows. *)
Definition row_partner (o : Orientation) : Orientation :=
  match o with N => FS | FS => N | S => FN | FN => S end.

(** Membership in [left_ori], the test of [get_orientation_for_row]. *)
Definition in_left_ori (o : Orientation) : bool :=
  existsb (Orientation_eqb o) Cell.left_ori.

(** [f"{parent_path}/{name}"], or the name alone under an empty path. *)
Definition join_path (parent_path nm : string) : string :=
  if String.eqb parent_path EmptyString then nm
  else parent_path +:+ "/" +:+ nm.

(** The names and paths of a tree: of the Micro, of the cells it owns and,
    recursively, of its sub-micros. *)
Inductive skeleton : Type :=
  | Skeleton (nm path : string) (cells : list (string * string))
             (subs : list skeleton).

Fixpoint skeleton_of (m : Micro.t) : skeleton :=
  Skeleton (Micro.name m) (Micro.hierarchical_path m)
           (List.map (fun c => (Cell.name c, Cell.hierarchical_path c))
                     (Micro.cells m))
           (List.map skeleton_of (Micro.sub_micros m)).

(** The paths right below a Micro: the path of each owned cell and of each
    direct sub-micro is the path of the Micro followed by their name. *)
Definition paths_below (m : Micro.t) : Prop :=
  Forall (fun c => Cell.hierarchical_path c
                   = join_path (Micro.hierarchical_path m) (Cell.name c))
         (Micro.cells m) /\
  Forall (fun s => Micro.hierarchical_path s
                   = join_path (Micro.hierarchical_path m) (Micro.name s))
         (Micro.sub_micros m).

(** An engine call on the Micro registered as [micro_name] leaves the grid
    of the engine and the Micros registered under other names alone. *)
Definition others_untouched (e : PlaceCellEngine.t) (micro_name : string)
           (e' : PlaceCellEngine.t) : Prop :=
  PlaceCellEngine.site_info e' = PlaceCellEngine.site_info e /\
  forall other, other <> micro_name ->
                PlaceCellEngine.get_micro e' other
                = PlaceCellEngine.get_micro e other.

(** The corner of the cached box of a cell that its orientation names. *)
Definition box_corner (c : Cell.t) : Q * Q :=
  match Cell.orientation c with
  | N => (Cell.bbox_min_x c, Cell.bbox_min_y c)
  | S => (Cell.bbox_max_x c, Cell.bbox_max_y c)
  | FN => (Cell.bbox_max_x c, Cell.bbox_min_y c)
  | FS => (Cell.bbox_min_x c, Cell.bbox_max_y c)
  end.

(** An engine with the default grid and no Micro, and two records for
    [create_micro_from_cells]. *)
Definition empty_engine : PlaceCellEngine.t :=
  PlaceCellEngine.init SiteInfo.default.

Definition record_a : PlaceCellEngine.cell_data :=
  PlaceCellEngine.mk_cell_data (Some "a") (Some 0) (Some 0) None None None.

Definition record_bad : PlaceCellEngine.cell_data :=
  PlaceCellEngine.mk_cell_data (Some "b") (Some 1) (Some 0) (Some "E")
                               None None.

(** The grid coordinates cached in a Micro are those of its origin. *)
Definition grid_cached (m : Micro.t) : Prop :=
  (Micro.grid_x m, Micro.grid_y m)
  = SiteInfo.to_grid_coords (Micro.site_info m)
                            (Micro.origin_x m) (Micro.origin_y m).

(** A cell carries the grid [s], and the grid coordinates cached in it are
    those of its absolute position and of its stored position. *)
Definition cell_grid_cached (s : SiteInfo.t) (c : Cell.t) : Prop :=
  Cell.site_info c = s /\
  (Cell.grid_x c, Cell.grid_y c)
  = SiteInfo.to_grid_coords s (Cell.absolute_x c) (Cell.absolute_y c) /\
  (Cell.rel_grid_x c, Cell.rel_grid_y c)
  = SiteInfo.to_grid_coords s (Cell.x c) (Cell.y c).

Definition cells_grid_cached (m : Micro.t) : Prop :=
  Forall (cell_grid_cached (Micro.site_info m)) (Micro.cells m).

(** * Properties: proofs *)

(** ** Arithmetic *)

#[global] Arguments fadd : simpl never.
#[global] Arguments fsub : simpl never.
#[global] Arguments fmul : simpl never.
#[global] Arguments fdiv : simpl never.
#[global] Arguments imul : simpl never.
#[global] Arguments py_round : simpl never.
#[global] Arguments round3 : simpl never.

Lemma fadd_eq (a b : Q) : fadd a b == a + b.
Proof. unfold fadd. apply Qred_correct. Qed.

Lemma fsub_eq (a b : Q) : fsub a b == a - b.
Proof. unfold fsub. apply Qred_correct. Qed.

Lemma fmul_eq (a b : Q) : fmul a b == a * b.
Proof. unfold fmul. apply Qred_correct. Qed.

Lemma fdiv_eq (a b : Q) : fdiv a b == a / b.
Proof. unfold fdiv. apply Qred_correct. Qed.

Lemma imul_eq (n : Z) (a : Q) : imul n a == inject_Z n * a.
Proof. unfold imul. apply fmul_eq. Qed.

Lemma py_round_comp (p q : Q) : p == q -> py_round p = py_round q.
Proof.
  intros E. unfold py_round.
  rewrite (Qfloor_comp _ _ E).
  assert (C : Qcompare (p - inject_Z (Qfloor q)) (1 # 2)
              = Qcompare (q - inject_Z (Qfloor q)) (1 # 2)).
  { apply Qcompare_comp; [rewrite E|]; reflexivity. }
  rewrite C. reflexivity.
Qed.

Lemma py_round_inject_Z (n : Z) : py_round (inject_Z n) = n.
Proof.
  unfold py_round. rewrite Qfloor_Z.
  assert (Z0 : inject_Z n - inject_Z n == 0) by ring.
  assert (L : Qcompare (inject_Z n - inject_Z n) (1 # 2) = Lt).
  { apply Qlt_alt. rewrite Z0. reflexivity. }
  rewrite L. reflexivity.
Qed.

Lemma py_round_multiple (n : Z) (w : Q) :
  ~ w == 0 -> py_round (fdiv (imul n w) w) = n.
Proof.
  intros Hw. rewrite <- (py_round_inject_Z n) at 2.
  apply py_round_comp. rewrite fdiv_eq, imul_eq. field. exact Hw.
Qed.

Lemma mod2_even (j : Z) : (j mod 2 =? 0)%Z = Z.even j.
Proof. rewrite Zmod_even. destruct (Z.even j); reflexivity. Qed.

(** ** Induction on a tree of Micros *)

Lemma Micro_tree_ind (P : Micro.t -> Prop) :
  (forall m, Forall P (Micro.sub_micros m) -> P m) -> forall m, P m.
Proof.
  intros H. fix IH 1. intros m. apply H.
  destruct m as [nm ox oy d s cs subs path gx gy rgx rgy]. cbn.
  induction subs as [|a r IHr]; constructor; [apply IH | exact IHr].
Qed.

Lemma tree_micros_unfold (m : Micro.t) :
  tree_micros m = m :: flat_map tree_micros (Micro.sub_micros m).
Proof. destruct m. reflexivity. Qed.

Lemma Forall_tree_micros (P : Micro.t -> Prop) (m : Micro.t) :
  Forall P (tree_micros m) <->
  P m /\ Forall (fun s => Forall P (tree_micros s)) (Micro.sub_micros m).
Proof.
  rewrite tree_micros_unfold. split.
  - intros H. inversion H as [|? ? H1 H2]; subst. split; [exact H1|].
    apply Forall_flat_map. exact H2.
  - intros [H1 H2]. constructor; [exact H1|]. apply Forall_flat_map. exact H2.
Qed.

(** ** What [set_origin] and [_update_absolute_positions] compute *)

Lemma set_origin_unfold parent m x y :
  Micro.set_origin parent m x y =
  Micro._update_absolute_positions
    (Micro._update_grid_coordinates parent
       (Micro.with_origin (fst (SiteInfo.snap_to_grid (Micro.site_info m) x y))
                          (snd (SiteInfo.snap_to_grid (Micro.site_info m) x y))
                          m)).
Proof.
  destruct m, parent as [[ps px py]|];
    unfold Micro._update_absolute_positions; reflexivity.
Qed.

Lemma update_grid_origin_x parent m :
  Micro.origin_x (Micro._update_grid_coordinates parent m) = Micro.origin_x m.
Proof. destruct parent as [[ps px py]|]; reflexivity. Qed.

Lemma update_grid_origin_y parent m :
  Micro.origin_y (Micro._update_grid_coordinates parent m) = Micro.origin_y m.
Proof. destruct parent as [[ps px py]|]; reflexivity. Qed.

Lemma update_grid_site_info parent m :
  Micro.site_info (Micro._update_grid_coordinates parent m) = Micro.site_info m.
Proof. destruct parent as [[ps px py]|]; reflexivity. Qed.

Lemma update_grid_cells parent m :
  Micro.cells (Micro._update_grid_coordinates parent m) = Micro.cells m.
Proof. destruct parent as [[ps px py]|]; reflexivity. Qed.

Lemma update_grid_sub_micros parent m :
  Micro.sub_micros (Micro._update_grid_coordinates parent m) = Micro.sub_micros m.
Proof. destruct parent as [[ps px py]|]; reflexivity. Qed.

Lemma update_abs_cells m :
  Micro.cells (Micro._update_absolute_positions m) =
  List.map (Micro.refresh_cell (Micro.origin_x m) (Micro.origin_y m)
                               (Micro.site_info m)) (Micro.cells m).
Proof. reflexivity. Qed.

Lemma update_abs_sub_micros m :
  Micro.sub_micros (Micro._update_absolute_positions m) =
  List.map (fun sub_micro =>
              Micro.set_origin (Some (Micro.ctx_of m)) sub_micro
                (fadd (Micro.origin_x m) (Micro.origin_x sub_micro))
                (fadd (Micro.origin_y m) (Micro.origin_y sub_micro)))
           (Micro.sub_micros m).
Proof. reflexivity. Qed.

Lemma update_abs_origin_x m :
  Micro.origin_x (Micro._update_absolute_positions m) = Micro.origin_x m.
Proof. reflexivity. Qed.

Lemma update_abs_origin_y m :
  Micro.origin_y (Micro._update_absolute_positions m) = Micro.origin_y m.
Proof. reflexivity. Qed.

Lemma update_abs_site_info m :
  Micro.site_info (Micro._update_absolute_positions m) = Micro.site_info m.
Proof. reflexivity. Qed.

Lemma set_origin_origin_x parent m x y :
  Micro.origin_x (Micro.set_origin parent m x y) =
  fst (SiteInfo.snap_to_grid (Micro.site_info m) x y).
Proof.
  rewrite set_origin_unfold, update_abs_origin_x, update_grid_origin_x.
  reflexivity.
Qed.

Lemma set_origin_origin_y parent m x y :
  Micro.origin_y (Micro.set_origin parent m x y) =
  snd (SiteInfo.snap_to_grid (Micro.site_info m) x y).
Proof.
  rewrite set_origin_unfold, update_abs_origin_y, update_grid_origin_y.
  reflexivity.
Qed.

Lemma set_origin_site_info parent m x y :
  Micro.site_info (Micro.set_origin parent m x y) = Micro.site_info m.
Proof.
  rewrite set_origin_unfold, update_abs_site_info, update_grid_site_info.
  reflexivity.
Qed.

(** ** One cell after a refresh *)

Lemma refresh_cell_positioned ox oy s c :
  positioned ox oy (Micro.refresh_cell ox oy s c).
Proof. split; reflexivity. Qed.

Lemma refresh_cell_boxed ox oy s c : boxed (Micro.refresh_cell ox oy s c).
Proof. repeat split; reflexivity. Qed.

Lemma refresh_cell_site_info ox oy s c :
  Cell.site_info (Micro.refresh_cell ox oy s c) = s.
Proof. reflexivity. Qed.

Lemma get_orientation_for_row_eq c row_y :
  Cell.get_orientation_for_row c row_y =
  orientation_in_row (Cell.orientation c)
                     (row_index (Cell.site_info c) row_y).
Proof.
  unfold Cell.get_orientation_for_row, orientation_in_row, row_index.
  rewrite mod2_even. destruct (Cell.orientation c); reflexivity.
Qed.

Lemma refresh_cell_orientation ox oy s c :
  Cell.orientation (Micro.refresh_cell ox oy s c) =
  orientation_in_row (Cell.orientation c) (row_index s (fadd oy (Cell.y c))).
Proof.
  unfold Micro.refresh_cell. cbn [Cell.set_orientation Cell.with_orientation Cell.orientation].
  rewrite get_orientation_for_row_eq. reflexivity.
Qed.

Lemma refresh_cell_row_parity ox oy s c :
  row_parity s (Micro.refresh_cell ox oy s c).
Proof.
  unfold row_parity. rewrite refresh_cell_orientation.
  change (Cell.absolute_y (Micro.refresh_cell ox oy s c)) with (fadd oy (Cell.y c)).
  unfold orientation_in_row.
  destruct (Z.even (row_index s (fadd oy (Cell.y c)))), (Cell.orientation c); auto.
Qed.

(** ** Properties of every Micro of a tree *)

Lemma set_origin_tree (P : Micro.t -> Prop) :
  (forall parent m x y, P (Micro.set_origin parent m x y)) ->
  forall m parent x y, Forall P (tree_micros (Micro.set_origin parent m x y)).
Proof.
  intros HP m. induction m as [m IH] using Micro_tree_ind. intros parent x y.
  apply Forall_tree_micros. split; [apply HP|].
  rewrite set_origin_unfold, update_abs_sub_micros, update_grid_sub_micros.
  cbn [Micro.sub_micros Micro.with_origin].
  apply List.Forall_map, List.Forall_forall. intros s Hs.
  rewrite List.Forall_forall in IH. apply IH, Hs.
Qed.

Lemma update_abs_subtrees (P : Micro.t -> Prop) :
  (forall parent m x y, P (Micro.set_origin parent m x y)) ->
  forall m, Forall (fun s => Forall P (tree_micros s))
                   (Micro.sub_micros (Micro._update_absolute_positions m)).
Proof.
  intros HP m. rewrite update_abs_sub_micros.
  apply List.Forall_map, List.Forall_forall. intros s _.
  apply set_origin_tree, HP.
Qed.

Lemma move_by_unfold parent m dx dy :
  Micro.move_by parent m dx dy =
  Micro._update_absolute_positions
    (Micro._update_grid_coordinates parent
       (Micro.with_origin
          (fadd (Micro.origin_x m)
                (fst (SiteInfo.snap_to_grid (Micro.site_info m) dx dy)))
          (fadd (Micro.origin_y m)
                (snd (SiteInfo.snap_to_grid (Micro.site_info m) dx dy)))
          m)).
Proof. reflexivity. Qed.

(** A flip ends with the same two updates, on a Micro that has kept its
    origin and its grid. *)
Lemma flip_horizontal_body_shape rec parent m :
  exists m', Micro.flip_horizontal_body rec parent m =
             Micro._update_absolute_positions
               (Micro._update_grid_coordinates parent m') /\
             Micro.origin_x m' = Micro.origin_x m /\
             Micro.origin_y m' = Micro.origin_y m /\
             Micro.site_info m' = Micro.site_info m.
Proof.
  unfold Micro.flip_horizontal_body.
  destruct (Micro.calculate_bounding_box m) as [[[min_x min_y] max_x] max_y].
  eexists. split; [reflexivity|]. repeat split; reflexivity.
Qed.

Lemma flip_horizontal_shape parent m :
  exists m', Micro.flip_horizontal parent m =
             Micro._update_absolute_positions
               (Micro._update_grid_coordinates parent m') /\
             Micro.origin_x m' = Micro.origin_x m /\
             Micro.origin_y m' = Micro.origin_y m /\
             Micro.site_info m' = Micro.site_info m.
Proof.
  unfold Micro.flip_horizontal.
  destruct (Micro.depth m); apply flip_horizontal_body_shape.
Qed.

Section TreeInvariant.

Variable P : Micro.t -> Prop.

(** What the calls do to the Micro they are made on. *)
Hypothesis P_set_origin :
  forall parent m x y, P (Micro.set_origin parent m x y).
Hypothesis P_move_by :
  forall parent m dx dy, P m -> P (Micro.move_by parent m dx dy).
Hypothesis P_add_cell : forall m cell, P m -> P (Micro.add_cell m cell).
Hypothesis P_add_sub_micro :
  forall m sub_micro, P m -> P (Micro.add_sub_micro m sub_micro).
Hypothesis P_flip_horizontal :
  forall parent m, P m -> P (Micro.flip_horizontal parent m).

Hypothesis P_with_sub_micros :
  forall ss m, P m -> P (Micro.with_sub_micros ss m).

Lemma do_call_tree c :
  forall parent m,
    Forall P (tree_micros m) -> Forall P (tree_micros (do_call parent m c)).
Proof.
  induction c as [x y|i j|dx dy|di dj|cell|sub_micro| |i c IH];
    intros parent m H; pose proof H as H0;
    apply Forall_tree_micros in H as [Hm Hsubs]; cbn [do_call].
  - apply set_origin_tree, P_set_origin.
  - apply set_origin_tree, P_set_origin.
  - apply Forall_tree_micros. split; [apply P_move_by, Hm|].
    rewrite move_by_unfold. apply update_abs_subtrees, P_set_origin.
  - apply Forall_tree_micros. split; [apply P_move_by, Hm|].
    unfold Micro.move_by_grid. rewrite move_by_unfold.
    apply update_abs_subtrees, P_set_origin.
  - apply Forall_tree_micros. split; [apply P_add_cell, Hm|]. exact Hsubs.
  - apply Forall_tree_micros. split; [apply P_add_sub_micro, Hm|].
    cbn [Micro.add_sub_micro Micro.add_sub_micro_with Micro.sub_micros
         Micro.with_sub_micros].
    apply List.Forall_app. split; [exact Hsubs|].
    constructor; [|constructor]. apply set_origin_tree, P_set_origin.
  - apply Forall_tree_micros. split; [apply P_flip_horizontal, Hm|].
    destruct (flip_horizontal_shape parent m) as (m' & -> & _).
    apply update_abs_subtrees, P_set_origin.
  - destruct (Micro.sub_micros m !! i) as [s|] eqn:E; [|exact H0].
    apply Forall_tree_micros. split; [apply P_with_sub_micros, Hm|].
    cbn [Micro.sub_micros Micro.with_sub_micros].
    apply Forall_insert; [exact Hsubs|]. apply IH.
    exact (proj1 (Forall_lookup _ _) Hsubs i s E).
Qed.

Lemma do_calls_tree parent cs m :
  Forall P (tree_micros m) -> Forall P (tree_micros (do_calls parent cs m)).
Proof.
  revert m. induction cs as [|c cs IH]; intros m H; [exact H|].
  cbn [do_calls fold_left]. apply IH, do_call_tree, H.
Qed.

End TreeInvariant.

(** ** Cells after an update *)

Lemma update_cells_positioned parent m :
  cells_positioned
    (Micro._update_absolute_positions (Micro._update_grid_coordinates parent m)).
Proof.
  unfold cells_positioned. rewrite update_abs_cells.
  apply List.Forall_map, List.Forall_forall. intros c _.
  apply refresh_cell_positioned.
Qed.

Lemma update_cells_row_parity parent m :
  cells_row_parity
    (Micro._update_absolute_positions (Micro._update_grid_coordinates parent m)).
Proof.
  unfold cells_row_parity. rewrite update_abs_cells.
  apply List.Forall_map, List.Forall_forall. intros c _.
  apply refresh_cell_row_parity.
Qed.

Lemma set_origin_cells_positioned parent m x y :
  cells_positioned (Micro.set_origin parent m x y).
Proof. rewrite set_origin_unfold. apply update_cells_positioned. Qed.

Lemma set_origin_cells_row_parity parent m x y :
  cells_row_parity (Micro.set_origin parent m x y).
Proof. rewrite set_origin_unfold. apply update_cells_row_parity. Qed.

Lemma move_by_cells_positioned parent m dx dy :
  cells_positioned (Micro.move_by parent m dx dy).
Proof. rewrite move_by_unfold. apply update_cells_positioned. Qed.

Lemma move_by_cells_row_parity parent m dx dy :
  cells_row_parity (Micro.move_by parent m dx dy).
Proof. rewrite move_by_unfold. apply update_cells_row_parity. Qed.

Lemma flip_horizontal_cells_positioned parent m :
  cells_positioned (Micro.flip_horizontal parent m).
Proof.
  destruct (flip_horizontal_shape parent m) as (m' & -> & _).
  apply update_cells_positioned.
Qed.

Lemma cell_set_hierarchical_path_positioned ox oy path c :
  positioned ox oy c -> positioned ox oy (Cell.set_hierarchical_path path c).
Proof.
  unfold Cell.set_hierarchical_path.
  destruct (String.eqb path EmptyString); exact (fun H => H).
Qed.

Lemma add_cell_cells_positioned m cell :
  cells_positioned m -> cells_positioned (Micro.add_cell m cell).
Proof.
  intros H. unfold cells_positioned, Micro.add_cell.
  cbn [Micro.cells Micro.with_cells Micro.origin_x Micro.origin_y].
  apply List.Forall_app. split; [exact H|]. constructor; [|constructor].
  apply cell_set_hierarchical_path_positioned. split; reflexivity.
Qed.

Lemma add_sub_micro_cells_positioned m sub_micro :
  cells_positioned m -> cells_positioned (Micro.add_sub_micro m sub_micro).
Proof. exact (fun H => H). Qed.

Lemma update_cells_boxed parent m :
  cells_boxed
    (Micro._update_absolute_positions (Micro._update_grid_coordinates parent m)).
Proof.
  unfold cells_boxed. rewrite update_abs_cells.
  apply List.Forall_map, List.Forall_forall. intros c _.
  apply refresh_cell_boxed.
Qed.

Lemma cell_set_hierarchical_path_boxed path c :
  boxed c -> boxed (Cell.set_hierarchical_path path c).
Proof.
  unfold Cell.set_hierarchical_path.
  destruct (String.eqb path EmptyString); exact (fun H => H).
Qed.

Lemma set_absolute_position_boxed ox oy s c :
  boxed (Cell.set_absolute_position ox oy s c).
Proof.
  unfold boxed, Cell.set_absolute_position, Cell._update_bbox.
  cbn [Cell.bbox_min_x Cell.bbox_min_y Cell.bbox_max_x Cell.bbox_max_y
       Cell.absolute_x Cell.absolute_y Cell.width Cell.height Cell.with_bbox].
  repeat split; reflexivity.
Qed.

Lemma add_cell_cells_boxed m cell :
  cells_boxed m -> cells_boxed (Micro.add_cell m cell).
Proof.
  intros H. unfold cells_boxed, Micro.add_cell.
  cbn [Micro.cells Micro.with_cells].
  apply List.Forall_app. split; [exact H|]. constructor; [|constructor].
  apply cell_set_hierarchical_path_boxed, set_absolute_position_boxed.
Qed.

(** The calls keep the cached boxes of all the cells of a tree up to date. *)
Lemma calls_keep_cells_boxed parent cs m :
  Forall cells_boxed (tree_micros m) ->
  Forall cells_boxed (tree_micros (do_calls parent cs m)).
Proof.
  apply do_calls_tree.
  - intros. rewrite set_origin_unfold. apply update_cells_boxed.
  - intros. rewrite move_by_unfold. apply update_cells_boxed.
  - apply add_cell_cells_boxed.
  - intros ? ? H. exact H.
  - intros p m' _. destruct (flip_horizontal_shape p m') as (m'' & -> & _).
    apply update_cells_boxed.
  - intros ? ? H. exact H.
Qed.

(** So do they keep the absolute positions. *)
Lemma calls_keep_cells_positioned parent cs m :
  Forall cells_positioned (tree_micros m) ->
  Forall cells_positioned (tree_micros (do_calls parent cs m)).
Proof.
  apply do_calls_tree.
  - apply set_origin_cells_positioned.
  - intros. apply move_by_cells_positioned.
  - apply add_cell_cells_positioned.
  - apply add_sub_micro_cells_positioned.
  - intros. apply flip_horizontal_cells_positioned.
  - intros ? ? H. exact H.
Qed.

Lemma init_tree (P : Micro.t -> Prop) nm ox oy d s :
  P (Micro.init nm ox oy d s) ->
  Forall P (tree_micros (Micro.init nm ox oy d s)).
Proof. intros H. apply Forall_tree_micros. split; [exact H | constructor]. Qed.

(** ** Origins and the lattice *)

Lemma snapped_lattice_point s x y :
  lattice_point s (fst (SiteInfo.snap_to_grid s x y))
                  (snd (SiteInfo.snap_to_grid s x y)).
Proof. split; eexists; apply imul_eq. Qed.

Lemma set_origin_on_lattice parent m x y :
  origin_on_lattice (Micro.set_origin parent m x y).
Proof.
  unfold origin_on_lattice.
  rewrite set_origin_origin_x, set_origin_origin_y, set_origin_site_info.
  apply snapped_lattice_point.
Qed.


(** ** The recursion of [clone] and [flip_horizontal]

    Both are defined with the nesting depth as fuel.  This part shows that
    the depth is enough: any larger amount of fuel gives the same result, and
    the functions satisfy the recursive equations of the Python methods. *)

Lemma depth_unfold m : Micro.depth m = subs_depth (Micro.sub_micros m).
Proof. destruct m. reflexivity. Qed.

Lemma subs_depth_map (f : Micro.t -> Micro.t) l :
  (forall s, In s l -> Micro.depth (f s) = Micro.depth s) ->
  subs_depth (List.map f l) = subs_depth l.
Proof.
  induction l as [|a r IH]; intros H; [reflexivity|].
  cbn [List.map subs_depth fold_right].
  fold (subs_depth (List.map f r)). fold (subs_depth r).
  rewrite IH, H; [reflexivity | left; reflexivity |].
  intros s Hs. apply H. right. exact Hs.
Qed.

Lemma subs_depth_In l s : In s l -> (Micro.depth s < subs_depth l)%nat.
Proof.
  induction l as [|a r IH]; intros H; [destruct H|].
  cbn [subs_depth fold_right]. fold (subs_depth r).
  destruct H as [->|H]; [lia|]. specialize (IH H). lia.
Qed.

Lemma depth_sub_micro m s :
  In s (Micro.sub_micros m) -> (Micro.depth s < Micro.depth m)%nat.
Proof. rewrite (depth_unfold m). apply subs_depth_In. Qed.

Lemma depth_O_leaf m : Micro.depth m = O -> Micro.sub_micros m = [].
Proof.
  rewrite depth_unfold. destruct (Micro.sub_micros m) as [|a r]; [reflexivity|].
  cbn [subs_depth fold_right]. lia.
Qed.

Lemma set_origin_sub_micros parent m x y :
  exists f, Micro.sub_micros (Micro.set_origin parent m x y) =
            List.map (fun s => Micro.set_origin (f s).1.1 s (f s).1.2 (f s).2)
                     (Micro.sub_micros m).
Proof.
  rewrite set_origin_unfold, update_abs_sub_micros, update_grid_sub_micros.
  cbn [Micro.sub_micros Micro.with_origin].
  eexists (fun s => (_, _, _)). reflexivity.
Qed.

Lemma depth_set_origin m :
  forall parent x y, Micro.depth (Micro.set_origin parent m x y) = Micro.depth m.
Proof.
  induction m as [m IH] using Micro_tree_ind. intros parent x y.
  rewrite (depth_unfold (Micro.set_origin parent m x y)), (depth_unfold m).
  destruct (set_origin_sub_micros parent m x y) as [f ->].
  apply subs_depth_map. intros s Hs.
  rewrite List.Forall_forall in IH. apply IH, Hs.
Qed.

Lemma set_hierarchical_path_sub_micros parent_path m :
  exists path, Micro.sub_micros (Micro.set_hierarchical_path parent_path m) =
               List.map (Micro.set_hierarchical_path path) (Micro.sub_micros m).
Proof. destruct m. eexists. reflexivity. Qed.

Lemma depth_set_hierarchical_path m :
  forall parent_path,
    Micro.depth (Micro.set_hierarchical_path parent_path m) = Micro.depth m.
Proof.
  induction m as [m IH] using Micro_tree_ind. intros parent_path.
  rewrite (depth_unfold (Micro.set_hierarchical_path parent_path m)),
    (depth_unfold m).
  destruct (set_hierarchical_path_sub_micros parent_path m) as [path ->].
  apply subs_depth_map. intros s Hs.
  rewrite List.Forall_forall in IH. apply IH, Hs.
Qed.

Lemma depth_attached cl self s :
  Micro.depth (attached cl self s) = Micro.depth (cl s).
Proof.
  unfold attached. cbv zeta.
  rewrite depth_set_origin, depth_set_hierarchical_path. reflexivity.
Qed.

Lemma attached_with_sub_micros cl ss self s :
  attached cl (Micro.with_sub_micros ss self) s = attached cl self s.
Proof. reflexivity. Qed.

Lemma add_sub_micro_with_eq cl self s :
  Micro.add_sub_micro_with cl self s =
  Micro.with_sub_micros (Micro.sub_micros self ++ [attached cl self s]) self.
Proof. reflexivity. Qed.

Lemma fold_add_sub_micro_with cl (g : Micro.t -> Micro.t) l :
  forall m0,
    fold_left (fun acc s => Micro.add_sub_micro_with cl acc (g s)) l m0 =
    Micro.with_sub_micros
      (Micro.sub_micros m0 ++ List.map (fun s => attached cl m0 (g s)) l) m0.
Proof.
  induction l as [|a r IH]; intros m0.
  - cbn [fold_left List.map]. rewrite List.app_nil_r. destruct m0. reflexivity.
  - cbn [fold_left List.map]. rewrite IH, add_sub_micro_with_eq.
    cbn [Micro.sub_micros Micro.with_sub_micros].
    rewrite <- List.app_assoc. reflexivity.
Qed.

Lemma fold_add_cell_sub_micros (g : Cell.t -> Cell.t) cs :
  forall m0,
    Micro.sub_micros (fold_left (fun acc c => Micro.add_cell acc (g c)) cs m0) =
    Micro.sub_micros m0.
Proof.
  induction cs as [|a r IH]; intros m0; [reflexivity|].
  cbn [fold_left]. rewrite IH. reflexivity.
Qed.

Lemma cloned_cells_sub_micros new_name m :
  Micro.sub_micros (cloned_cells new_name m) = [].
Proof. unfold cloned_cells. rewrite fold_add_cell_sub_micros. reflexivity. Qed.

Lemma clone_body_eq rec new_name m :
  Micro.clone_body rec new_name m =
  Micro.with_sub_micros
    (List.map (fun s => attached rec (cloned_cells new_name m) (rec s))
              (Micro.sub_micros m))
    (cloned_cells new_name m).
Proof.
  unfold Micro.clone_body. cbv zeta. fold (cloned_cells new_name m).
  rewrite fold_add_sub_micro_with, cloned_cells_sub_micros. reflexivity.
Qed.

Lemma clone_body_ext rec rec' new_name m :
  (forall s, In s (Micro.sub_micros m) ->
             rec s = rec' s /\ rec (rec s) = rec' (rec s)) ->
  Micro.clone_body rec new_name m = Micro.clone_body rec' new_name m.
Proof.
  intros H. rewrite !clone_body_eq. f_equal. apply List.map_ext_in.
  intros s Hs. destruct (H s Hs) as [E1 E2].
  unfold attached. cbv zeta. rewrite <- E1, <- E2. reflexivity.
Qed.

Lemma depth_clone_body rec new_name m :
  (forall s, In s (Micro.sub_micros m) ->
             Micro.depth (rec (rec s)) = Micro.depth s) ->
  Micro.depth (Micro.clone_body rec new_name m) = Micro.depth m.
Proof.
  intros H. rewrite clone_body_eq, depth_unfold, (depth_unfold m).
  cbn [Micro.sub_micros Micro.with_sub_micros].
  apply subs_depth_map. intros s Hs. rewrite depth_attached. apply H, Hs.
Qed.

Lemma clone_fuel_S fuel new_name m :
  Micro.clone_fuel (Datatypes.S fuel) new_name m =
  Micro.clone_body (Micro.clone_fuel fuel None) new_name m.
Proof. reflexivity. Qed.

Lemma depth_clone_fuel fuel :
  forall new_name m,
    (Micro.depth m <= fuel)%nat ->
    Micro.depth (Micro.clone_fuel fuel new_name m) = Micro.depth m.
Proof.
  induction fuel as [|fuel IH]; intros new_name m Hd.
  - cbn [Micro.clone_fuel]. apply depth_clone_body.
    intros s Hs. apply depth_sub_micro in Hs. lia.
  - rewrite clone_fuel_S. apply depth_clone_body. intros s Hs.
    apply depth_sub_micro in Hs.
    rewrite IH; rewrite ?IH; lia.
Qed.

Lemma clone_fuel_step fuel :
  forall new_name m,
    (Micro.depth m <= fuel)%nat ->
    Micro.clone_fuel (Datatypes.S fuel) new_name m =
    Micro.clone_fuel fuel new_name m.
Proof.
  induction fuel as [|fuel IH]; intros new_name m Hd.
  - rewrite clone_fuel_S. cbn [Micro.clone_fuel]. apply clone_body_ext.
    intros s Hs. apply depth_sub_micro in Hs. lia.
  - rewrite (clone_fuel_S (Datatypes.S fuel)), (clone_fuel_S fuel).
    apply clone_body_ext. intros s Hs. apply depth_sub_micro in Hs.
    split; apply IH; rewrite ?depth_clone_fuel; lia.
Qed.

(** More fuel than the depth changes nothing. *)
Lemma clone_fuel_enough k new_name m :
  Micro.clone_fuel (Micro.depth m + k) new_name m = Micro.clone new_name m.
Proof.
  induction k as [|k IH].
  - rewrite Nat.add_0_r. reflexivity.
  - rewrite Nat.add_succ_r, clone_fuel_step; [exact IH | lia].
Qed.

Lemma depth_clone new_name m :
  Micro.depth (Micro.clone new_name m) = Micro.depth m.
Proof. apply depth_clone_fuel. lia. Qed.

(** [clone] satisfies the recursive equation of the Python method: its body,
    with [clone()] itself for the inner calls. *)
Lemma clone_equation new_name m :
  Micro.clone new_name m = Micro.clone_body (Micro.clone None) new_name m.
Proof.
  rewrite <- (clone_fuel_enough 1 new_name m), Nat.add_1_r, clone_fuel_S.
  apply clone_body_ext. intros s Hs. apply depth_sub_micro in Hs.
  assert (E : forall s', (Micro.depth s' < Micro.depth m)%nat ->
                         Micro.clone_fuel (Micro.depth m) None s' =
                         Micro.clone None s').
  { intros s' Hs'.
    replace (Micro.depth m) with (Micro.depth s' + (Micro.depth m - Micro.depth s'))%nat
      by lia.
    apply clone_fuel_enough. }
  split; apply E; rewrite ?E, ?depth_clone; lia.
Qed.

Lemma flip_horizontal_body_ext rec rec' parent m :
  (forall s, In s (Micro.sub_micros m) ->
             forall p x y, rec p (Micro.set_origin p s x y) =
                           rec' p (Micro.set_origin p s x y)) ->
  Micro.flip_horizontal_body rec parent m =
  Micro.flip_horizontal_body rec' parent m.
Proof.
  intros H. unfold Micro.flip_horizontal_body.
  destruct (Micro.calculate_bounding_box m) as [[[min_x min_y] max_x] max_y].
  do 3 f_equal. apply List.map_ext_in. intros s Hs.
  destruct (Micro.calculate_bounding_box s) as [[[a b] c] d].
  apply H, Hs.
Qed.

Lemma flip_horizontal_fuel_S fuel parent m :
  Micro.flip_horizontal_fuel (Datatypes.S fuel) parent m =
  Micro.flip_horizontal_body (Micro.flip_horizontal_fuel fuel) parent m.
Proof. reflexivity. Qed.

Lemma flip_horizontal_fuel_step fuel :
  forall parent m,
    (Micro.depth m <= fuel)%nat ->
    Micro.flip_horizontal_fuel (Datatypes.S fuel) parent m =
    Micro.flip_horizontal_fuel fuel parent m.
Proof.
  induction fuel as [|fuel IH]; intros parent m Hd.
  - rewrite flip_horizontal_fuel_S. cbn [Micro.flip_horizontal_fuel].
    apply flip_horizontal_body_ext.
    intros s Hs. apply depth_sub_micro in Hs. lia.
  - rewrite (flip_horizontal_fuel_S (Datatypes.S fuel)),
      (flip_horizontal_fuel_S fuel).
    apply flip_horizontal_body_ext. intros s Hs p x y.
    apply depth_sub_micro in Hs. apply IH. rewrite depth_set_origin. lia.
Qed.

Lemma flip_horizontal_fuel_enough k parent m :
  Micro.flip_horizontal_fuel (Micro.depth m + k) parent m =
  Micro.flip_horizontal parent m.
Proof.
  induction k as [|k IH].
  - rewrite Nat.add_0_r. reflexivity.
  - rewrite Nat.add_succ_r, flip_horizontal_fuel_step; [exact IH | lia].
Qed.

(** [flip_horizontal] satisfies the recursive equation of the Python method. *)
Lemma flip_horizontal_equation parent m :
  Micro.flip_horizontal parent m =
  Micro.flip_horizontal_body Micro.flip_horizontal parent m.
Proof.
  rewrite <- (flip_horizontal_fuel_enough 1 parent m), Nat.add_1_r,
    flip_horizontal_fuel_S.
  apply flip_horizontal_body_ext. intros s Hs p x y.
  apply depth_sub_micro in Hs.
  set (s' := Micro.set_origin p s x y).
  assert (D : Micro.depth s' = Micro.depth s) by apply depth_set_origin.
  replace (Micro.depth m)
    with (Micro.depth s' + (Micro.depth m - Micro.depth s'))%nat by lia.
  apply flip_horizontal_fuel_enough.
Qed.

(** ** What [clone] and a round trip do keep *)

Lemma placed_with_cells cs self c : placed (Micro.with_cells cs self) c = placed self c.
Proof. reflexivity. Qed.

Lemma add_cell_eq self c :
  Micro.add_cell self c = Micro.with_cells (Micro.cells self ++ [placed self c]) self.
Proof. reflexivity. Qed.

Lemma fold_add_cell (g : Cell.t -> Cell.t) cs :
  forall m0,
    fold_left (fun acc c => Micro.add_cell acc (g c)) cs m0 =
    Micro.with_cells
      (Micro.cells m0 ++ List.map (fun c => placed m0 (g c)) cs) m0.
Proof.
  induction cs as [|a r IH]; intros m0.
  - cbn [fold_left List.map]. rewrite List.app_nil_r. destruct m0. reflexivity.
  - cbn [fold_left List.map]. rewrite IH, add_cell_eq.
    cbn [Micro.cells Micro.with_cells].
    rewrite <- List.app_assoc. reflexivity.
Qed.

Lemma stored_cell_set_hierarchical_path path c :
  stored_cell (Cell.set_hierarchical_path path c) = stored_cell c.
Proof.
  unfold Cell.set_hierarchical_path.
  destruct (String.eqb path EmptyString); reflexivity.
Qed.

Lemma absolute_position_set_hierarchical_path path c :
  absolute_position (Cell.set_hierarchical_path path c) = absolute_position c.
Proof.
  unfold Cell.set_hierarchical_path.
  destruct (String.eqb path EmptyString); reflexivity.
Qed.

Lemma stored_cell_clone c : stored_cell (Cell.clone c) = stored_cell c.
Proof. reflexivity. Qed.

Lemma stored_cell_init nm x y o w h :
  stored_cell (Cell.init nm x y o w h) = (nm, x, y, o, w, h).
Proof. reflexivity. Qed.

Lemma stored_cell_placed self c : stored_cell (placed self c) = stored_cell c.
Proof. unfold placed. rewrite stored_cell_set_hierarchical_path. reflexivity. Qed.

Lemma absolute_position_placed self c :
  absolute_position (placed self c) =
  (fadd (Micro.origin_x self) (Cell.x c), fadd (Micro.origin_y self) (Cell.y c)).
Proof.
  unfold placed. rewrite absolute_position_set_hierarchical_path. reflexivity.
Qed.

Lemma set_origin_name parent m x y :
  Micro.name (Micro.set_origin parent m x y) = Micro.name m.
Proof.
  rewrite set_origin_unfold.
  destruct parent as [[ps px py]|]; reflexivity.
Qed.

Lemma set_hierarchical_path_name parent_path m :
  Micro.name (Micro.set_hierarchical_path parent_path m) = Micro.name m.
Proof. destruct m. reflexivity. Qed.

Lemma attached_name cl self s :
  Micro.name (attached cl self s) = Micro.name (cl s).
Proof.
  unfold attached. cbv zeta.
  rewrite set_origin_name, set_hierarchical_path_name. reflexivity.
Qed.

Section Rebuilt.

Variables (nm : string) (m : Micro.t).
Variables (g : Cell.t -> Cell.t) (cl h : Micro.t -> Micro.t).
Hypothesis g_stored : forall c, stored_cell (g c) = stored_cell c.
Hypothesis h_name : forall s, Micro.name (cl (h s)) = Micro.name s.

Lemma rebuilt_eq :
  rebuilt nm m g cl h =
  Micro.with_sub_micros
    (List.map
       (fun s =>
          attached cl
            (Micro.init nm (Micro.origin_x m) (Micro.origin_y m)
               (Micro.description m)
               (SiteInfo.mk (SiteInfo.width (Micro.site_info m))
                            (SiteInfo.height (Micro.site_info m))))
            (h s))
       (Micro.sub_micros m))
    (Micro.with_cells
       (List.map
          (fun c =>
             placed
               (Micro.init nm (Micro.origin_x m) (Micro.origin_y m)
                  (Micro.description m)
                  (SiteInfo.mk (SiteInfo.width (Micro.site_info m))
                               (SiteInfo.height (Micro.site_info m))))
               (g c))
          (Micro.cells m))
       (Micro.init nm (Micro.origin_x m) (Micro.origin_y m)
          (Micro.description m)
          (SiteInfo.mk (SiteInfo.width (Micro.site_info m))
                       (SiteInfo.height (Micro.site_info m))))).
Proof.
  unfold rebuilt. rewrite fold_add_sub_micro_with, fold_add_cell. reflexivity.
Qed.

Lemma rebuilt_name : Micro.name (rebuilt nm m g cl h) = nm.
Proof. rewrite rebuilt_eq. reflexivity. Qed.

Lemma rebuilt_hierarchical_path :
  Micro.hierarchical_path (rebuilt nm m g cl h) = nm.
Proof. rewrite rebuilt_eq. reflexivity. Qed.

Lemma rebuilt_root_view : root_view (rebuilt nm m g cl h) = root_view m.
Proof.
  rewrite rebuilt_eq. unfold root_view.
  cbn [Micro.origin_x Micro.origin_y Micro.description Micro.site_info
       Micro.cells Micro.sub_micros Micro.with_sub_micros Micro.with_cells
       SiteInfo.width SiteInfo.height].
  rewrite !List.map_map.
  rewrite (List.map_ext (fun c => stored_cell (placed _ (g c))) stored_cell).
  - rewrite (List.map_ext (fun s => Micro.name (attached cl _ (h s)))
                          Micro.name).
    + reflexivity.
    + intros s. rewrite attached_name. apply h_name.
  - intros c. rewrite stored_cell_placed. apply g_stored.
Qed.

Lemma rebuilt_absolute_positions :
  cells_positioned m ->
  List.map absolute_position (Micro.cells (rebuilt nm m g cl h)) =
  List.map absolute_position (Micro.cells m).
Proof.
  intros H. rewrite rebuilt_eq.
  cbn [Micro.cells Micro.with_sub_micros Micro.with_cells].
  rewrite List.map_map. apply List.map_ext_in. intros c Hc.
  rewrite absolute_position_placed.
  unfold cells_positioned in H. rewrite List.Forall_forall in H.
  destruct (H c Hc) as [Hx Hy]. unfold absolute_position.
  pose proof (g_stored c) as E. unfold stored_cell in E.
  assert (Ex : Cell.x (g c) = Cell.x c) by congruence.
  assert (Ey : Cell.y (g c) = Cell.y c) by congruence.
  rewrite Ex, Ey, Hx, Hy. reflexivity.
Qed.

End Rebuilt.

Lemma clone_name_eq new_name m :
  Micro.name (Micro.clone new_name m) = Micro.clone_name new_name m.
Proof. rewrite clone_equation. apply (rebuilt_name _ m Cell.clone). Qed.

Lemma clone_hierarchical_path new_name m :
  Micro.hierarchical_path (Micro.clone new_name m) = Micro.clone_name new_name m.
Proof.
  rewrite clone_equation. apply (rebuilt_hierarchical_path _ m Cell.clone).
Qed.

(** The clone has the origin, the description and the grid pitches of the
    source, its cells are constructed from the same names, stored positions,
    orientations and sizes, and its sub-micros have the same names, one for
    one and in order. *)
Lemma clone_root_view new_name m :
  root_view (Micro.clone new_name m) = root_view m.
Proof.
  rewrite clone_equation.
  apply (rebuilt_root_view _ m Cell.clone (Micro.clone None) (Micro.clone None)).
  - apply stored_cell_clone.
  - intros s. rewrite !clone_name_eq. reflexivity.
Qed.

(** The cells the clone owns itself are where the cells of the source are. *)
Lemma clone_absolute_positions new_name m :
  cells_positioned m ->
  List.map absolute_position (Micro.cells (Micro.clone new_name m)) =
  List.map absolute_position (Micro.cells m).
Proof.
  rewrite clone_equation.
  apply (rebuilt_absolute_positions _ m Cell.clone (Micro.clone None)
                                    (Micro.clone None)).
  apply stored_cell_clone.
Qed.

Lemma loaded_unfold m :
  loaded m =
  fold_left
    (fun micro sub_micro => Micro.add_sub_micro micro (loaded sub_micro))
    (Micro.sub_micros m)
    (fold_left
       (fun micro c =>
          Micro.add_cell micro
            (Cell.init (Cell.name c) (Cell.x c) (Cell.y c) (Cell.orientation c)
                       (Cell.width c) (Cell.height c)))
       (Micro.cells m)
       (Micro.init (Micro.name m) (Micro.origin_x m) (Micro.origin_y m)
                   (Micro.description m)
                   (SiteInfo.mk (SiteInfo.width (Micro.site_info m))
                                (SiteInfo.height (Micro.site_info m))))).
Proof. destruct m. reflexivity. Qed.

Lemma loaded_name m : Micro.name (loaded m) = Micro.name m.
Proof.
  rewrite loaded_unfold.
  apply (rebuilt_name (Micro.name m) m
           (fun c => Cell.init (Cell.name c) (Cell.x c) (Cell.y c)
                               (Cell.orientation c) (Cell.width c)
                               (Cell.height c))
           (Micro.clone None) loaded).
Qed.

Lemma loaded_hierarchical_path m :
  Micro.hierarchical_path (loaded m) = Micro.name m.
Proof.
  rewrite loaded_unfold.
  apply (rebuilt_hierarchical_path (Micro.name m) m
           (fun c => Cell.init (Cell.name c) (Cell.x c) (Cell.y c)
                               (Cell.orientation c) (Cell.width c)
                               (Cell.height c))
           (Micro.clone None) loaded).
Qed.

Lemma loaded_root_view m : root_view (loaded m) = root_view m.
Proof.
  rewrite loaded_unfold.
  apply (rebuilt_root_view (Micro.name m) m
           (fun c => Cell.init (Cell.name c) (Cell.x c) (Cell.y c)
                               (Cell.orientation c) (Cell.width c)
                               (Cell.height c))
           (Micro.clone None) loaded).
  - intros c. reflexivity.
  - intros s. rewrite clone_name_eq. apply loaded_name.
Qed.

Lemma loaded_absolute_positions m :
  cells_positioned m ->
  List.map absolute_position (Micro.cells (loaded m)) =
  List.map absolute_position (Micro.cells m).
Proof.
  rewrite loaded_unfold.
  apply (rebuilt_absolute_positions (Micro.name m) m
           (fun c => Cell.init (Cell.name c) (Cell.x c) (Cell.y c)
                               (Cell.orientation c) (Cell.width c)
                               (Cell.height c))
           (Micro.clone None) loaded).
  intros c. reflexivity.
Qed.

Lemma Orientation_of_value_value o :
  Orientation_of_value (Orientation_value o) = Some o.
Proof. destruct o; reflexivity. Qed.

Lemma cell_to_dict_fields c :
  Cell.d_name (Cell.to_dict c) = Cell.name c /\
  Cell.d_rel_x (Cell.to_dict c) = Cell.x c /\
  Cell.d_rel_y (Cell.to_dict c) = Cell.y c /\
  Cell.d_orientation (Cell.to_dict c) = Orientation_value (Cell.orientation c) /\
  Cell.d_width (Cell.to_dict c) = Cell.width c /\
  Cell.d_height (Cell.to_dict c) = Cell.height c.
Proof.
  unfold Cell.to_dict. destruct (Cell.get_placement_origin c) as [px py].
  repeat split; reflexivity.
Qed.

Lemma load_cells_to_dict cs :
  forall micro,
    Micro.load_cells (List.map Cell.to_dict cs) micro =
    Some (fold_left
            (fun micro c =>
               Micro.add_cell micro
                 (Cell.init (Cell.name c) (Cell.x c) (Cell.y c)
                            (Cell.orientation c) (Cell.width c) (Cell.height c)))
            cs micro).
Proof.
  induction cs as [|c r IH]; intros micro; [reflexivity|].
  cbn [List.map Micro.load_cells fold_left].
  destruct (cell_to_dict_fields c) as (-> & -> & -> & -> & -> & ->).
  rewrite Orientation_of_value_value. apply IH.
Qed.

Lemma load_sub_micros_to_dict subs :
  Forall (fun s => Micro._load_from_dict (Micro.to_dict s) = Some (loaded s))
         subs ->
  forall micro,
    Micro.load_sub_micros Micro._load_from_dict (List.map Micro.to_dict subs)
                          micro =
    Some (fold_left (fun micro s => Micro.add_sub_micro micro (loaded s))
                    subs micro).
Proof.
  induction 1 as [|s r Hs _ IH]; intros micro; [reflexivity|].
  cbn [List.map Micro.load_sub_micros fold_left]. rewrite Hs. apply IH.
Qed.

(** Loading the record of a Micro never fails, and gives [loaded]. *)
Lemma load_to_dict m :
  Micro._load_from_dict (Micro.to_dict m) = Some (loaded m).
Proof.
  induction m as [m IH] using Micro_tree_ind.
  rewrite loaded_unfold.
  destruct m as [nm ox oy d s cs subs path gx gy rgx rgy].
  cbn [Micro.sub_micros Micro.cells Micro.name Micro.origin_x Micro.origin_y
       Micro.description Micro.site_info] in *.
  cbn [Micro.to_dict Micro._load_from_dict Micro.d_cells Micro.d_sub_micros
       Micro.d_name Micro.d_origin_x Micro.d_origin_y Micro.d_description
       Micro.d_site_info fst snd Micro.sub_micros Micro.cells Micro.name
       Micro.origin_x Micro.origin_y Micro.description Micro.site_info].
  rewrite load_cells_to_dict. apply load_sub_micros_to_dict, IH.
Qed.

(** ** Clones and loaded trees as starting points

    The trees that [clone] and [_load_from_dict] return have their cells
    positioned, so the calls keep them so. *)

Lemma placed_positioned self c :
  positioned (Micro.origin_x self) (Micro.origin_y self) (placed self c).
Proof.
  unfold placed. apply cell_set_hierarchical_path_positioned.
  split; reflexivity.
Qed.

Lemma rebuilt_tree_positioned nm m g cl h :
  Forall cells_positioned (tree_micros (rebuilt nm m g cl h)).
Proof.
  rewrite rebuilt_eq. apply Forall_tree_micros. split.
  - unfold cells_positioned.
    cbn [Micro.cells Micro.with_sub_micros Micro.with_cells Micro.origin_x
         Micro.origin_y].
    apply List.Forall_map, List.Forall_forall. intros c _.
    apply placed_positioned.
  - cbn [Micro.sub_micros Micro.with_sub_micros].
    apply List.Forall_map, List.Forall_forall. intros s _.
    apply set_origin_tree, set_origin_cells_positioned.
Qed.

Lemma clone_tree_positioned new_name m :
  Forall cells_positioned (tree_micros (Micro.clone new_name m)).
Proof. rewrite clone_equation. apply rebuilt_tree_positioned. Qed.

Lemma loaded_tree_positioned m :
  Forall cells_positioned (tree_micros (loaded m)).
Proof.
  rewrite loaded_unfold.
  apply (rebuilt_tree_positioned (Micro.name m) m
           (fun c => Cell.init (Cell.name c) (Cell.x c) (Cell.y c)
                               (Cell.orientation c) (Cell.width c)
                               (Cell.height c))
           (Micro.clone None) loaded).
Qed.

(** ** C8: snapping is idempotent *)

(** C8. For every pair (x, y), snapping to the grid twice gives the same
    point as snapping once; the grid has non-zero pitches (Python divides by
    them). *)
Theorem snap_to_grid_idempotent (s : SiteInfo.t) (x y : Q) :
  SiteInfo.wf s ->
  SiteInfo.snap_to_grid s (fst (SiteInfo.snap_to_grid s x y))
                          (snd (SiteInfo.snap_to_grid s x y))
  = SiteInfo.snap_to_grid s x y.
Proof.
  intros [Hw Hh]. unfold SiteInfo.snap_to_grid. cbn [fst snd].
  rewrite (py_round_multiple _ _ Hw), (py_round_multiple _ _ Hh).
  reflexivity.
Qed.

Lemma snap_to_grid_idempotent_witness :
  SiteInfo.snap_to_grid SiteInfo.default
     (fst (SiteInfo.snap_to_grid SiteInfo.default (1 # 5) (13 # 10)))
     (snd (SiteInfo.snap_to_grid SiteInfo.default (1 # 5) (13 # 10)))
  = SiteInfo.snap_to_grid SiteInfo.default (1 # 5) (13 # 10).
Proof.
  apply snap_to_grid_idempotent. split; vm_compute; discriminate.
Defined.

(** ** C1: absolute positions *)

(** C1, as amended.  In a Micro tree, after any sequence of [set_origin],
    [move_by], [add_cell], [add_sub_micro] calls (and of their grid variants
    and [flip_horizontal]), made on the root or on a sub-micro, the absolute
    position of every cell is the origin of the Micro that owns the cell plus
    the stored position of the cell.  This holds from the constructor on,
    and the calls keep it in every tree where it holds. *)
Theorem cell_positions_follow_owner_origin :
  (forall nm ox oy d s parent cs,
      Forall cells_positioned
             (tree_micros (do_calls parent cs (Micro.init nm ox oy d s)))) /\
  (forall parent cs m,
      Forall cells_positioned (tree_micros m) ->
      Forall cells_positioned (tree_micros (do_calls parent cs m))).
Proof.
  split.
  - intros. apply calls_keep_cells_positioned, init_tree. constructor.
  - apply calls_keep_cells_positioned.
Qed.

Lemma cell_positions_follow_owner_origin_witness :
  Forall cells_positioned
    (tree_micros
       (do_calls None [OnSubMicro 0 (MoveBy 1 0); SetOrigin 3 2] nested)).
Proof.
  apply (proj2 cell_positions_follow_owner_origin).
  vm_compute. repeat constructor.
Defined.

(** C1, as stated, fails: the root is at (1, 0), the attached sub-micro gets
    the origin (1, 0), and its cell, stored at (0, 0), is at (1, 0), not at
    1 + 1 + 0. *)
Lemma positions_are_not_summed_origins :
  ~ positions_are_summed_origins
      (do_calls None [AddSubMicro leaf_B]
                (Micro.init "A" 1 0 "root" unit_grid)).
Proof.
  intros H. vm_compute in H. inversion H as [|p q l l' [Hx _] _]; subst.
  vm_compute in Hx. discriminate Hx.
Qed.

(** ** C2: the orientation of a row *)

(** C2, as amended.  With row index j = round(row_y / pitch_y), a cell whose
    orientation is FS or N gets FS when j is even and N when j is odd; a cell
    whose orientation is FN or S gets S when j is even and FN when j is odd. *)
Theorem get_orientation_for_row_table (c : Cell.t) (row_y : Q) :
  let j := py_round (fdiv row_y (SiteInfo.height (Cell.site_info c))) in
  (Cell.orientation c = FS \/ Cell.orientation c = N ->
   Cell.get_orientation_for_row c row_y = if Z.even j then FS else N) /\
  (Cell.orientation c = FN \/ Cell.orientation c = S ->
   Cell.get_orientation_for_row c row_y = if Z.even j then S else FN).
Proof.
  cbv zeta. rewrite get_orientation_for_row_eq. unfold row_index.
  split; intros [E|E]; rewrite E; reflexivity.
Qed.

Lemma get_orientation_for_row_table_witness :
  Cell.get_orientation_for_row cell_fn (9 # 10) = FN.
Proof.
  apply (proj2 (get_orientation_for_row_table cell_fn (9 # 10))).
  left. reflexivity.
Defined.

(** C2, as stated, fails: a cell with orientation FN in row 0 gets S, where
    the table of the specification gives FS. *)
Lemma orientation_for_row_not_as_specified :
  ~ orientation_for_row_as_specified cell_fn 0.
Proof. intros H. vm_compute in H. discriminate H. Qed.

(** ** C5: origins and the lattice *)

Lemma move_by_origin parent m dx dy :
  Micro.origin_x (Micro.move_by parent m dx dy)
  = fadd (Micro.origin_x m)
         (fst (SiteInfo.snap_to_grid (Micro.site_info m) dx dy)) /\
  Micro.origin_y (Micro.move_by parent m dx dy)
  = fadd (Micro.origin_y m)
         (snd (SiteInfo.snap_to_grid (Micro.site_info m) dx dy)).
Proof.
  rewrite move_by_unfold, update_abs_origin_x, update_abs_origin_y,
    update_grid_origin_x, update_grid_origin_y.
  split; reflexivity.
Qed.

Lemma move_by_below_on_lattice parent m dx dy :
  Forall (fun s => Forall origin_on_lattice (tree_micros s))
         (Micro.sub_micros (Micro.move_by parent m dx dy)).
Proof.
  rewrite move_by_unfold. apply update_abs_subtrees, set_origin_on_lattice.
Qed.

Lemma flip_horizontal_origin parent m :
  Micro.origin_x (Micro.flip_horizontal parent m) = Micro.origin_x m /\
  Micro.origin_y (Micro.flip_horizontal parent m) = Micro.origin_y m.
Proof.
  destruct (flip_horizontal_shape parent m) as (m' & -> & Ex & Ey & _).
  rewrite update_abs_origin_x, update_abs_origin_y, update_grid_origin_x,
    update_grid_origin_y.
  split; assumption.
Qed.

(** C5, as amended.  [set_origin] and [set_origin_by_grid] leave the origin
    of the Micro and of every Micro below it on the lattice of its own grid.
    The constructor stores the origin it is given.  [move_by] and
    [move_by_grid] add the snapped delta to the origin and do not snap the
    sum; they, and [flip_horizontal], place every Micro below by
    [set_origin], on the lattice of its grid.  [flip_horizontal], [add_cell]
    and [add_sub_micro] leave the origin of the Micro as it is, and the tree
    that [add_sub_micro] attaches has its origins on the lattice. *)
Theorem origins_on_lattice :
  (forall parent m x y,
      Forall origin_on_lattice (tree_micros (Micro.set_origin parent m x y))) /\
  (forall parent m i j,
      Forall origin_on_lattice
             (tree_micros (Micro.set_origin_by_grid parent m i j))) /\
  (forall nm ox oy d s,
      Micro.origin_x (Micro.init nm ox oy d s) = ox /\
      Micro.origin_y (Micro.init nm ox oy d s) = oy) /\
  (forall parent m dx dy,
      Micro.origin_x (Micro.move_by parent m dx dy)
      = fadd (Micro.origin_x m)
             (fst (SiteInfo.snap_to_grid (Micro.site_info m) dx dy)) /\
      Micro.origin_y (Micro.move_by parent m dx dy)
      = fadd (Micro.origin_y m)
             (snd (SiteInfo.snap_to_grid (Micro.site_info m) dx dy)) /\
      Forall (fun s => Forall origin_on_lattice (tree_micros s))
             (Micro.sub_micros (Micro.move_by parent m dx dy))) /\
  (forall parent m di dj,
      Micro.origin_x (Micro.move_by_grid parent m di dj)
      = fadd (Micro.origin_x m)
             (fst (SiteInfo.snap_to_grid (Micro.site_info m)
                     (imul di (SiteInfo.width (Micro.site_info m)))
                     (imul dj (SiteInfo.height (Micro.site_info m))))) /\
      Micro.origin_y (Micro.move_by_grid parent m di dj)
      = fadd (Micro.origin_y m)
             (snd (SiteInfo.snap_to_grid (Micro.site_info m)
                     (imul di (SiteInfo.width (Micro.site_info m)))
                     (imul dj (SiteInfo.height (Micro.site_info m))))) /\
      Forall (fun s => Forall origin_on_lattice (tree_micros s))
             (Micro.sub_micros (Micro.move_by_grid parent m di dj))) /\
  (forall parent m,
      Micro.origin_x (Micro.flip_horizontal parent m) = Micro.origin_x m /\
      Micro.origin_y (Micro.flip_horizontal parent m) = Micro.origin_y m /\
      Forall (fun s => Forall origin_on_lattice (tree_micros s))
             (Micro.sub_micros (Micro.flip_horizontal parent m))) /\
  (forall m cell,
      Micro.origin_x (Micro.add_cell m cell) = Micro.origin_x m /\
      Micro.origin_y (Micro.add_cell m cell) = Micro.origin_y m /\
      Micro.sub_micros (Micro.add_cell m cell) = Micro.sub_micros m) /\
  (forall m sub_micro,
      Micro.origin_x (Micro.add_sub_micro m sub_micro) = Micro.origin_x m /\
      Micro.origin_y (Micro.add_sub_micro m sub_micro) = Micro.origin_y m /\
      exists cpy,
        Micro.sub_micros (Micro.add_sub_micro m sub_micro)
        = Micro.sub_micros m ++ [cpy] /\
        Forall origin_on_lattice (tree_micros cpy)).
Proof.
  split; [|split; [|split; [|split; [|split; [|split; [|split]]]]]].
  - intros. apply set_origin_tree, set_origin_on_lattice.
  - intros. apply set_origin_tree, set_origin_on_lattice.
  - intros. split; reflexivity.
  - intros parent m dx dy.
    destruct (move_by_origin parent m dx dy) as [Ex Ey].
    split; [exact Ex|]. split; [exact Ey|]. apply move_by_below_on_lattice.
  - intros parent m di dj. unfold Micro.move_by_grid.
    destruct (move_by_origin parent m
                (imul di (SiteInfo.width (Micro.site_info m)))
                (imul dj (SiteInfo.height (Micro.site_info m)))) as [Ex Ey].
    split; [exact Ex|]. split; [exact Ey|]. apply move_by_below_on_lattice.
  - intros parent m. destruct (flip_horizontal_origin parent m) as [Ex Ey].
    split; [exact Ex|]. split; [exact Ey|].
    destruct (flip_horizontal_shape parent m) as (m' & -> & _).
    apply update_abs_subtrees, set_origin_on_lattice.
  - intros m cell. destruct m. repeat split; reflexivity.
  - intros m sub_micro. unfold Micro.add_sub_micro.
    rewrite add_sub_micro_with_eq.
    split; [destruct m; reflexivity|]. split; [destruct m; reflexivity|].
    exists (attached (Micro.clone None) m sub_micro).
    split; [destruct m; reflexivity|].
    unfold attached. cbv zeta. apply set_origin_tree, set_origin_on_lattice.
Qed.

Lemma origins_on_lattice_witness :
  Forall origin_on_lattice
         (tree_micros (Micro.set_origin None nested (5 # 3) (1 # 4))) /\
  Forall (fun s => Forall origin_on_lattice (tree_micros s))
         (Micro.sub_micros (Micro.move_by None nested (3 # 2) 1)).
Proof.
  split.
  - apply (proj1 origins_on_lattice).
  - apply (proj2 (proj2 (proj1 (proj2 (proj2 (proj2 origins_on_lattice)))
                               None nested (3 # 2) 1))).
Defined.

(** C5, as stated, fails: the constructor does not snap.  A Micro constructed
    at (1/4, 0) on the unit grid has the origin (1/4, 0). *)
Lemma constructed_origin_off_lattice : ~ origin_on_lattice off_lattice.
Proof.
  intros [[k Hk] _]. unfold Qeq in Hk. cbn in Hk. lia.
Qed.

(** ** C10: rows and orientations after a move *)

(** C10.  Immediately after [set_origin], [set_origin_by_grid], [move_by] or
    [move_by_grid], in the Micro and in every Micro below it (each of which
    has received a [set_origin] from its parent), every owned cell is FS or S
    when its row index round(absolute_y / pitch_y) is even, and N or FN when
    it is odd. *)
Theorem row_parity_after_set_origin (parent : option Micro.parent_ctx)
        (m : Micro.t) :
  (forall x y,
      Forall cells_row_parity (tree_micros (Micro.set_origin parent m x y))) /\
  (forall i j,
      Forall cells_row_parity
             (tree_micros (Micro.set_origin_by_grid parent m i j))) /\
  (forall dx dy,
      Forall cells_row_parity (tree_micros (Micro.move_by parent m dx dy))) /\
  (forall di dj,
      Forall cells_row_parity (tree_micros (Micro.move_by_grid parent m di dj))).
Proof.
  assert (M : forall dx dy,
             Forall cells_row_parity (tree_micros (Micro.move_by parent m dx dy))).
  { intros dx dy. apply Forall_tree_micros.
    split; [apply move_by_cells_row_parity|].
    rewrite move_by_unfold.
    apply update_abs_subtrees, set_origin_cells_row_parity. }
  split; [|split; [|split]].
  - intros. apply set_origin_tree, set_origin_cells_row_parity.
  - intros. apply set_origin_tree, set_origin_cells_row_parity.
  - exact M.
  - intros. apply M.
Qed.

(** ** C6: [move_by] and [set_origin] *)

(** C6, as amended.  [move_by(dx, dy)] leaves the Micro and its whole
    subtree in the state [set_origin] gives for the current origin plus the
    snapped delta exactly when snapping leaves that point where it is:
    [move_by] adds the snapped delta to the origin and does not snap the
    sum, [set_origin] snaps the point it is given. *)
Theorem move_by_is_set_origin_iff_snapped (parent : option Micro.parent_ctx)
        (m : Micro.t) (dx dy : Q) :
  Micro.move_by parent m dx dy =
  Micro.set_origin parent m
    (fadd (Micro.origin_x m)
          (fst (SiteInfo.snap_to_grid (Micro.site_info m) dx dy)))
    (fadd (Micro.origin_y m)
          (snd (SiteInfo.snap_to_grid (Micro.site_info m) dx dy)))
  <->
  SiteInfo.snap_to_grid (Micro.site_info m)
    (fadd (Micro.origin_x m)
          (fst (SiteInfo.snap_to_grid (Micro.site_info m) dx dy)))
    (fadd (Micro.origin_y m)
          (snd (SiteInfo.snap_to_grid (Micro.site_info m) dx dy)))
  = (fadd (Micro.origin_x m)
          (fst (SiteInfo.snap_to_grid (Micro.site_info m) dx dy)),
     fadd (Micro.origin_y m)
          (snd (SiteInfo.snap_to_grid (Micro.site_info m) dx dy))).
Proof.
  set (x := fadd (Micro.origin_x m)
                 (fst (SiteInfo.snap_to_grid (Micro.site_info m) dx dy))).
  set (y := fadd (Micro.origin_y m)
                 (snd (SiteInfo.snap_to_grid (Micro.site_info m) dx dy))).
  split.
  - intros E.
    pose proof (f_equal Micro.origin_x E) as Ex.
    pose proof (f_equal Micro.origin_y E) as Ey.
    rewrite set_origin_origin_x in Ex. rewrite set_origin_origin_y in Ey.
    destruct (move_by_origin parent m dx dy) as [Mx My].
    rewrite Mx in Ex. rewrite My in Ey. fold x in Ex. fold y in Ey.
    destruct (SiteInfo.snap_to_grid (Micro.site_info m) x y) as [sx sy].
    cbn [fst snd] in Ex, Ey. rewrite <- Ex, <- Ey. reflexivity.
  - intros E. rewrite move_by_unfold, set_origin_unfold.
    fold x y. rewrite E. reflexivity.
Qed.

Lemma move_by_is_set_origin_iff_snapped_witness :
  Micro.move_by None nested (3 # 2) 1 =
  Micro.set_origin None nested
    (fadd (Micro.origin_x nested)
          (fst (SiteInfo.snap_to_grid (Micro.site_info nested) (3 # 2) 1)))
    (fadd (Micro.origin_y nested)
          (snd (SiteInfo.snap_to_grid (Micro.site_info nested) (3 # 2) 1))).
Proof.
  apply (proj2 (move_by_is_set_origin_iff_snapped None nested (3 # 2) 1)).
  vm_compute. reflexivity.
Defined.

(** C6, as stated, fails off the lattice: a Micro constructed at (1/4, 0) on
    the unit grid stays at (1/4, 0) under [move_by(0, 0)], while
    [set_origin(1/4 + 0, 0 + 0)] snaps it to (0, 0). *)
Lemma move_by_is_not_set_origin : ~ move_by_is_set_origin None off_lattice 0 0.
Proof.
  intros H. apply (f_equal Micro.origin_x) in H. vm_compute in H. discriminate H.
Qed.

(** ** C7: flipping a container of two cells *)

Lemma flip_horizontal_body_cells rec parent m :
  Micro.cells (Micro.flip_horizontal_body rec parent m) =
  List.map (flipped_cell m) (Micro.cells m).
Proof.
  unfold flipped_cell, content_width, Micro.flip_horizontal_body.
  destruct (Micro.calculate_bounding_box m) as [[[min_x min_y] max_x] max_y].
  rewrite update_abs_cells, update_grid_cells, update_grid_origin_x,
    update_grid_origin_y, update_grid_site_info.
  cbn [Micro.cells Micro.with_cells Micro.with_sub_micros Micro.origin_x
       Micro.origin_y Micro.site_info].
  rewrite List.map_map. reflexivity.
Qed.

Lemma flip_horizontal_cells parent m :
  Micro.cells (Micro.flip_horizontal parent m) =
  List.map (flipped_cell m) (Micro.cells m).
Proof.
  unfold Micro.flip_horizontal.
  destruct (Micro.depth m); apply flip_horizontal_body_cells.
Qed.

Lemma flip_oritentation_orientation c :
  Cell.orientation (Cell.flip_oritentation c) = mirror_partner (Cell.orientation c).
Proof. unfold Cell.flip_oritentation. destruct (Cell.orientation c); reflexivity. Qed.

Lemma flip_oritentation_x c : Cell.x (Cell.flip_oritentation c) = Cell.x c.
Proof. unfold Cell.flip_oritentation. destruct (Cell.orientation c); reflexivity. Qed.

Lemma flip_oritentation_y c : Cell.y (Cell.flip_oritentation c) = Cell.y c.
Proof. unfold Cell.flip_oritentation. destruct (Cell.orientation c); reflexivity. Qed.

Lemma flipped_cell_x m c :
  Cell.x (flipped_cell m c) =
  fsub (fsub (content_width m) (Cell.x c))
       (fsub (Cell.bbox_max_x c) (Cell.bbox_min_x c)).
Proof.
  unfold flipped_cell.
  change (Cell.x (Micro.refresh_cell ?a ?b ?s ?c)) with (Cell.x c).
  rewrite flip_oritentation_x. reflexivity.
Qed.

Lemma flipped_cell_orientation m c :
  Cell.orientation (flipped_cell m c) =
  orientation_in_row (mirror_partner (Cell.orientation c))
                     (row_index (Micro.site_info m)
                                (fadd (Micro.origin_y m) (Cell.y c))).
Proof.
  unfold flipped_cell.
  rewrite refresh_cell_orientation, flip_oritentation_orientation,
    flip_oritentation_y.
  reflexivity.
Qed.

(** An orientation that fits its row is kept by the row rule, and so is its
    mirror partner. *)
Lemma orientation_in_row_mirror_partner o j :
  (if Z.even j then o = FS \/ o = S else o = N \/ o = FN) ->
  orientation_in_row (mirror_partner o) j = mirror_partner o.
Proof.
  unfold orientation_in_row.
  destruct (Z.even j); intros [-> | ->]; reflexivity.
Qed.

Lemma two_cells_content_width m c1 c2 :
  Micro.origin_x m == 0 ->
  Micro.cells m = [c1; c2] -> Micro.sub_micros m = [] ->
  positioned (Micro.origin_x m) (Micro.origin_y m) c1 ->
  positioned (Micro.origin_x m) (Micro.origin_y m) c2 ->
  boxed c1 -> boxed c2 ->
  Cell.x c1 == 0 -> Cell.x c2 == 1 ->
  Cell.width c1 == 1 # 2 -> Cell.width c2 == 1 # 2 ->
  content_width m == 3 # 2.
Proof.
  intros _ Hc Hs [P1 _] [P2 _] (B1 & _ & B1' & _) (B2 & _ & B2' & _)
    X1 X2 W1 W2.
  unfold content_width, Micro.calculate_bounding_box.
  destruct m as [nm ox oy d s cs subs path gx gy rgx rgy].
  cbn [Micro.cells Micro.sub_micros Micro.origin_x Micro.origin_y] in *. subst cs subs.
  cbn [Micro.get_all_cells Micro.cells Micro.sub_micros flat_map app List.map
       py_min py_max fold_left].
  rewrite fsub_eq, B1, B2, B1', B2', P1, P2.
  assert (E1 : fadd ox (Cell.x c1) == ox) by (rewrite fadd_eq, X1; ring).
  assert (E2 : fadd ox (Cell.x c2) == ox + 1) by (rewrite fadd_eq, X2; ring).
  assert (F1 : fadd (fadd ox (Cell.x c1)) (Cell.width c1) == ox + (1 # 2))
    by (rewrite fadd_eq, E1, W1; ring).
  assert (F2 : fadd (fadd ox (Cell.x c2)) (Cell.width c2) == ox + (3 # 2))
    by (rewrite fadd_eq, E2, W2; ring).
  rewrite Q.min_l, Q.max_r.
  - rewrite F2, E1. ring.
  - rewrite F1, F2. lra.
  - rewrite E1, E2. lra.
Qed.

Lemma Qred_value (q v : Q) : q == v -> Qred v = v -> Qred q = v.
Proof. intros E V. rewrite <- V. apply Qred_complete, E. Qed.

Lemma flipped_two_cells_x m c1 c2 :
  Micro.origin_x m == 0 ->
  Micro.cells m = [c1; c2] -> Micro.sub_micros m = [] ->
  positioned (Micro.origin_x m) (Micro.origin_y m) c1 ->
  positioned (Micro.origin_x m) (Micro.origin_y m) c2 ->
  boxed c1 -> boxed c2 ->
  Cell.x c1 == 0 -> Cell.x c2 == 1 ->
  Cell.width c1 == 1 # 2 -> Cell.width c2 == 1 # 2 ->
  Cell.x (flipped_cell m c1) = 1 /\ Cell.x (flipped_cell m c2) = 0.
Proof.
  intros Ho Hc Hs P1 P2 B1 B2 X1 X2 W1 W2.
  pose proof (two_cells_content_width m c1 c2 Ho Hc Hs P1 P2 B1 B2 X1 X2 W1 W2)
    as CW.
  split.
  - rewrite flipped_cell_x. unfold fsub at 1. apply Qred_value; [|reflexivity].
    destruct B1 as (-> & _ & -> & _). destruct P1 as [-> _].
    rewrite !fsub_eq, !fadd_eq, CW, X1, W1. ring.
  - rewrite flipped_cell_x. unfold fsub at 1. apply Qred_value; [|reflexivity].
    destruct B2 as (-> & _ & -> & _). destruct P2 as [-> _].
    rewrite !fsub_eq, !fadd_eq, CW, X2, W2. ring.
Qed.

(** C7, as amended.  In a container whose origin has x = 0 and which holds
    exactly two cells, at relative x = 0 and x = 1 and of width 0.5 each,
    with cached positions and boxes up to date, [flip_horizontal] leaves the
    cells at relative x = 1 and x = 0.  The orientation of each cell is
    afterwards the one the row rule gives to the mirror partner of its
    orientation before; it is that mirror partner when the orientation
    before fitted the row of the cell (FS or S on an even row, N or FN on an
    odd row). *)
Theorem flip_horizontal_two_cells (parent : option Micro.parent_ctx)
        (m : Micro.t) (c1 c2 : Cell.t) :
  Micro.origin_x m == 0 ->
  Micro.cells m = [c1; c2] -> Micro.sub_micros m = [] ->
  positioned (Micro.origin_x m) (Micro.origin_y m) c1 ->
  positioned (Micro.origin_x m) (Micro.origin_y m) c2 ->
  boxed c1 -> boxed c2 ->
  Cell.x c1 == 0 -> Cell.x c2 == 1 ->
  Cell.width c1 == 1 # 2 -> Cell.width c2 == 1 # 2 ->
  exists c1' c2',
    Micro.cells (Micro.flip_horizontal parent m) = [c1'; c2'] /\
    Cell.x c1' = 1 /\ Cell.x c2' = 0 /\
    Cell.orientation c1' =
      orientation_in_row (mirror_partner (Cell.orientation c1))
                         (row_index (Micro.site_info m) (Cell.absolute_y c1)) /\
    Cell.orientation c2' =
      orientation_in_row (mirror_partner (Cell.orientation c2))
                         (row_index (Micro.site_info m) (Cell.absolute_y c2)) /\
    (row_parity (Micro.site_info m) c1 ->
     Cell.orientation c1' = mirror_partner (Cell.orientation c1)) /\
    (row_parity (Micro.site_info m) c2 ->
     Cell.orientation c2' = mirror_partner (Cell.orientation c2)).
Proof.
  intros Ho Hc Hs P1 P2 B1 B2 X1 X2 W1 W2.
  destruct (flipped_two_cells_x m c1 c2 Ho Hc Hs P1 P2 B1 B2 X1 X2 W1 W2)
    as [Hx1 Hx2].
  exists (flipped_cell m c1), (flipped_cell m c2).
  assert (O1 : Cell.orientation (flipped_cell m c1) =
               orientation_in_row (mirror_partner (Cell.orientation c1))
                 (row_index (Micro.site_info m) (Cell.absolute_y c1))).
  { rewrite flipped_cell_orientation. destruct P1 as [_ ->]. reflexivity. }
  assert (O2 : Cell.orientation (flipped_cell m c2) =
               orientation_in_row (mirror_partner (Cell.orientation c2))
                 (row_index (Micro.site_info m) (Cell.absolute_y c2))).
  { rewrite flipped_cell_orientation. destruct P2 as [_ ->]. reflexivity. }
  split; [|split; [|split; [|split; [|split; [|split]]]]].
  - rewrite flip_horizontal_cells, Hc. reflexivity.
  - exact Hx1.
  - exact Hx2.
  - exact O1.
  - exact O2.
  - intros R. rewrite O1. apply orientation_in_row_mirror_partner, R.
  - intros R. rewrite O2. apply orientation_in_row_mirror_partner, R.
Qed.

(** The theorem at a container whose two cells, FS and S on row 0, fit their
    row: they swap their places and take the orientations S and FS. *)
Lemma flip_horizontal_two_cells_witness :
  (Micro.origin_x two_cells_fitted == 0 /\
   Micro.cells two_cells_fitted = [placed_fs; placed_s] /\
   Micro.sub_micros two_cells_fitted = [] /\
   positioned (Micro.origin_x two_cells_fitted)
              (Micro.origin_y two_cells_fitted) placed_fs /\
   positioned (Micro.origin_x two_cells_fitted)
              (Micro.origin_y two_cells_fitted) placed_s /\
   boxed placed_fs /\ boxed placed_s /\
   Cell.x placed_fs == 0 /\ Cell.x placed_s == 1 /\
   Cell.width placed_fs == 1 # 2 /\ Cell.width placed_s == 1 # 2 /\
   row_parity (Micro.site_info two_cells_fitted) placed_fs /\
   row_parity (Micro.site_info two_cells_fitted) placed_s) /\
  exists c1' c2',
    Micro.cells (Micro.flip_horizontal None two_cells_fitted) = [c1'; c2'] /\
    Cell.x c1' = 1 /\ Cell.x c2' = 0 /\
    Cell.orientation c1' = S /\ Cell.orientation c2' = FS.
Proof.
  assert (Ho : Micro.origin_x two_cells_fitted == 0) by reflexivity.
  assert (Hc : Micro.cells two_cells_fitted = [placed_fs; placed_s])
    by (vm_compute; reflexivity).
  assert (Hs : Micro.sub_micros two_cells_fitted = []) by reflexivity.
  assert (P1 : positioned (Micro.origin_x two_cells_fitted)
                          (Micro.origin_y two_cells_fitted) placed_fs)
    by (vm_compute; split; reflexivity).
  assert (P2 : positioned (Micro.origin_x two_cells_fitted)
                          (Micro.origin_y two_cells_fitted) placed_s)
    by (vm_compute; split; reflexivity).
  assert (B1 : boxed placed_fs) by (vm_compute; repeat split; reflexivity).
  assert (B2 : boxed placed_s) by (vm_compute; repeat split; reflexivity).
  assert (X1 : Cell.x placed_fs == 0) by (vm_compute; reflexivity).
  assert (X2 : Cell.x placed_s == 1) by (vm_compute; reflexivity).
  assert (W1 : Cell.width placed_fs == 1 # 2) by (vm_compute; reflexivity).
  assert (W2 : Cell.width placed_s == 1 # 2) by (vm_compute; reflexivity).
  assert (R1 : row_parity (Micro.site_info two_cells_fitted) placed_fs)
    by (vm_compute; left; reflexivity).
  assert (R2 : row_parity (Micro.site_info two_cells_fitted) placed_s)
    by (vm_compute; right; reflexivity).
  split.
  { split; [exact Ho|]. split; [exact Hc|]. split; [exact Hs|].
    split; [exact P1|]. split; [exact P2|]. split; [exact B1|].
    split; [exact B2|]. split; [exact X1|]. split; [exact X2|].
    split; [exact W1|]. split; [exact W2|]. split; [exact R1 | exact R2]. }
  destruct (flip_horizontal_two_cells None two_cells_fitted placed_fs placed_s
              Ho Hc Hs P1 P2 B1 B2 X1 X2 W1 W2)
    as (c1' & c2' & Hcells & Hx1 & Hx2 & _ & _ & M1 & M2).
  exists c1', c2'. split; [exact Hcells|]. split; [exact Hx1|].
  split; [exact Hx2|]. split; [exact (M1 R1) | exact (M2 R2)].
Defined.

(** C7, as stated, fails in its second half: two cells added with orientation
    N on row 0 swap their places, but end with orientation S (the row rule
    applied to FN on an even row), not with the mirror partner FN. *)
Lemma flip_does_not_mirror_orientations : ~ flip_swaps_and_mirrors two_cells.
Proof. intros [_ H]. vm_compute in H. discriminate H. Qed.

(** ** C9: the engine looks the Micro up by name *)




(** ** The origin of a sub-micro is added again at every update

    [add_sub_micro] and [_update_absolute_positions] take the origin of a
    sub-micro for an offset from its parent and store the absolute point in
    its place.  An update that does not move the parent therefore moves the
    sub-micros: in [nested], [move_by(0, 0)] takes the sub-micro from (1, 0)
    to (2, 0).  [clone] and [_load_from_dict] attach the sub-micros with
    [add_sub_micro] and move them in the same way. *)

Lemma move_by_zero_shifts_sub_micros :
  List.map (fun s => (Micro.origin_x s, Micro.origin_y s))
           (Micro.sub_micros nested) = [(1, 0)] /\
  (Micro.origin_x (Micro.move_by None nested 0 0),
   Micro.origin_y (Micro.move_by None nested 0 0)) = (1, 0) /\
  List.map (fun s => (Micro.origin_x s, Micro.origin_y s))
           (Micro.sub_micros (Micro.move_by None nested 0 0)) = [(2, 0)].
Proof. vm_compute. repeat split; reflexivity. Qed.

(** ** C4: what [clone] does to the sub-micros *)

(** C4 fails on [nested], a root at (1, 0) whose sub-micro has the origin
    (1, 0) and a cell at absolute (1, 0): in the clone the sub-micro has the
    origin (2, 0) and its cell is at absolute (2, 0).  What the clone keeps is
    in [clone_root_view] and [clone_absolute_positions]. *)
Theorem clone_shifts_sub_micros :
  List.map (fun s => (Micro.origin_x s, Micro.origin_y s))
           (Micro.sub_micros nested) = [(1, 0)] /\
  absolute_positions nested = [(1, 0)] /\
  List.map (fun s => (Micro.origin_x s, Micro.origin_y s))
           (Micro.sub_micros (Micro.clone None nested)) = [(2, 0)] /\
  absolute_positions (Micro.clone None nested) = [(2, 0)].
Proof. vm_compute. repeat split; reflexivity. Qed.

(** ** C3: what a round trip does to the sub-micros *)

(** C3 fails on [nested] too: loading its serialized form gives a tree whose
    sub-micro has the origin (2, 0), with its cell at absolute (2, 0).  What
    a round trip keeps is in [load_to_dict], [loaded_root_view] and
    [loaded_absolute_positions]. *)
Theorem load_shifts_sub_micros :
  exists m',
    Micro._load_from_dict (Micro.to_dict nested) = Some m' /\
    (Micro.origin_x m', Micro.origin_y m') = (1, 0) /\
    List.map (fun s => (Micro.origin_x s, Micro.origin_y s))
             (Micro.sub_micros nested) = [(1, 0)] /\
    absolute_positions nested = [(1, 0)] /\
    List.map (fun s => (Micro.origin_x s, Micro.origin_y s))
             (Micro.sub_micros m') = [(2, 0)] /\
    absolute_positions m' = [(2, 0)].
Proof.
  eexists. split; [vm_compute; reflexivity|].
  vm_compute. repeat split; reflexivity.
Qed.

(** * Further properties of the code *)

(** ** The grid *)

(** Snapping a snapped point again changes nothing. *)
Lemma snap_to_grid_fixed (s : SiteInfo.t) (x y : Q) :
  SiteInfo.wf s ->
  SiteInfo.snap_to_grid s (fst (SiteInfo.snap_to_grid s x y))
                          (snd (SiteInfo.snap_to_grid s x y))
  = SiteInfo.snap_to_grid s x y.
Proof.
  intros [Hw Hh]. unfold SiteInfo.snap_to_grid. cbn [fst snd].
  rewrite (py_round_multiple _ _ Hw), (py_round_multiple _ _ Hh).
  reflexivity.
Qed.

(** ** Cells: orientations, cached boxes and anchors *)

(** X3.  [flip_oritentation] is an involution: flipping a cell twice gives
    the cell back. *)
Theorem flip_oritentation_involutive (c : Cell.t) :
  Cell.flip_oritentation (Cell.flip_oritentation c) = c.
Proof.
  destruct c as [nm x y o w h ax ay p s gx gy rgx rgy b0 b1 b2 b3].
  destruct o; reflexivity.
Qed.

Lemma orientation_in_row_stable o j :
  orientation_in_row (orientation_in_row o j) j = orientation_in_row o j.
Proof. unfold orientation_in_row. destruct (Z.even j), o; reflexivity. Qed.

Lemma get_orientation_for_row_set_orientation c o row_y :
  Cell.get_orientation_for_row (Cell.set_orientation o c) row_y
  = orientation_in_row o (row_index (Cell.site_info c) row_y).
Proof. rewrite get_orientation_for_row_eq. reflexivity. Qed.

(** X4.  The orientation [get_orientation_for_row] gives is stable: a cell
    that has taken it gets the same orientation again for the same row; and
    it is in [left_ori] exactly when the orientation of the cell was. *)
Theorem get_orientation_for_row_stable (c : Cell.t) (row_y : Q) :
  Cell.get_orientation_for_row
    (Cell.set_orientation (Cell.get_orientation_for_row c row_y) c) row_y
  = Cell.get_orientation_for_row c row_y /\
  in_left_ori (Cell.get_orientation_for_row c row_y)
  = in_left_ori (Cell.orientation c).
Proof.
  rewrite get_orientation_for_row_set_orientation, get_orientation_for_row_eq.
  split; [apply orientation_in_row_stable|].
  unfold orientation_in_row.
  destruct (Z.even (row_index (Cell.site_info c) row_y)),
    (Cell.orientation c); reflexivity.
Qed.

Lemma orientation_in_row_parity o j j' :
  (Z.even j' = negb (Z.even j) ->
   orientation_in_row o j' = row_partner (orientation_in_row o j)) /\
  (Z.even j' = Z.even j -> orientation_in_row o j' = orientation_in_row o j).
Proof.
  unfold orientation_in_row.
  split; intros ->; destruct (Z.even j), o; reflexivity.
Qed.

(** X5.  What [get_orientation_for_row] gives depends on the row only
    through the parity of its index round(row_y / pitch_y): two rows whose
    indices have the same parity get the same orientation, two rows whose
    indices have different parities get partner orientations (N <-> FS,
    S <-> FN); so rows whose indices follow each other alternate. *)
Theorem get_orientation_for_row_next_row (c : Cell.t) (row_y row_y' : Q) :
  (Z.even (row_index (Cell.site_info c) row_y')
   = negb (Z.even (row_index (Cell.site_info c) row_y)) ->
   Cell.get_orientation_for_row c row_y'
   = row_partner (Cell.get_orientation_for_row c row_y)) /\
  (Z.even (row_index (Cell.site_info c) row_y')
   = Z.even (row_index (Cell.site_info c) row_y) ->
   Cell.get_orientation_for_row c row_y'
   = Cell.get_orientation_for_row c row_y) /\
  (row_index (Cell.site_info c) row_y'
   = (row_index (Cell.site_info c) row_y + 1)%Z ->
   Cell.get_orientation_for_row c row_y'
   = row_partner (Cell.get_orientation_for_row c row_y)).
Proof.
  rewrite !get_orientation_for_row_eq.
  destruct (orientation_in_row_parity (Cell.orientation c)
              (row_index (Cell.site_info c) row_y)
              (row_index (Cell.site_info c) row_y')) as [Hodd Heven].
  split; [exact Hodd|]. split; [exact Heven|].
  intros E. apply Hodd. rewrite E.
  replace (row_index (Cell.site_info c) row_y + 1)%Z
    with (Z.succ (row_index (Cell.site_info c) row_y)) by lia.
  rewrite Z.even_succ, <- Z.negb_even. reflexivity.
Qed.

Lemma get_orientation_for_row_next_row_witness :
  Cell.get_orientation_for_row cell_fn (27 # 10)
  = row_partner (Cell.get_orientation_for_row cell_fn (9 # 5)).
Proof.
  apply (proj2 (proj2 (get_orientation_for_row_next_row
                         cell_fn (9 # 5) (27 # 10)))).
  vm_compute. reflexivity.
Defined.

(** X6.  [set_rel_position] and [set_size] leave the absolute position of the
    cell as it was, and the cached box they recompute agrees with that
    absolute position and the size; [set_rel_position] stores the new
    position and [set_size] the new size. *)
Theorem set_rel_position_set_size_keep_absolute (c : Cell.t) (rx ry w h : Q)
        (s : option SiteInfo.t) :
  (Cell.x (Cell.set_rel_position rx ry s c) = rx /\
   Cell.y (Cell.set_rel_position rx ry s c) = ry /\
   absolute_position (Cell.set_rel_position rx ry s c) = absolute_position c /\
   boxed (Cell.set_rel_position rx ry s c)) /\
  (Cell.width (Cell.set_size w h c) = w /\
   Cell.height (Cell.set_size w h c) = h /\
   absolute_position (Cell.set_size w h c) = absolute_position c /\
   boxed (Cell.set_size w h c)).
Proof.
  destruct c as [nm x y o w0 h0 ax ay p s0 gx gy rgx rgy b0 b1 b2 b3].
  destruct s as [s|]; repeat split; reflexivity.
Qed.

(** X7.  For a cell whose cached box is up to date, the placement origin is
    the corner of the box that the orientation names (N: lower left, S:
    upper right, FN: lower right, FS: upper left), and [flip_oritentation]
    moves it to the other vertical edge of the box at the same height. *)
Theorem get_placement_origin_corner (c : Cell.t) :
  boxed c ->
  Cell.get_placement_origin c =
    match Cell.orientation c with
    | N => (Cell.bbox_min_x c, Cell.bbox_min_y c)
    | S => (Cell.bbox_max_x c, Cell.bbox_max_y c)
    | FN => (Cell.bbox_max_x c, Cell.bbox_min_y c)
    | FS => (Cell.bbox_min_x c, Cell.bbox_max_y c)
    end /\
  snd (Cell.get_placement_origin (Cell.flip_oritentation c))
  = snd (Cell.get_placement_origin c) /\
  ((fst (Cell.get_placement_origin c) = Cell.bbox_min_x c /\
    fst (Cell.get_placement_origin (Cell.flip_oritentation c))
    = Cell.bbox_max_x c) \/
   (fst (Cell.get_placement_origin c) = Cell.bbox_max_x c /\
    fst (Cell.get_placement_origin (Cell.flip_oritentation c))
    = Cell.bbox_min_x c)).
Proof.
  intros (B0 & B1 & B2 & B3).
  destruct c as [nm x y o w0 h0 ax ay p s0 gx gy rgx rgy b0 b1 b2 b3].
  cbn [Cell.bbox_min_x Cell.bbox_min_y Cell.bbox_max_x Cell.bbox_max_y
       Cell.absolute_x Cell.absolute_y Cell.width Cell.height] in *.
  subst b0 b1 b2 b3.
  destruct o; cbn; (split; [reflexivity|]); (split; [reflexivity|]);
    (left; split; reflexivity) || (right; split; reflexivity).
Qed.

Lemma get_placement_origin_corner_witness :
  Cell.get_placement_origin placed_b = (1, 0).
Proof.
  assert (B : boxed placed_b) by (vm_compute; repeat split; reflexivity).
  exact (proj1 (get_placement_origin_corner placed_b B)).
Defined.

(** ** Adding and removing cells and sub-micros *)

Lemma remove_first_cell_None nm cs :
  Micro.remove_first_cell nm cs = None <->
  Forall (fun c => Cell.name c <> nm) cs.
Proof.
  induction cs as [|c r IH]; cbn [Micro.remove_first_cell].
  - split; [constructor | reflexivity].
  - destruct (String.eqb (Cell.name c) nm) eqn:E.
    + apply String.eqb_eq in E. split; [discriminate|].
      intros H. inversion H; subst. contradiction.
    + apply String.eqb_neq in E.
      destruct (Micro.remove_first_cell nm r) as [r'|].
      * split; [discriminate|]. intros H. inversion H as [|? ? _ Hr]; subst.
        apply IH in Hr. discriminate.
      * split; [|reflexivity]. intros _. constructor; [exact E|].
        apply IH. reflexivity.
Qed.

Lemma remove_first_cell_Some nm cs cs' :
  Micro.remove_first_cell nm cs = Some cs' ->
  exists l1 c l2,
    cs = l1 ++ c :: l2 /\ Cell.name c = nm /\
    Forall (fun c' => Cell.name c' <> nm) l1 /\ cs' = l1 ++ l2.
Proof.
  revert cs'. induction cs as [|c r IH]; intros cs' H;
    cbn [Micro.remove_first_cell] in H; [discriminate|].
  destruct (String.eqb (Cell.name c) nm) eqn:E.
  - apply String.eqb_eq in E. inversion H; subst.
    exists [], c, cs'. repeat split; constructor.
  - apply String.eqb_neq in E.
    destruct (Micro.remove_first_cell nm r) as [r'|]; [|discriminate].
    inversion H; subst.
    destruct (IH r' eq_refl) as (l1 & c0 & l2 & -> & Hn & Hl & ->).
    exists (c :: l1), c0, l2. repeat split; [exact Hn|].
    constructor; assumption.
Qed.

(** X8.  [remove_cell] returns False exactly when no owned cell has the
    name, and then leaves the Micro as it was; otherwise it removes the
    first owned cell of that name and nothing else: the cells before it and
    after it stay, in order, later cells of the same name included. *)
Theorem remove_cell_first_match (m : Micro.t) (cell_name : string) :
  (snd (Micro.remove_cell m cell_name) = false <->
   Forall (fun c => Cell.name c <> cell_name) (Micro.cells m)) /\
  (snd (Micro.remove_cell m cell_name) = false ->
   fst (Micro.remove_cell m cell_name) = m) /\
  (snd (Micro.remove_cell m cell_name) = true ->
   exists l1 c l2,
     Micro.cells m = l1 ++ c :: l2 /\ Cell.name c = cell_name /\
     Forall (fun c' => Cell.name c' <> cell_name) l1 /\
     fst (Micro.remove_cell m cell_name) = Micro.with_cells (l1 ++ l2) m).
Proof.
  unfold Micro.remove_cell.
  pose proof (remove_first_cell_None cell_name (Micro.cells m)) as HN.
  destruct (Micro.remove_first_cell cell_name (Micro.cells m)) as [cs'|] eqn:E;
    cbn [fst snd].
  - split; [|split].
    + split; [discriminate|]. intros H. apply HN in H. discriminate.
    + discriminate.
    + intros _. destruct (remove_first_cell_Some _ _ _ E)
        as (l1 & c & l2 & H1 & H2 & H3 & ->).
      exists l1, c, l2. repeat split; assumption.
  - split; [|split].
    + split; [intros _; apply HN; reflexivity | reflexivity].
    + reflexivity.
    + discriminate.
Qed.

Lemma remove_cell_first_match_witness :
  exists l1 c l2,
    Micro.cells two_cells = l1 ++ c :: l2 /\ Cell.name c = "b" /\
    Forall (fun c' => Cell.name c' <> "b") l1 /\
    fst (Micro.remove_cell two_cells "b") = Micro.with_cells (l1 ++ l2) two_cells.
Proof.
  apply (proj2 (proj2 (remove_cell_first_match two_cells "b"))).
  vm_compute. reflexivity.
Defined.

Lemma remove_first_sub_micro_None nm ss :
  Micro.remove_first_sub_micro nm ss = None <->
  Forall (fun s => Micro.name s <> nm) ss.
Proof.
  induction ss as [|c r IH]; cbn [Micro.remove_first_sub_micro].
  - split; [constructor | reflexivity].
  - destruct (String.eqb (Micro.name c) nm) eqn:E.
    + apply String.eqb_eq in E. split; [discriminate|].
      intros H. inversion H; subst. contradiction.
    + apply String.eqb_neq in E.
      destruct (Micro.remove_first_sub_micro nm r) as [r'|].
      * split; [discriminate|]. intros H. inversion H as [|? ? _ Hr]; subst.
        apply IH in Hr. discriminate.
      * split; [|reflexivity]. intros _. constructor; [exact E|].
        apply IH. reflexivity.
Qed.

Lemma remove_first_sub_micro_Some nm ss ss' :
  Micro.remove_first_sub_micro nm ss = Some ss' ->
  exists l1 s l2,
    ss = l1 ++ s :: l2 /\ Micro.name s = nm /\
    Forall (fun s' => Micro.name s' <> nm) l1 /\ ss' = l1 ++ l2.
Proof.
  revert ss'. induction ss as [|c r IH]; intros ss' H;
    cbn [Micro.remove_first_sub_micro] in H; [discriminate|].
  destruct (String.eqb (Micro.name c) nm) eqn:E.
  - apply String.eqb_eq in E. inversion H; subst.
    exists [], c, ss'. repeat split; constructor.
  - apply String.eqb_neq in E.
    destruct (Micro.remove_first_sub_micro nm r) as [r'|]; [|discriminate].
    inversion H; subst.
    destruct (IH r' eq_refl) as (l1 & c0 & l2 & -> & Hn & Hl & ->).
    exists (c :: l1), c0, l2. repeat split; [exact Hn|].
    constructor; assumption.
Qed.

(** X9.  [remove_sub_micro] returns False exactly when no direct sub-micro
    has the name, and then leaves the Micro as it was; otherwise it removes
    the first direct sub-micro of that name, with its whole subtree, and
    nothing else.  Sub-micros further down are never looked at. *)
Theorem remove_sub_micro_first_match (m : Micro.t) (micro_name : string) :
  (snd (Micro.remove_sub_micro m micro_name) = false <->
   Forall (fun s => Micro.name s <> micro_name) (Micro.sub_micros m)) /\
  (snd (Micro.remove_sub_micro m micro_name) = false ->
   fst (Micro.remove_sub_micro m micro_name) = m) /\
  (snd (Micro.remove_sub_micro m micro_name) = true ->
   exists l1 s l2,
     Micro.sub_micros m = l1 ++ s :: l2 /\ Micro.name s = micro_name /\
     Forall (fun s' => Micro.name s' <> micro_name) l1 /\
     fst (Micro.remove_sub_micro m micro_name)
     = Micro.with_sub_micros (l1 ++ l2) m).
Proof.
  unfold Micro.remove_sub_micro.
  pose proof (remove_first_sub_micro_None micro_name (Micro.sub_micros m)) as HN.
  destruct (Micro.remove_first_sub_micro micro_name (Micro.sub_micros m))
    as [ss'|] eqn:E; cbn [fst snd].
  - split; [|split].
    + split; [discriminate|]. intros H. apply HN in H. discriminate.
    + discriminate.
    + intros _. destruct (remove_first_sub_micro_Some _ _ _ E)
        as (l1 & c & l2 & H1 & H2 & H3 & ->).
      exists l1, c, l2. repeat split; assumption.
  - split; [|split].
    + split; [intros _; apply HN; reflexivity | reflexivity].
    + reflexivity.
    + discriminate.
Qed.

Lemma remove_sub_micro_first_match_witness :
  fst (Micro.remove_sub_micro nested "C") = nested.
Proof.
  apply (proj1 (proj2 (remove_sub_micro_first_match nested "C"))).
  vm_compute. reflexivity.
Defined.

Lemma placed_name self c : Cell.name (placed self c) = Cell.name c.
Proof.
  pose proof (stored_cell_placed self c) as E. unfold stored_cell in E.
  congruence.
Qed.

Lemma remove_first_cell_app_last nm l c :
  Forall (fun c' => Cell.name c' <> nm) l -> Cell.name c = nm ->
  Micro.remove_first_cell nm (l ++ [c]) = Some l.
Proof.
  intros Hl Hc. induction Hl as [|a r Ha _ IH]; cbn [app Micro.remove_first_cell].
  - apply String.eqb_eq in Hc. rewrite Hc. reflexivity.
  - apply String.eqb_neq in Ha. rewrite Ha, IH. reflexivity.
Qed.

Lemma remove_first_cell_split nm l1 c l2 :
  Forall (fun c' => Cell.name c' <> nm) l1 -> Cell.name c = nm ->
  Micro.remove_first_cell nm (l1 ++ c :: l2) = Some (l1 ++ l2).
Proof.
  intros Hl Hc. induction Hl as [|a r Ha _ IH]; cbn [app Micro.remove_first_cell].
  - apply String.eqb_eq in Hc. rewrite Hc. reflexivity.
  - apply String.eqb_neq in Ha. rewrite Ha, IH. reflexivity.
Qed.

Lemma remove_cell_first_match_aux m nm l1 c l2 :
  Micro.cells m = l1 ++ c :: l2 -> Cell.name c = nm ->
  Forall (fun c' => Cell.name c' <> nm) l1 ->
  Micro.cells (fst (Micro.remove_cell m nm)) = l1 ++ l2 /\
  snd (Micro.remove_cell m nm) = true.
Proof.
  intros Hc Hn Hl. unfold Micro.remove_cell.
  rewrite Hc, (remove_first_cell_split nm l1 c l2 Hl Hn). split; reflexivity.
Qed.

(** X10.  Removing by name the cell that [add_cell] has just added gives the
    Micro back, when no cell owned before had that name; with an older cell
    of that name, it is the older cell that [remove_cell] removes. *)
Theorem remove_cell_add_cell (m : Micro.t) (cell : Cell.t) :
  (Forall (fun c => Cell.name c <> Cell.name cell) (Micro.cells m) ->
   Micro.remove_cell (Micro.add_cell m cell) (Cell.name cell) = (m, true)) /\
  (forall l1 c l2,
      Micro.cells m = l1 ++ c :: l2 -> Cell.name c = Cell.name cell ->
      Forall (fun c' => Cell.name c' <> Cell.name cell) l1 ->
      Micro.cells (fst (Micro.remove_cell (Micro.add_cell m cell)
                                          (Cell.name cell)))
      = l1 ++ l2 ++ [placed m cell]).
Proof.
  split.
  - intros H. unfold Micro.remove_cell. rewrite add_cell_eq.
    cbn [Micro.cells Micro.with_cells].
    rewrite (remove_first_cell_app_last _ _ _ H (placed_name m cell)).
    destruct m. reflexivity.
  - intros l1 c l2 Hc Hn Hl.
    destruct (remove_cell_first_match_aux (Micro.add_cell m cell)
                (Cell.name cell) l1 c (l2 ++ [placed m cell])) as [E _].
    + rewrite add_cell_eq. cbn [Micro.cells Micro.with_cells].
      rewrite Hc, <- List.app_assoc. reflexivity.
    + exact Hn.
    + exact Hl.
    + exact E.
Qed.

Lemma remove_cell_add_cell_witness :
  Micro.remove_cell (Micro.add_cell leaf_B cell_b) (Cell.name cell_b)
  = (leaf_B, true).
Proof.
  apply (proj1 (remove_cell_add_cell leaf_B cell_b)).
  repeat constructor. vm_compute. discriminate.
Defined.

Lemma placed_path self c :
  Cell.hierarchical_path (placed self c)
  = join_path (Micro.hierarchical_path self) (Cell.name c).
Proof.
  unfold placed, Cell.set_hierarchical_path, join_path.
  destruct (String.eqb (Micro.hierarchical_path self) EmptyString); reflexivity.
Qed.

Lemma placed_boxed self c : boxed (placed self c).
Proof.
  unfold placed. apply cell_set_hierarchical_path_boxed,
    set_absolute_position_boxed.
Qed.

Lemma placed_site_info self c :
  Cell.site_info (placed self c) = Micro.site_info self.
Proof.
  unfold placed, Cell.set_hierarchical_path.
  destruct (String.eqb (Micro.hierarchical_path self) EmptyString); reflexivity.
Qed.

(** X11.  [add_cells] appends one copy per given cell, in order, after the
    cells already owned, and changes nothing else.  Each copy has the name,
    stored position, orientation and size of the given cell, the grid of
    the Micro, the absolute position origin + stored position, an up-to-date
    box, and the path of the Micro followed by its name. *)
Theorem add_cells_appends_copies (m : Micro.t) (cs : list Cell.t) :
  exists added,
    Micro.add_cells m cs = Micro.with_cells (Micro.cells m ++ added) m /\
    List.map stored_cell added = List.map stored_cell cs /\
    Forall (fun c =>
              positioned (Micro.origin_x m) (Micro.origin_y m) c /\
              boxed c /\
              Cell.site_info c = Micro.site_info m /\
              Cell.hierarchical_path c
              = join_path (Micro.hierarchical_path m) (Cell.name c))
           added.
Proof.
  exists (List.map (placed m) cs). split; [|split].
  - unfold Micro.add_cells.
    exact (fold_add_cell (fun c => c) cs m).
  - rewrite List.map_map. apply List.map_ext. apply stored_cell_placed.
  - apply List.Forall_map, List.Forall_forall. intros c _.
    split; [apply placed_positioned|]. split; [apply placed_boxed|].
    split; [apply placed_site_info|].
    rewrite placed_path, placed_name. reflexivity.
Qed.

Lemma set_hierarchical_path_path parent_path m :
  Micro.hierarchical_path (Micro.set_hierarchical_path parent_path m)
  = join_path parent_path (Micro.name m).
Proof. destruct m. reflexivity. Qed.

Lemma set_hierarchical_path_origin parent_path m :
  Micro.origin_x (Micro.set_hierarchical_path parent_path m) = Micro.origin_x m /\
  Micro.origin_y (Micro.set_hierarchical_path parent_path m) = Micro.origin_y m /\
  Micro.site_info (Micro.set_hierarchical_path parent_path m) = Micro.site_info m.
Proof. destruct m. repeat split; reflexivity. Qed.

Lemma set_origin_hierarchical_path parent m x y :
  Micro.hierarchical_path (Micro.set_origin parent m x y)
  = Micro.hierarchical_path m.
Proof.
  rewrite set_origin_unfold. destruct parent as [[ps px py]|]; reflexivity.
Qed.

Lemma clone_origin_site new_name m :
  Micro.origin_x (Micro.clone new_name m) = Micro.origin_x m /\
  Micro.origin_y (Micro.clone new_name m) = Micro.origin_y m /\
  Micro.site_info (Micro.clone new_name m) = Micro.site_info m.
Proof.
  pose proof (clone_root_view new_name m) as E. unfold root_view in E.
  inversion E as [[Ex Ey Ed Ew Eh Ec Es]].
  repeat split; try assumption.
  destruct (Micro.site_info (Micro.clone new_name m)) as [w h],
    (Micro.site_info m) as [w' h'].
  cbn [SiteInfo.width SiteInfo.height] in Ew, Eh. congruence.
Qed.

(** X12.  [add_sub_micro] appends one copy of the given Micro after the
    sub-micros already owned and changes nothing else in the receiver.  The
    copy has the name and the grid of the given Micro, the path of the
    receiver followed by that name, and its origin is the receiver's origin
    plus the given Micro's origin, snapped to the copy's own grid: the
    origin of the given Micro is read as an offset from the receiver. *)
Theorem add_sub_micro_appends_offset_copy (self sub_micro : Micro.t) :
  exists cpy,
    Micro.add_sub_micro self sub_micro
    = Micro.with_sub_micros (Micro.sub_micros self ++ [cpy]) self /\
    Micro.name cpy = Micro.name sub_micro /\
    Micro.site_info cpy = Micro.site_info sub_micro /\
    Micro.hierarchical_path cpy
    = join_path (Micro.hierarchical_path self) (Micro.name sub_micro) /\
    (Micro.origin_x cpy, Micro.origin_y cpy)
    = SiteInfo.snap_to_grid (Micro.site_info sub_micro)
        (fadd (Micro.origin_x self) (Micro.origin_x sub_micro))
        (fadd (Micro.origin_y self) (Micro.origin_y sub_micro)).
Proof.
  exists (attached (Micro.clone None) self sub_micro).
  split; [reflexivity|].
  destruct (clone_origin_site None sub_micro) as (Cx & Cy & Cs).
  destruct (set_hierarchical_path_origin (Micro.hierarchical_path self)
              (Micro.clone None sub_micro)) as (Hx & Hy & Hs).
  split; [|split; [|split]].
  - rewrite attached_name. apply clone_name_eq.
  - unfold attached. cbv zeta. rewrite set_origin_site_info, Hs. exact Cs.
  - unfold attached. cbv zeta.
    rewrite set_origin_hierarchical_path, set_hierarchical_path_path,
      clone_name_eq.
    reflexivity.
  - unfold attached. cbv zeta.
    rewrite set_origin_origin_x, set_origin_origin_y, Hx, Hy, Hs, Cx, Cy, Cs.
    symmetry. apply surjective_pairing.
Qed.

(** ** Looking into the tree: all cells, bounding box, searches by path *)

Lemma get_all_cells_unfold m :
  Micro.get_all_cells m =
  Micro.cells m ++ flat_map Micro.get_all_cells (Micro.sub_micros m).
Proof. destruct m. reflexivity. Qed.

Lemma flat_map_flat_map {A B C : Type} (f : A -> list B) (g : B -> list C) l :
  flat_map g (flat_map f l) = flat_map (fun a => flat_map g (f a)) l.
Proof.
  induction l as [|a r IH]; [reflexivity|].
  cbn [flat_map]. rewrite List.flat_map_app, IH. reflexivity.
Qed.

Lemma get_all_cells_tree_micros (m : Micro.t) :
  Micro.get_all_cells m = flat_map Micro.cells (tree_micros m).
Proof.
  induction m as [m IH] using Micro_tree_ind.
  rewrite get_all_cells_unfold, tree_micros_unfold.
  cbn [flat_map]. f_equal. rewrite flat_map_flat_map.
  induction IH as [|s r Hs _ IHr]; [reflexivity|].
  cbn [flat_map]. rewrite Hs, IHr. reflexivity.
Qed.

(** X13.  [get_all_cells] returns the cells owned by the Micro followed by
    those of its sub-micros, depth first and in order: it is the list of
    the cells of every Micro of the tree, taken in pre-order, each owned
    cell exactly once. *)
Theorem get_all_cells_preorder (m : Micro.t) :
  Micro.get_all_cells m = flat_map Micro.cells (tree_micros m).
Proof. exact (get_all_cells_tree_micros m). Qed.

Lemma fold_left_Qmin_le (l : list Q) :
  forall a, fold_left Qmin l a <= a /\ Forall (fun x => fold_left Qmin l a <= x) l.
Proof.
  induction l as [|b r IH]; intros a; cbn [fold_left].
  - split; [apply Qle_refl | constructor].
  - destruct (IH (Qmin a b)) as [H1 H2]. split.
    + eapply Qle_trans; [exact H1 | apply Q.le_min_l].
    + constructor; [eapply Qle_trans; [exact H1 | apply Q.le_min_r] | exact H2].
Qed.

Lemma fold_left_Qmax_ge (l : list Q) :
  forall a, a <= fold_left Qmax l a /\ Forall (fun x => x <= fold_left Qmax l a) l.
Proof.
  induction l as [|b r IH]; intros a; cbn [fold_left].
  - split; [apply Qle_refl | constructor].
  - destruct (IH (Qmax a b)) as [H1 H2]. split.
    + eapply Qle_trans; [apply Q.le_max_l | exact H1].
    + constructor; [eapply Qle_trans; [apply Q.le_max_r | exact H1] | exact H2].
Qed.

Lemma py_min_le (l : list Q) : Forall (fun x => py_min l <= x) l.
Proof.
  destruct l as [|a r]; [constructor|]. cbn [py_min].
  destruct (fold_left_Qmin_le r a) as [H1 H2]. constructor; assumption.
Qed.

Lemma py_max_ge (l : list Q) : Forall (fun x => x <= py_max l) l.
Proof.
  destruct l as [|a r]; [constructor|]. cbn [py_max].
  destruct (fold_left_Qmax_ge r a) as [H1 H2]. constructor; assumption.
Qed.

Lemma Forall_map_In {A : Type} (f : A -> Q) (P : Q -> Prop) l c :
  Forall P (List.map f l) -> In c l -> P (f c).
Proof.
  intros H Hc. rewrite List.Forall_forall in H. apply H, List.in_map, Hc.
Qed.

(** X14.  [calculate_bounding_box] returns the all-zero box when the tree
    has no cell; otherwise the box it returns encloses the cached box of
    every cell of the tree. *)
Theorem calculate_bounding_box_encloses (m : Micro.t) :
  (Micro.get_all_cells m = [] ->
   Micro.calculate_bounding_box m = (0, 0, 0, 0)) /\
  (forall c,
      In c (Micro.get_all_cells m) ->
      let '(min_x, min_y, max_x, max_y) := Micro.calculate_bounding_box m in
      min_x <= Cell.bbox_min_x c /\ min_y <= Cell.bbox_min_y c /\
      Cell.bbox_max_x c <= max_x /\ Cell.bbox_max_y c <= max_y).
Proof.
  unfold Micro.calculate_bounding_box. split.
  - intros ->. reflexivity.
  - intros c Hc.
    destruct (Micro.get_all_cells m) as [|a r] eqn:E; [destruct Hc|].
    split; [|split; [|split]].
    + exact (Forall_map_In Cell.bbox_min_x (fun x => _ <= x) _ c
               (py_min_le _) Hc).
    + exact (Forall_map_In Cell.bbox_min_y (fun x => _ <= x) _ c
               (py_min_le _) Hc).
    + exact (Forall_map_In Cell.bbox_max_x (fun x => x <= _) _ c
               (py_max_ge _) Hc).
    + exact (Forall_map_In Cell.bbox_max_y (fun x => x <= _) _ c
               (py_max_ge _) Hc).
Qed.

Lemma calculate_bounding_box_encloses_witness :
  Micro.calculate_bounding_box (Micro.init "A" 2 3 "root" unit_grid)
  = (0, 0, 0, 0).
Proof.
  apply (proj1 (calculate_bounding_box_encloses _)). reflexivity.
Defined.

Lemma get_sub_micro_by_path_unfold m path :
  Micro.get_sub_micro_by_path m path =
  if String.eqb (Micro.hierarchical_path m) path then Some m
  else
    (fix loop (l : list Micro.t) : option Micro.t :=
       match l with
       | [] => None
       | sub_micro :: r =>
           match Micro.get_sub_micro_by_path sub_micro path with
           | Some result => Some result
           | None => loop r
           end
       end) (Micro.sub_micros m).
Proof. destruct m. reflexivity. Qed.

Lemma find_app {A : Type} (f : A -> bool) l1 l2 :
  List.find f (l1 ++ l2) =
  match List.find f l1 with Some a => Some a | None => List.find f l2 end.
Proof.
  induction l1 as [|a r IH]; [reflexivity|].
  cbn [app List.find]. destruct (f a); [reflexivity | exact IH].
Qed.

(** X15.  [get_sub_micro_by_path] returns the first Micro of the tree, in
    pre-order and the Micro itself included, whose hierarchical path is the
    given one; it returns None exactly when no Micro of the tree has that
    path. *)
Theorem get_sub_micro_by_path_first (m : Micro.t) (path : string) :
  Micro.get_sub_micro_by_path m path =
  List.find (fun s => String.eqb (Micro.hierarchical_path s) path)
            (tree_micros m) /\
  (Micro.get_sub_micro_by_path m path = None <->
   Forall (fun s => Micro.hierarchical_path s <> path) (tree_micros m)).
Proof.
  assert (E : forall m,
             Micro.get_sub_micro_by_path m path =
             List.find (fun s => String.eqb (Micro.hierarchical_path s) path)
                       (tree_micros m)).
  { clear m. intros m. induction m as [m IH] using Micro_tree_ind.
    rewrite get_sub_micro_by_path_unfold, tree_micros_unfold.
    cbn [List.find].
    destruct (String.eqb (Micro.hierarchical_path m) path); [reflexivity|].
    induction IH as [|s r Hs _ IHr]; [reflexivity|].
    cbn [flat_map]. rewrite find_app, Hs.
    destruct (List.find _ (tree_micros s)); [reflexivity | exact IHr]. }
  split; [apply E|]. rewrite E. split.
  - intros H. apply List.Forall_forall. intros s Hs Hp.
    apply (List.find_none _ _ H) in Hs.
    apply String.eqb_neq in Hs. contradiction.
  - intros H. destruct (List.find _ (tree_micros m)) as [s|] eqn:F;
      [|reflexivity].
    apply List.find_some in F as [Hs Hp]. apply String.eqb_eq in Hp.
    rewrite List.Forall_forall in H. destruct (H s Hs Hp).
Qed.

(** X16.  After [add_cell], [get_cell_by_path] finds the copy just added
    under the path of the Micro followed by the name of the cell, provided
    no cell the Micro owned before has that path; with an older cell of that
    path, the older cell hides the new one. *)
Theorem get_cell_by_path_add_cell (m : Micro.t) (cell : Cell.t) :
  let path := join_path (Micro.hierarchical_path m) (Cell.name cell) in
  (Forall (fun c => Cell.hierarchical_path c <> path) (Micro.cells m) ->
   exists cpy,
     Micro.get_cell_by_path (Micro.add_cell m cell) path = Some cpy /\
     In cpy (Micro.cells (Micro.add_cell m cell)) /\
     stored_cell cpy = stored_cell cell /\
     positioned (Micro.origin_x m) (Micro.origin_y m) cpy) /\
  (forall old,
      List.find (fun c => String.eqb (Cell.hierarchical_path c) path)
                (Micro.cells m) = Some old ->
      Micro.get_cell_by_path (Micro.add_cell m cell) path = Some old).
Proof.
  cbv zeta. unfold Micro.get_cell_by_path.
  rewrite get_all_cells_unfold, add_cell_eq.
  cbn [Micro.cells Micro.sub_micros Micro.with_cells].
  rewrite <- List.app_assoc, find_app. split.
  - intros H. exists (placed m cell).
    assert (F : List.find
                  (fun c => String.eqb (Cell.hierarchical_path c)
                              (join_path (Micro.hierarchical_path m)
                                         (Cell.name cell)))
                  (Micro.cells m) = None).
    { destruct (List.find _ (Micro.cells m)) as [c|] eqn:F; [|reflexivity].
      apply List.find_some in F as [Hc Hp]. apply String.eqb_eq in Hp.
      rewrite List.Forall_forall in H. destruct (H c Hc Hp). }
    rewrite F. cbn [app List.find]. rewrite placed_path, String.eqb_refl.
    split; [reflexivity|]. split; [|split].
    + apply List.in_or_app. right. left. reflexivity.
    + apply stored_cell_placed.
    + apply placed_positioned.
  - intros old ->. reflexivity.
Qed.

Lemma get_cell_by_path_add_cell_witness :
  exists cpy,
    Micro.get_cell_by_path (Micro.add_cell leaf_B cell_b) "B/b" = Some cpy /\
    In cpy (Micro.cells (Micro.add_cell leaf_B cell_b)) /\
    stored_cell cpy = stored_cell cell_b /\
    positioned (Micro.origin_x leaf_B) (Micro.origin_y leaf_B) cpy.
Proof.
  apply (proj1 (get_cell_by_path_add_cell leaf_B cell_b)).
  repeat constructor. vm_compute. discriminate.
Defined.

(** ** Repeating [set_origin] *)

Lemma set_absolute_position_again ox oy s o c :
  Cell.set_absolute_position ox oy (Some s)
    (Cell.set_orientation o (Cell.set_absolute_position ox oy (Some s) c))
  = Cell.set_orientation o (Cell.set_absolute_position ox oy (Some s) c).
Proof.
  destruct c as [nm x y o0 w h ax ay p s0 gx gy rgx rgy b0 b1 b2 b3].
  unfold Cell.set_absolute_position, Cell.set_orientation, Cell._update_bbox,
    Cell._update_grid_coordinates, Cell.take_site_info.
  cbn [Cell.with_position Cell.with_orientation Cell.with_size
       Cell.with_absolute Cell.with_path Cell.with_site_info Cell.with_grid
       Cell.with_bbox Cell.name Cell.x Cell.y Cell.orientation Cell.width
       Cell.height Cell.absolute_x Cell.absolute_y Cell.hierarchical_path
       Cell.site_info Cell.grid_x Cell.grid_y Cell.rel_grid_x Cell.rel_grid_y
       Cell.bbox_min_x Cell.bbox_min_y Cell.bbox_max_x Cell.bbox_max_y
       SiteInfo.to_grid_coords].
  reflexivity.
Qed.

Lemma set_orientation_again o c :
  Cell.set_orientation o (Cell.set_orientation o c) = Cell.set_orientation o c.
Proof. destruct c. reflexivity. Qed.

Lemma refresh_cell_idempotent ox oy s c :
  Micro.refresh_cell ox oy s (Micro.refresh_cell ox oy s c)
  = Micro.refresh_cell ox oy s c.
Proof.
  unfold Micro.refresh_cell. cbv zeta.
  set (c1 := Cell.set_absolute_position ox oy (Some s) c).
  set (o1 := Cell.get_orientation_for_row c1 (Cell.absolute_y c1)).
  replace (Cell.set_absolute_position ox oy (Some s)
             (Cell.set_orientation o1 c1))
    with (Cell.set_orientation o1 c1)
    by (symmetry; apply set_absolute_position_again).
  change (Cell.absolute_y (Cell.set_orientation o1 c1))
    with (Cell.absolute_y c1).
  rewrite get_orientation_for_row_set_orientation.
  assert (O : orientation_in_row o1 (row_index (Cell.site_info c1)
                                               (Cell.absolute_y c1)) = o1).
  { subst o1. rewrite get_orientation_for_row_eq.
    apply orientation_in_row_stable. }
  rewrite O. apply set_orientation_again.
Qed.

Lemma update_abs_without_sub_micros m :
  Micro.sub_micros m = [] ->
  Micro._update_absolute_positions m
  = Micro.with_sub_micros []
      (Micro.with_cells
         (List.map (Micro.refresh_cell (Micro.origin_x m) (Micro.origin_y m)
                                       (Micro.site_info m)) (Micro.cells m))
         m).
Proof. intros H. unfold Micro._update_absolute_positions. rewrite H. reflexivity. Qed.

Lemma update_grid_again parent a b cs m :
  Micro._update_grid_coordinates parent
    (Micro.with_origin a b
       (Micro.with_sub_micros []
          (Micro.with_cells cs
             (Micro._update_grid_coordinates parent (Micro.with_origin a b m)))))
  = Micro.with_sub_micros []
      (Micro.with_cells cs
         (Micro._update_grid_coordinates parent (Micro.with_origin a b m))).
Proof.
  destruct m as [nm ox oy d s cs0 subs path gx gy rgx rgy].
  destruct parent as [[ps px py]|]; unfold Micro._update_grid_coordinates;
    cbn [Micro.with_origin Micro.with_grid Micro.with_cells
         Micro.with_sub_micros Micro.name Micro.origin_x Micro.origin_y
         Micro.description Micro.site_info Micro.cells Micro.sub_micros
         Micro.hierarchical_path Micro.grid_x Micro.grid_y Micro.rel_grid_x
         Micro.rel_grid_y Micro.p_site_info Micro.p_origin_x Micro.p_origin_y
         SiteInfo.to_grid_coords];
    reflexivity.
Qed.

Lemma with_cells_again cs cs' m :
  Micro.with_sub_micros []
    (Micro.with_cells cs (Micro.with_sub_micros [] (Micro.with_cells cs' m)))
  = Micro.with_sub_micros [] (Micro.with_cells cs m).
Proof. destruct m. reflexivity. Qed.

Lemma set_origin_again parent m x y :
  Micro.sub_micros m = [] ->
  Micro.set_origin parent (Micro.set_origin parent m x y) x y
  = Micro.set_origin parent m x y.
Proof.
  intros Hs.
  rewrite (set_origin_unfold parent (Micro.set_origin parent m x y)).
  rewrite set_origin_site_info.
  rewrite (set_origin_unfold parent m x y).
  set (sx := fst (SiteInfo.snap_to_grid (Micro.site_info m) x y)).
  set (sy := snd (SiteInfo.snap_to_grid (Micro.site_info m) x y)).
  set (U := Micro._update_grid_coordinates parent (Micro.with_origin sx sy m)).
  assert (HU : Micro.sub_micros U = [])
    by (subst U; rewrite update_grid_sub_micros; exact Hs).
  rewrite (update_abs_without_sub_micros U HU).
  subst U. rewrite update_grid_again.
  set (U := Micro._update_grid_coordinates parent (Micro.with_origin sx sy m)).
  rewrite update_abs_without_sub_micros by (destruct U; reflexivity).
  set (R := Micro.refresh_cell (Micro.origin_x U) (Micro.origin_y U)
                               (Micro.site_info U)).
  change (Micro.origin_x (Micro.with_sub_micros [] (Micro.with_cells ?c U)))
    with (Micro.origin_x U).
  change (Micro.origin_y (Micro.with_sub_micros [] (Micro.with_cells ?c U)))
    with (Micro.origin_y U).
  change (Micro.site_info (Micro.with_sub_micros [] (Micro.with_cells ?c U)))
    with (Micro.site_info U).
  change (Micro.cells (Micro.with_sub_micros [] (Micro.with_cells ?c U)))
    with c.
  fold R. rewrite List.map_map.
  rewrite (List.map_ext (fun c => R (R c)) R)
    by (intros c; apply refresh_cell_idempotent).
  apply with_cells_again.
Qed.

(** X19.  On a Micro without sub-micros, [set_origin] is idempotent: calling
    it a second time with the same point changes nothing; and on a grid with
    non-zero pitches, neither does calling it with the origin it has left. *)
Theorem set_origin_idempotent_without_sub_micros
        (parent : option Micro.parent_ctx) (m : Micro.t) (x y : Q) :
  Micro.sub_micros m = [] ->
  Micro.set_origin parent (Micro.set_origin parent m x y) x y
  = Micro.set_origin parent m x y /\
  (SiteInfo.wf (Micro.site_info m) ->
   Micro.set_origin parent (Micro.set_origin parent m x y)
     (Micro.origin_x (Micro.set_origin parent m x y))
     (Micro.origin_y (Micro.set_origin parent m x y))
   = Micro.set_origin parent m x y).
Proof.
  intros Hs.
  pose proof (set_origin_again parent m x y Hs) as A.
  split; [exact A|]. intros W.
  rewrite set_origin_origin_x, set_origin_origin_y.
  rewrite !(set_origin_unfold parent (Micro.set_origin parent m x y)) in *.
  rewrite set_origin_site_info in *.
  rewrite (snap_to_grid_fixed _ _ _ W). exact A.
Qed.

Lemma set_origin_idempotent_without_sub_micros_witness :
  Micro.sub_micros two_cells = [] /\
  Micro.set_origin None (Micro.set_origin None two_cells (5 # 2) 1) (5 # 2) 1
  = Micro.set_origin None two_cells (5 # 2) 1 /\
  Micro.set_origin None (Micro.set_origin None two_cells (5 # 2) 1)
    (Micro.origin_x (Micro.set_origin None two_cells (5 # 2) 1))
    (Micro.origin_y (Micro.set_origin None two_cells (5 # 2) 1))
  = Micro.set_origin None two_cells (5 # 2) 1.
Proof.
  split; [reflexivity|].
  destruct (set_origin_idempotent_without_sub_micros
              None two_cells (5 # 2) 1 eq_refl) as [A B].
  split; [exact A|]. apply B. split; vm_compute; discriminate.
Defined.

(** ** Names and paths *)

Lemma skeleton_of_unfold m :
  skeleton_of m
  = Skeleton (Micro.name m) (Micro.hierarchical_path m)
             (List.map (fun c => (Cell.name c, Cell.hierarchical_path c))
                       (Micro.cells m))
             (List.map skeleton_of (Micro.sub_micros m)).
Proof. destruct m. reflexivity. Qed.

Lemma skeleton_of_with_origin a b m :
  skeleton_of (Micro.with_origin a b m) = skeleton_of m.
Proof. destruct m. reflexivity. Qed.

Lemma refresh_cell_id ox oy s c :
  Cell.name (Micro.refresh_cell ox oy s c) = Cell.name c /\
  Cell.hierarchical_path (Micro.refresh_cell ox oy s c)
  = Cell.hierarchical_path c.
Proof. destruct c. split; reflexivity. Qed.

Lemma update_name_path parent m :
  Micro.name (Micro._update_absolute_positions
                (Micro._update_grid_coordinates parent m)) = Micro.name m /\
  Micro.hierarchical_path (Micro._update_absolute_positions
                             (Micro._update_grid_coordinates parent m))
  = Micro.hierarchical_path m.
Proof. destruct parent as [[ps px py]|]; split; reflexivity. Qed.

Lemma skeleton_of_update parent m :
  (forall s, In s (Micro.sub_micros m) ->
             forall p x y, skeleton_of (Micro.set_origin p s x y)
                           = skeleton_of s) ->
  skeleton_of (Micro._update_absolute_positions
                 (Micro._update_grid_coordinates parent m))
  = skeleton_of m.
Proof.
  intros H.
  rewrite (skeleton_of_unfold (Micro._update_absolute_positions _)),
    (skeleton_of_unfold m).
  destruct (update_name_path parent m) as [-> ->].
  rewrite update_abs_cells, update_grid_cells, List.map_map.
  rewrite update_abs_sub_micros, update_grid_sub_micros, List.map_map.
  assert (C : forall l : list Cell.t,
             List.map (fun c => (Cell.name (Micro.refresh_cell
                        (Micro.origin_x (Micro._update_grid_coordinates parent m))
                        (Micro.origin_y (Micro._update_grid_coordinates parent m))
                        (Micro.site_info (Micro._update_grid_coordinates parent m))
                        c),
                      Cell.hierarchical_path (Micro.refresh_cell
                        (Micro.origin_x (Micro._update_grid_coordinates parent m))
                        (Micro.origin_y (Micro._update_grid_coordinates parent m))
                        (Micro.site_info (Micro._update_grid_coordinates parent m))
                        c))) l
             = List.map (fun c => (Cell.name c, Cell.hierarchical_path c)) l).
  { intros l. apply List.map_ext. intros c.
    destruct (refresh_cell_id
                (Micro.origin_x (Micro._update_grid_coordinates parent m))
                (Micro.origin_y (Micro._update_grid_coordinates parent m))
                (Micro.site_info (Micro._update_grid_coordinates parent m)) c)
      as [-> ->].
    reflexivity. }
  rewrite C. f_equal.
  apply List.map_ext_in. intros s Hs. apply H, Hs.
Qed.

Lemma skeleton_of_set_origin m :
  forall parent x y,
    skeleton_of (Micro.set_origin parent m x y) = skeleton_of m.
Proof.
  induction m as [m IH] using Micro_tree_ind. intros parent x y.
  rewrite set_origin_unfold, skeleton_of_update.
  - apply skeleton_of_with_origin.
  - rewrite List.Forall_forall in IH. intros s Hs.
    apply IH. destruct m. exact Hs.
Qed.

Lemma skeleton_of_move_by parent m dx dy :
  skeleton_of (Micro.move_by parent m dx dy) = skeleton_of m.
Proof.
  rewrite move_by_unfold, skeleton_of_update.
  - apply skeleton_of_with_origin.
  - intros s _. apply skeleton_of_set_origin.
Qed.

Lemma flipped_cell_id x y s c :
  Cell.name (Cell.flip_oritentation (Cell.set_rel_position x y s c))
  = Cell.name c /\
  Cell.hierarchical_path
    (Cell.flip_oritentation (Cell.set_rel_position x y s c))
  = Cell.hierarchical_path c.
Proof.
  unfold Cell.flip_oritentation.
  destruct (Cell.orientation (Cell.set_rel_position x y s c));
    destruct c, s; split; reflexivity.
Qed.

Lemma skeleton_of_flip_horizontal_body rec parent m :
  (forall p s, skeleton_of (rec p s) = skeleton_of s) ->
  skeleton_of (Micro.flip_horizontal_body rec parent m) = skeleton_of m.
Proof.
  intros Hrec. unfold Micro.flip_horizontal_body.
  destruct (Micro.calculate_bounding_box m) as [[[min_x min_y] max_x] max_y].
  cbv zeta. rewrite skeleton_of_update.
  - rewrite (skeleton_of_unfold (Micro.with_sub_micros _ _)),
      (skeleton_of_unfold m).
    cbn [Micro.name Micro.hierarchical_path Micro.cells Micro.sub_micros
         Micro.with_sub_micros Micro.with_cells].
    rewrite !List.map_map.
    assert (C : forall l : list Cell.t,
               List.map
                 (fun c =>
                    (Cell.name
                       (Cell.flip_oritentation
                          (Cell.set_rel_position
                             (fsub (fsub (fsub max_x min_x) (Cell.x c))
                                   (fsub (Cell.bbox_max_x c)
                                         (Cell.bbox_min_x c)))
                             (Cell.y c) (Some (Micro.site_info m)) c)),
                     Cell.hierarchical_path
                       (Cell.flip_oritentation
                          (Cell.set_rel_position
                             (fsub (fsub (fsub max_x min_x) (Cell.x c))
                                   (fsub (Cell.bbox_max_x c)
                                         (Cell.bbox_min_x c)))
                             (Cell.y c) (Some (Micro.site_info m)) c)))) l
               = List.map (fun c => (Cell.name c, Cell.hierarchical_path c)) l).
    { intros l. apply List.map_ext. intros c.
      destruct (flipped_cell_id
                  (fsub (fsub (fsub max_x min_x) (Cell.x c))
                        (fsub (Cell.bbox_max_x c) (Cell.bbox_min_x c)))
                  (Cell.y c) (Some (Micro.site_info m)) c) as [-> ->].
      reflexivity. }
    rewrite C. f_equal.
    apply List.map_ext. intros s.
    destruct (Micro.calculate_bounding_box s) as [[[a b] c] d].
    rewrite Hrec. apply skeleton_of_set_origin.
  - intros s _. apply skeleton_of_set_origin.
Qed.

Lemma skeleton_of_flip_horizontal parent m :
  skeleton_of (Micro.flip_horizontal parent m) = skeleton_of m.
Proof.
  unfold Micro.flip_horizontal. generalize (Micro.depth m) as fuel.
  intros fuel. revert parent m.
  induction fuel as [|fuel IH]; intros parent m;
    cbn [Micro.flip_horizontal_fuel]; apply skeleton_of_flip_horizontal_body.
  - reflexivity.
  - exact IH.
Qed.

Lemma skeleton_of_set_origin_by_grid parent m i j :
  skeleton_of (Micro.set_origin_by_grid parent m i j) = skeleton_of m.
Proof.
  unfold Micro.set_origin_by_grid.
  destruct (SiteInfo.from_grid_coords (Micro.site_info m) i j).
  apply skeleton_of_set_origin.
Qed.

(** X20.  Moving or flipping a Micro renames nothing: [set_origin],
    [set_origin_by_grid], [move_by], [move_by_grid] and [flip_horizontal]
    leave the name and the path of the Micro, of each of its cells and,
    recursively, of its sub-micros as they were, in the same order. *)
Theorem moves_keep_names_and_paths (parent : option Micro.parent_ctx)
        (m : Micro.t) :
  (forall x y, skeleton_of (Micro.set_origin parent m x y) = skeleton_of m) /\
  (forall i j,
      skeleton_of (Micro.set_origin_by_grid parent m i j) = skeleton_of m) /\
  (forall dx dy, skeleton_of (Micro.move_by parent m dx dy) = skeleton_of m) /\
  (forall di dj,
      skeleton_of (Micro.move_by_grid parent m di dj) = skeleton_of m) /\
  skeleton_of (Micro.flip_horizontal parent m) = skeleton_of m.
Proof.
  split; [|split; [|split; [|split]]].
  - intros x y. apply skeleton_of_set_origin.
  - intros i j. apply skeleton_of_set_origin_by_grid.
  - intros dx dy. apply skeleton_of_move_by.
  - intros di dj. unfold Micro.move_by_grid. apply skeleton_of_move_by.
  - apply skeleton_of_flip_horizontal.
Qed.

Lemma skeleton_of_head m m' :
  skeleton_of m = skeleton_of m' ->
  Micro.name m = Micro.name m' /\
  Micro.hierarchical_path m = Micro.hierarchical_path m' /\
  List.map (fun c => (Cell.name c, Cell.hierarchical_path c)) (Micro.cells m)
  = List.map (fun c => (Cell.name c, Cell.hierarchical_path c))
             (Micro.cells m') /\
  List.map skeleton_of (Micro.sub_micros m)
  = List.map skeleton_of (Micro.sub_micros m').
Proof.
  rewrite (skeleton_of_unfold m), (skeleton_of_unfold m').
  intros H. injection H. auto.
Qed.

Lemma map_eq_Forall2 {A B : Type} (f : A -> B) l :
  forall l', List.map f l = List.map f l' ->
             Forall2 (fun a b => f a = f b) l l'.
Proof.
  induction l as [|a r IH]; intros [|b r'] H; cbn in H;
    try discriminate; constructor.
  - injection H. auto.
  - apply IH. injection H. auto.
Qed.

Lemma Forall2_Forall_transfer {A : Type} (R : A -> A -> Prop)
      (P Q : A -> Prop) l l' :
  Forall2 R l l' -> Forall P l ->
  (forall a b, In a l -> R a b -> P a -> Q b) -> Forall Q l'.
Proof.
  intros F. induction F as [|a b r r' Hab _ IH]; intros HP H; constructor.
  - apply (H a b); [left; reflexivity | exact Hab |].
    inversion HP; assumption.
  - apply IH; [inversion HP; assumption|].
    intros a' b' Hin. apply H. right. exact Hin.
Qed.

(** Trees with the same names and paths have consistent paths together. *)
Lemma paths_below_transfer m :
  forall m', skeleton_of m = skeleton_of m' ->
             Forall paths_below (tree_micros m) ->
             Forall paths_below (tree_micros m').
Proof.
  induction m as [m IH] using Micro_tree_ind. intros m' E H.
  apply skeleton_of_head in E as (En & Ep & Ec & Es).
  apply Forall_tree_micros in H as [[Hc Hs] Ht].
  apply map_eq_Forall2 in Ec. apply map_eq_Forall2 in Es.
  apply Forall_tree_micros. split; [split|].
  - apply (Forall2_Forall_transfer _ _ _ _ _ Ec Hc).
    intros a b _ Hab Ha. rewrite <- Ep.
    injection Hab as Hn Hp. rewrite <- Hn, <- Hp. exact Ha.
  - apply (Forall2_Forall_transfer _ _ _ _ _ Es Hs).
    intros a b _ Hab Ha. rewrite <- Ep.
    apply skeleton_of_head in Hab as (Hn & Hp & _). rewrite <- Hn, <- Hp.
    exact Ha.
  - assert (HI : Forall (fun s => forall s', skeleton_of s = skeleton_of s' ->
                                             Forall paths_below (tree_micros s'))
                        (Micro.sub_micros m)).
    { rewrite List.Forall_forall in IH, Ht. apply List.Forall_forall.
      intros s Hs' s' E'. apply (IH s Hs' s' E'), Ht, Hs'. }
    apply (Forall2_Forall_transfer _ _ _ _ _ Es HI).
    intros a b _ Hab Ha. apply Ha, Hab.
Qed.

Lemma cell_set_hierarchical_path_id parent_path c :
  Cell.name (Cell.set_hierarchical_path parent_path c) = Cell.name c /\
  Cell.hierarchical_path (Cell.set_hierarchical_path parent_path c)
  = join_path parent_path (Cell.name c).
Proof.
  unfold Cell.set_hierarchical_path, join_path.
  destruct (String.eqb parent_path EmptyString); destruct c; split; reflexivity.
Qed.

Lemma set_hierarchical_path_unfold parent_path m :
  Micro.set_hierarchical_path parent_path m
  = Micro.with_sub_micros
      (List.map (Micro.set_hierarchical_path
                   (join_path parent_path (Micro.name m)))
                (Micro.sub_micros m))
      (Micro.with_cells
         (List.map (Cell.set_hierarchical_path
                      (join_path parent_path (Micro.name m)))
                   (Micro.cells m))
         (Micro.with_path (join_path parent_path (Micro.name m)) m)).
Proof. destruct m. reflexivity. Qed.

(** [set_hierarchical_path] makes the paths of a whole tree consistent. *)
Lemma set_hierarchical_path_paths_below m :
  forall parent_path,
    Forall paths_below
           (tree_micros (Micro.set_hierarchical_path parent_path m)).
Proof.
  induction m as [m IH] using Micro_tree_ind. intros parent_path.
  rewrite set_hierarchical_path_unfold.
  set (path := join_path parent_path (Micro.name m)).
  apply Forall_tree_micros.
  cbn [Micro.sub_micros Micro.with_sub_micros].
  split; [split|].
  - cbn [Micro.cells Micro.with_sub_micros Micro.with_cells
         Micro.hierarchical_path Micro.with_path].
    apply List.Forall_map, List.Forall_forall. intros c _.
    destruct (cell_set_hierarchical_path_id path c) as [-> ->]. reflexivity.
  - cbn [Micro.sub_micros Micro.with_sub_micros Micro.with_cells
         Micro.hierarchical_path Micro.with_path].
    apply List.Forall_map, List.Forall_forall. intros s _.
    rewrite set_hierarchical_path_path, set_hierarchical_path_name.
    reflexivity.
  - apply List.Forall_map. rewrite List.Forall_forall in IH.
    apply List.Forall_forall. intros s Hs. apply IH, Hs.
Qed.

Lemma attached_paths_below cl self s :
  Micro.hierarchical_path (attached cl self s)
  = join_path (Micro.hierarchical_path self) (Micro.name (attached cl self s))
  /\ Forall paths_below (tree_micros (attached cl self s)).
Proof.
  unfold attached. cbv zeta. split.
  - rewrite set_origin_hierarchical_path, set_origin_name,
      set_hierarchical_path_path, set_hierarchical_path_name.
    reflexivity.
  - eapply paths_below_transfer;
      [symmetry; apply skeleton_of_set_origin|].
    apply set_hierarchical_path_paths_below.
Qed.

Lemma do_call_name_path c :
  forall parent m,
    Micro.name (do_call parent m c) = Micro.name m /\
    Micro.hierarchical_path (do_call parent m c) = Micro.hierarchical_path m.
Proof.
  assert (K : forall m m', skeleton_of m' = skeleton_of m ->
                Micro.name m' = Micro.name m /\
                Micro.hierarchical_path m' = Micro.hierarchical_path m).
  { intros m m' E. apply skeleton_of_head in E as (En & Ep & _). auto. }
  destruct c as [x y|i j|dx dy|di dj|cell|sub_micro| |i c];
    intros parent m; cbn [do_call].
  - apply K, skeleton_of_set_origin.
  - apply K, skeleton_of_set_origin_by_grid.
  - apply K, skeleton_of_move_by.
  - apply K. unfold Micro.move_by_grid. apply skeleton_of_move_by.
  - destruct m. split; reflexivity.
  - destruct m. split; reflexivity.
  - apply K, skeleton_of_flip_horizontal.
  - destruct (Micro.sub_micros m !! i); destruct m; split; reflexivity.
Qed.

Lemma do_call_paths_below c :
  forall parent m,
    Forall paths_below (tree_micros m) ->
    Forall paths_below (tree_micros (do_call parent m c)).
Proof.
  induction c as [x y|i j|dx dy|di dj|cell|sub_micro| |i c IH];
    intros parent m H; cbn [do_call].
  - eapply paths_below_transfer; [symmetry; apply skeleton_of_set_origin|].
    exact H.
  - eapply paths_below_transfer;
      [symmetry; apply skeleton_of_set_origin_by_grid|].
    exact H.
  - eapply paths_below_transfer; [symmetry; apply skeleton_of_move_by|].
    exact H.
  - unfold Micro.move_by_grid.
    eapply paths_below_transfer; [symmetry; apply skeleton_of_move_by|].
    exact H.
  - apply Forall_tree_micros in H as [[Hc Hs] Ht].
    rewrite add_cell_eq. apply Forall_tree_micros. split; [split|].
    + destruct m as [nm ox oy d s cs subs path gx gy rgx rgy].
      cbn [Micro.cells Micro.with_cells Micro.hierarchical_path] in *.
      apply List.Forall_app. split; [exact Hc|].
      constructor; [|constructor].
      rewrite placed_path, placed_name. reflexivity.
    + destruct m. exact Hs.
    + destruct m. exact Ht.
  - apply Forall_tree_micros in H as [[Hc Hs] Ht].
    unfold Micro.add_sub_micro. rewrite add_sub_micro_with_eq.
    destruct (attached_paths_below (Micro.clone None) m sub_micro) as [A1 A2].
    apply Forall_tree_micros. split; [split|].
    + destruct m. exact Hc.
    + destruct m as [nm ox oy d s cs subs path gx gy rgx rgy].
      cbn [Micro.sub_micros Micro.with_sub_micros Micro.hierarchical_path] in *.
      apply List.Forall_app. split; [exact Hs|].
      constructor; [exact A1|constructor].
    + destruct m as [nm ox oy d s cs subs path gx gy rgx rgy].
      cbn [Micro.sub_micros Micro.with_sub_micros] in *.
      apply List.Forall_app. split; [exact Ht|].
      constructor; [exact A2|constructor].
  - eapply paths_below_transfer;
      [symmetry; apply skeleton_of_flip_horizontal|].
    exact H.
  - destruct (Micro.sub_micros m !! i) as [s|] eqn:E; [|exact H].
    apply Forall_tree_micros in H as [[Hc Hs] Ht].
    apply Forall_tree_micros. split; [split|].
    + destruct m. exact Hc.
    + cbn [Micro.sub_micros Micro.with_sub_micros Micro.hierarchical_path].
      apply Forall_insert; [exact Hs|]. cbv beta.
      destruct (do_call_name_path c (Some (Micro.ctx_of m)) s) as [-> ->].
      exact (proj1 (Forall_lookup _ _) Hs i s E).
    + cbn [Micro.sub_micros Micro.with_sub_micros].
      apply Forall_insert; [exact Ht|]. apply IH.
      exact (proj1 (Forall_lookup _ _) Ht i s E).
Qed.

(** X21.  The paths of a tree stay consistent: in a Micro made by the
    constructor and changed by any sequence of calls of [set_origin],
    [set_origin_by_grid], [move_by], [move_by_grid], [add_cell],
    [add_sub_micro] and [flip_horizontal], on the Micro or on sub-micros
    at any depth, the path of every cell and of every sub-micro is the path
    of the Micro that holds it, a slash and their name (their name alone
    below an empty path); and the calls keep this on any tree that has it. *)
Theorem calls_keep_paths (parent : option Micro.parent_ctx)
        (cs : list call) :
  (forall nm ox oy d s,
      Forall paths_below
             (tree_micros (do_calls parent cs (Micro.init nm ox oy d s)))) /\
  (forall m,
      Forall paths_below (tree_micros m) ->
      Forall paths_below (tree_micros (do_calls parent cs m))).
Proof.
  assert (K : forall m,
             Forall paths_below (tree_micros m) ->
             Forall paths_below (tree_micros (do_calls parent cs m))).
  { induction cs as [|c cs IH]; intros m H; [exact H|].
    cbn [do_calls fold_left]. apply IH, do_call_paths_below, H. }
  split; [|exact K].
  intros nm ox oy d s. apply K, init_tree.
  unfold Micro.init. destruct (SiteInfo.to_grid_coords s ox oy).
  split; constructor.
Qed.

(** ** The registry of the engine *)

Lemma insert_others_untouched e micro_name micro :
  others_untouched e micro_name
    (PlaceCellEngine.with_active_micros
       (<[micro_name := micro]> (PlaceCellEngine.active_micros e)) e).
Proof.
  split; [reflexivity|]. intros other Hne.
  unfold PlaceCellEngine.get_micro, PlaceCellEngine.with_active_micros.
  cbn [PlaceCellEngine.active_micros].
  apply lookup_insert_ne. congruence.
Qed.

(** X22.  [flip_micro_horizontal] fails with the not-found error exactly when
    the name is not registered, and otherwise replaces the registered Micro
    by its [flip_horizontal]; and a successful [place_micro],
    [place_micro_by_grid], [move_micro], [move_micro_by_grid] or
    [flip_micro_horizontal] leaves the grid of the engine and every Micro
    registered under another name as they were. *)
Theorem engine_calls_touch_one_micro (e : PlaceCellEngine.t)
        (micro_name : string) :
  delegates e micro_name (fun m => Micro.flip_horizontal None m)
            (PlaceCellEngine.flip_micro_horizontal e micro_name) /\
  (forall x y e',
      PlaceCellEngine.place_micro e micro_name x y = inr e' ->
      others_untouched e micro_name e') /\
  (forall i j e',
      PlaceCellEngine.place_micro_by_grid e micro_name i j = inr e' ->
      others_untouched e micro_name e') /\
  (forall dx dy e',
      PlaceCellEngine.move_micro e micro_name dx dy = inr e' ->
      others_untouched e micro_name e') /\
  (forall di dj e',
      PlaceCellEngine.move_micro_by_grid e micro_name di dj = inr e' ->
      others_untouched e micro_name e') /\
  (forall e',
      PlaceCellEngine.flip_micro_horizontal e micro_name = inr e' ->
      others_untouched e micro_name e').
Proof.
  unfold delegates, failed, PlaceCellEngine.place_micro,
    PlaceCellEngine.place_micro_by_grid, PlaceCellEngine.move_micro,
    PlaceCellEngine.move_micro_by_grid, PlaceCellEngine.flip_micro_horizontal.
  split; [|split; [|split; [|split; [|split]]]].
  - destruct (PlaceCellEngine.active_micros e !! micro_name);
      repeat split; intros; try reflexivity; try congruence;
      try contradiction.
  - intros x y e'.
    destruct (PlaceCellEngine.active_micros e !! micro_name); [|discriminate].
    intros [= <-]. apply insert_others_untouched.
  - intros i j e'.
    destruct (PlaceCellEngine.active_micros e !! micro_name); [|discriminate].
    intros [= <-]. apply insert_others_untouched.
  - intros dx dy e'.
    destruct (PlaceCellEngine.active_micros e !! micro_name); [|discriminate].
    intros [= <-]. apply insert_others_untouched.
  - intros di dj e'.
    destruct (PlaceCellEngine.active_micros e !! micro_name); [|discriminate].
    intros [= <-]. apply insert_others_untouched.
  - intros e'.
    destruct (PlaceCellEngine.active_micros e !! micro_name); [|discriminate].
    intros [= <-]. apply insert_others_untouched.
Qed.

(** X23.  [remove_micro] returns [True] exactly when the name is registered;
    afterwards [get_micro] finds nothing under that name and what it finds
    under the other names is unchanged; and when it returns [False] the
    engine is as it was. *)
Theorem remove_micro_unregisters (e : PlaceCellEngine.t)
        (micro_name : string) :
  (snd (PlaceCellEngine.remove_micro e micro_name) = true <->
   PlaceCellEngine.get_micro e micro_name <> None) /\
  PlaceCellEngine.get_micro
    (fst (PlaceCellEngine.remove_micro e micro_name)) micro_name = None /\
  others_untouched e micro_name
                   (fst (PlaceCellEngine.remove_micro e micro_name)) /\
  (snd (PlaceCellEngine.remove_micro e micro_name) = false ->
   fst (PlaceCellEngine.remove_micro e micro_name) = e).
Proof.
  unfold PlaceCellEngine.remove_micro, PlaceCellEngine.get_micro,
    others_untouched.
  destruct (PlaceCellEngine.active_micros e !! micro_name) as [m|] eqn:E;
    cbn [fst snd PlaceCellEngine.active_micros
         PlaceCellEngine.with_active_micros PlaceCellEngine.site_info].
  - split; [split; [discriminate | reflexivity]|].
    split; [apply lookup_delete_eq|].
    split; [|discriminate].
    split; [reflexivity|]. intros other Hne.
    apply lookup_delete_ne. congruence.
  - split; [split; [discriminate | congruence]|].
    split; [exact E|]. split; [|reflexivity].
    split; [reflexivity|]. reflexivity.
Qed.

(** X24.  [create_micro] registers the Micro it returns, which is a fresh
    Micro on the grid of the engine: [get_micro] finds it under its name,
    whatever was registered there before, and what is registered under the
    other names is unchanged.  [remove_micro] then returns [True], and gives
    back the engine as it was when the name was not registered before. *)
Theorem create_micro_registers (e : PlaceCellEngine.t) (nm : string)
        (ox oy : Q) (descr : string) :
  snd (PlaceCellEngine.create_micro e nm ox oy descr)
  = Micro.init nm ox oy descr (PlaceCellEngine.site_info e) /\
  PlaceCellEngine.get_micro
    (fst (PlaceCellEngine.create_micro e nm ox oy descr)) nm
  = Some (snd (PlaceCellEngine.create_micro e nm ox oy descr)) /\
  others_untouched e nm (fst (PlaceCellEngine.create_micro e nm ox oy descr)) /\
  snd (PlaceCellEngine.remove_micro
         (fst (PlaceCellEngine.create_micro e nm ox oy descr)) nm) = true /\
  (PlaceCellEngine.get_micro e nm = None ->
   fst (PlaceCellEngine.remove_micro
          (fst (PlaceCellEngine.create_micro e nm ox oy descr)) nm) = e).
Proof.
  unfold PlaceCellEngine.create_micro, PlaceCellEngine.remove_micro,
    PlaceCellEngine.get_micro.
  cbn [fst snd PlaceCellEngine.active_micros
       PlaceCellEngine.with_active_micros].
  rewrite !lookup_insert_eq. cbn [fst snd].
  split; [reflexivity|]. split; [reflexivity|].
  split; [apply insert_others_untouched|]. split; [reflexivity|].
  intros E. unfold PlaceCellEngine.with_active_micros.
  cbn [PlaceCellEngine.active_micros PlaceCellEngine.site_info].
  rewrite (delete_insert_id _ _ _ E). destruct e. reflexivity.
Qed.

Lemma add_cells_from_data_app good :
  forall cs micro rest,
    List.map PlaceCellEngine.cell_from_data good = List.map inr cs ->
    PlaceCellEngine.add_cells_from_data (good ++ rest) micro
    = PlaceCellEngine.add_cells_from_data rest (Micro.add_cells micro cs).
Proof.
  induction good as [|data r IH]; intros [|c cs] micro rest H;
    cbn [List.map] in H; try discriminate.
  - reflexivity.
  - injection H as Hc Hr.
    cbn [app PlaceCellEngine.add_cells_from_data]. rewrite Hc.
    rewrite (IH cs _ rest Hr). reflexivity.
Qed.

(** X25.  [create_micro_from_cells] registers a fresh Micro and adds to it
    one cell for each record, in order.  When every record gives a cell, the
    Micro returned is the fresh Micro with these cells added by [add_cells].
    When a record raises (an orientation that is no member of [Orientation],
    or a missing key [cell], [x] or [y]), the call raises what the first
    such record raises, and the Micro stays registered with the cells of
    the records before it. *)
Theorem create_micro_from_cells_reads_records (e : PlaceCellEngine.t)
        (nm : string) (good : list PlaceCellEngine.cell_data)
        (cs : list Cell.t) (ox oy : Q) :
  List.map PlaceCellEngine.cell_from_data good = List.map inr cs ->
  PlaceCellEngine.create_micro_from_cells e nm good ox oy
  = (PlaceCellEngine.with_active_micros
       (<[nm := Micro.add_cells
                  (Micro.init nm ox oy EmptyString (PlaceCellEngine.site_info e))
                  cs]>
          (PlaceCellEngine.active_micros e)) e,
     inr (Micro.add_cells
            (Micro.init nm ox oy EmptyString (PlaceCellEngine.site_info e))
            cs)) /\
  forall bad rest err,
    PlaceCellEngine.cell_from_data bad = inl err ->
    PlaceCellEngine.create_micro_from_cells e nm (good ++ bad :: rest) ox oy
    = (PlaceCellEngine.with_active_micros
         (<[nm := Micro.add_cells
                    (Micro.init nm ox oy EmptyString
                                (PlaceCellEngine.site_info e))
                    cs]>
            (PlaceCellEngine.active_micros e)) e,
       inl err).
Proof.
  intros H. unfold PlaceCellEngine.create_micro_from_cells. cbv zeta. split.
  - rewrite <- (List.app_nil_r good) at 1.
    rewrite (add_cells_from_data_app good cs _ [] H). reflexivity.
  - intros bad rest err Hbad.
    rewrite (add_cells_from_data_app good cs _ (bad :: rest) H).
    cbn [PlaceCellEngine.add_cells_from_data]. rewrite Hbad. reflexivity.
Qed.

Lemma create_micro_from_cells_reads_records_witness :
  PlaceCellEngine.create_micro_from_cells
    empty_engine "A" [record_a; record_bad; record_a] 0 0
  = (PlaceCellEngine.with_active_micros
       (<["A" := Micro.add_cells
                   (Micro.init "A" 0 0 EmptyString
                               (PlaceCellEngine.site_info empty_engine))
                   [Cell.init "a" 0 0 N (7 # 50) (9 # 10)]]>
          (PlaceCellEngine.active_micros empty_engine)) empty_engine,
     inl (PlaceCellEngine.ValueError "E")).
Proof.
  apply (proj2 (create_micro_from_cells_reads_records
                  empty_engine "A" [record_a]
                  [Cell.init "a" 0 0 N (7 # 50) (9 # 10)] 0 0 eq_refl)
               record_bad [record_a] (PlaceCellEngine.ValueError "E")).
  reflexivity.
Defined.

(** ** Copies of a Micro without sub-micros *)

Lemma set_absolute_position_fields ox oy s c :
  Cell.set_absolute_position ox oy (Some s) c
  = Cell.mk (Cell.name c) (Cell.x c) (Cell.y c) (Cell.orientation c)
            (Cell.width c) (Cell.height c)
            (fadd ox (Cell.x c)) (fadd oy (Cell.y c))
            (Cell.hierarchical_path c) s
            (fst (SiteInfo.to_grid_coords s (fadd ox (Cell.x c))
                                          (fadd oy (Cell.y c))))
            (snd (SiteInfo.to_grid_coords s (fadd ox (Cell.x c))
                                          (fadd oy (Cell.y c))))
            (fst (SiteInfo.to_grid_coords s (Cell.x c) (Cell.y c)))
            (snd (SiteInfo.to_grid_coords s (Cell.x c) (Cell.y c)))
            (fadd ox (Cell.x c)) (fadd oy (Cell.y c))
            (fadd (fadd ox (Cell.x c)) (Cell.width c))
            (fadd (fadd oy (Cell.y c)) (Cell.height c)).
Proof.
  destruct c as [nm x y o w h ax ay p s0 gx gy rgx rgy b0 b1 b2 b3].
  unfold Cell.set_absolute_position, Cell._update_bbox,
    Cell._update_grid_coordinates, Cell.take_site_info.
  cbn [Cell.with_position Cell.with_orientation Cell.with_size
       Cell.with_absolute Cell.with_path Cell.with_site_info Cell.with_grid
       Cell.with_bbox Cell.name Cell.x Cell.y Cell.orientation Cell.width
       Cell.height Cell.absolute_x Cell.absolute_y Cell.hierarchical_path
       Cell.site_info Cell.grid_x Cell.grid_y Cell.rel_grid_x Cell.rel_grid_y
       Cell.bbox_min_x Cell.bbox_min_y Cell.bbox_max_x Cell.bbox_max_y
       SiteInfo.to_grid_coords fst snd].
  reflexivity.
Qed.

(** The copy that [add_cell] stores depends on the name, the stored position,
    the orientation and the size of the cell given, and on nothing else. *)
Lemma placed_stored_cell self a b :
  stored_cell a = stored_cell b -> placed self a = placed self b.
Proof.
  intros H. unfold placed. rewrite !set_absolute_position_fields.
  pose proof (stored_cell_clone a) as Ea.
  pose proof (stored_cell_clone b) as Eb.
  rewrite <- Ea, <- Eb in H. clear Ea Eb.
  revert H. generalize (Cell.clone a) as a', (Cell.clone b) as b'.
  intros a' b'. unfold stored_cell. intros [= -> -> -> -> -> ->].
  unfold Cell.set_hierarchical_path.
  destruct (String.eqb (Micro.hierarchical_path self) EmptyString);
    reflexivity.
Qed.

Lemma add_cells_eq m0 cs :
  Micro.add_cells m0 cs
  = Micro.with_cells (Micro.cells m0 ++ List.map (placed m0) cs) m0.
Proof. exact (fold_add_cell (fun c => c) cs m0). Qed.

Lemma init_fields nm ox oy d s :
  Micro.origin_x (Micro.init nm ox oy d s) = ox /\
  Micro.origin_y (Micro.init nm ox oy d s) = oy /\
  Micro.description (Micro.init nm ox oy d s) = d /\
  Micro.site_info (Micro.init nm ox oy d s) = s /\
  Micro.cells (Micro.init nm ox oy d s) = [] /\
  Micro.sub_micros (Micro.init nm ox oy d s) = [] /\
  Micro.name (Micro.init nm ox oy d s) = nm.
Proof.
  unfold Micro.init. destruct (SiteInfo.to_grid_coords s ox oy).
  repeat split; reflexivity.
Qed.

(** The cells of a Micro made by the constructor and [add_cells], added
    again (through any [g] that keeps what a cell is constructed from) to a
    fresh Micro of the same origin, description and grid, give the Micro
    that the constructor and [add_cells] make under the name of the fresh
    one. *)
Lemma cells_added_again new_name nm ox oy d s cs g :
  (forall c, stored_cell (g c) = stored_cell c) ->
  fold_left (fun acc c => Micro.add_cell acc (g c))
    (Micro.cells (Micro.add_cells (Micro.init nm ox oy d s) cs))
    (Micro.init new_name
       (Micro.origin_x (Micro.add_cells (Micro.init nm ox oy d s) cs))
       (Micro.origin_y (Micro.add_cells (Micro.init nm ox oy d s) cs))
       (Micro.description (Micro.add_cells (Micro.init nm ox oy d s) cs))
       (SiteInfo.mk
          (SiteInfo.width
             (Micro.site_info (Micro.add_cells (Micro.init nm ox oy d s) cs)))
          (SiteInfo.height
             (Micro.site_info (Micro.add_cells (Micro.init nm ox oy d s) cs)))))
  = Micro.add_cells (Micro.init new_name ox oy d s) cs.
Proof.
  intros Hg. rewrite !add_cells_eq.
  destruct (init_fields nm ox oy d s) as (Fx & Fy & Fd & Fs & Fc & _).
  destruct (init_fields new_name ox oy d s) as (Gx & Gy & Gd & Gs & Gc & _).
  set (m0 := Micro.init nm ox oy d s) in *.
  set (m1 := Micro.init new_name ox oy d s) in *.
  cbn [Micro.origin_x Micro.origin_y Micro.description Micro.site_info
       Micro.cells Micro.with_cells].
  rewrite Fx, Fy, Fd, Fs, Fc.
  replace (SiteInfo.mk (SiteInfo.width s) (SiteInfo.height s)) with s
    by (destruct s; reflexivity).
  fold m1. rewrite fold_add_cell, Gc. cbn [app]. rewrite List.map_map.
  f_equal. apply List.map_ext. intros c.
  assert (P : forall a, placed m1 a = placed m1 (g (placed m0 a))).
  { intros a. apply placed_stored_cell. rewrite Hg, stored_cell_placed.
    reflexivity. }
  symmetry. apply P.
Qed.

Lemma constructed_name nm ox oy d s cs :
  Micro.name (Micro.add_cells (Micro.init nm ox oy d s) cs) = nm /\
  Micro.sub_micros (Micro.add_cells (Micro.init nm ox oy d s) cs) = [].
Proof.
  rewrite add_cells_eq.
  destruct (init_fields nm ox oy d s) as (_ & _ & _ & _ & _ & Fs & Fn).
  cbn [Micro.name Micro.sub_micros Micro.with_cells]. split; assumption.
Qed.

(** X26.  A Micro made by the constructor and [add_cells] is written and
    read back exactly: [_load_from_dict] of its [to_dict] record succeeds
    and returns a Micro equal to it in every attribute, cells included. *)
Theorem load_from_dict_to_dict_without_sub_micros
        (nm : string) (ox oy : Q) (d : string) (s : SiteInfo.t)
        (cs : list Cell.t) :
  Micro._load_from_dict
    (Micro.to_dict (Micro.add_cells (Micro.init nm ox oy d s) cs))
  = Some (Micro.add_cells (Micro.init nm ox oy d s) cs).
Proof.
  rewrite load_to_dict. f_equal. rewrite loaded_unfold.
  destruct (constructed_name nm ox oy d s cs) as [Hn Hs].
  rewrite Hs, Hn. cbn [fold_left].
  apply (cells_added_again nm nm ox oy d s cs
           (fun c => Cell.init (Cell.name c) (Cell.x c) (Cell.y c)
                               (Cell.orientation c) (Cell.width c)
                               (Cell.height c))).
  intros c. reflexivity.
Qed.

(** X27.  [clone()] of a Micro made by the constructor and [add_cells] is a
    Micro equal to it in every attribute; with a new name it is the Micro
    the constructor and [add_cells] make under that name. *)
Theorem clone_without_sub_micros
        (nm : string) (ox oy : Q) (d : string) (s : SiteInfo.t)
        (cs : list Cell.t) :
  Micro.clone None (Micro.add_cells (Micro.init nm ox oy d s) cs)
  = Micro.add_cells (Micro.init nm ox oy d s) cs /\
  forall new_name,
    new_name <> EmptyString ->
    Micro.clone (Some new_name) (Micro.add_cells (Micro.init nm ox oy d s) cs)
    = Micro.add_cells (Micro.init new_name ox oy d s) cs.
Proof.
  destruct (constructed_name nm ox oy d s cs) as [Hn Hs].
  split.
  - rewrite clone_equation. unfold Micro.clone_body, Micro.clone_name.
    cbv zeta. rewrite Hs, Hn. cbn [fold_left].
    apply (cells_added_again nm nm ox oy d s cs Cell.clone).
    apply stored_cell_clone.
  - intros new_name Hne. rewrite clone_equation.
    unfold Micro.clone_body, Micro.clone_name. cbv zeta.
    apply String.eqb_neq in Hne. rewrite Hne, Hs. cbn [fold_left].
    apply (cells_added_again new_name nm ox oy d s cs Cell.clone).
    apply stored_cell_clone.
Qed.

Lemma clone_without_sub_micros_witness :
  Micro.clone (Some "T") (Micro.add_cells (Micro.init "A" 1 2 "d" unit_grid)
                                          [cell_a; cell_b])
  = Micro.add_cells (Micro.init "T" 1 2 "d" unit_grid) [cell_a; cell_b].
Proof.
  apply (proj2 (clone_without_sub_micros "A" 1 2 "d" unit_grid
                                         [cell_a; cell_b])).
  discriminate.
Defined.

(** ** The placements reported for a tree *)

Lemma get_placement_origin_boxed c :
  boxed c -> Cell.get_placement_origin c = box_corner c.
Proof.
  intros (B0 & B1 & B2 & B3).
  unfold Cell.get_placement_origin, box_corner.
  rewrite B0, B1, B2, B3. reflexivity.
Qed.

Lemma do_calls_name parent cs :
  forall m, Micro.name (do_calls parent cs m) = Micro.name m.
Proof.
  induction cs as [|c cs IH]; intros m; [reflexivity|].
  cbn [do_calls fold_left]. fold (do_calls parent cs (do_call parent m c)).
  rewrite IH. apply do_call_name_path.
Qed.

Lemma tree_cells_boxed m :
  Forall cells_boxed (tree_micros m) -> Forall boxed (Micro.get_all_cells m).
Proof.
  rewrite get_all_cells_tree_micros.
  induction 1 as [|a r Ha _ IH]; cbn [flat_map]; [constructor|].
  apply List.Forall_app. split; [exact Ha | exact IH].
Qed.

(** X28.  For a Micro made by the constructor and changed by any sequence of
    calls, [get_cell_placements] lists one entry for each cell of
    [get_all_cells], in that order: the path of the cell, the corner of its
    box that its orientation names (N: lower left, S: upper right, FN: lower
    right, FS: upper left) rounded to three decimals, the value of the
    orientation, and, for the cells of sub-micros too, the name the Micro
    was constructed with. *)
Theorem get_cell_placements_after_calls (parent : option Micro.parent_ctx)
        (cs : list call) (nm : string) (ox oy : Q) (d : string)
        (s : SiteInfo.t) :
  Micro.get_cell_placements (do_calls parent cs (Micro.init nm ox oy d s))
  = List.map
      (fun c => Micro.mk_placement
                  (Cell.hierarchical_path c)
                  (round3 (fst (box_corner c))) (round3 (snd (box_corner c)))
                  (Orientation_value (Cell.orientation c)) nm)
      (Micro.get_all_cells (do_calls parent cs (Micro.init nm ox oy d s))).
Proof.
  unfold Micro.get_cell_placements.
  rewrite do_calls_name.
  destruct (init_fields nm ox oy d s) as (_ & _ & _ & _ & _ & _ & ->).
  assert (B : Forall boxed
                (Micro.get_all_cells
                   (do_calls parent cs (Micro.init nm ox oy d s)))).
  { apply tree_cells_boxed, calls_keep_cells_boxed, init_tree.
    unfold cells_boxed.
    destruct (init_fields nm ox oy d s) as (_ & _ & _ & _ & -> & _).
    constructor. }
  induction B as [|c r Hc _ IH]; [reflexivity|].
  cbn [List.map]. rewrite IH, (get_placement_origin_boxed c Hc).
  destruct (box_corner c). reflexivity.
Qed.

(** ** The members of [Orientation] *)

(** X29.  [Orientation(value)] gives a member exactly for the four strings
    N, S, FN and FS, in capitals, and that member has the string for value:
    it is the inverse of [.value]. *)
Theorem Orientation_of_value_inverse (value : string) (o : Orientation) :
  Orientation_of_value value = Some o <-> value = Orientation_value o.
Proof.
  split.
  - unfold Orientation_of_value.
    destruct (String.eqb value "N") eqn:E1;
      [apply String.eqb_eq in E1; intros [= <-]; exact E1|].
    destruct (String.eqb value "S") eqn:E2;
      [apply String.eqb_eq in E2; intros [= <-]; exact E2|].
    destruct (String.eqb value "FN") eqn:E3;
      [apply String.eqb_eq in E3; intros [= <-]; exact E3|].
    destruct (String.eqb value "FS") eqn:E4;
      [apply String.eqb_eq in E4; intros [= <-]; exact E4|].
    discriminate.
  - intros ->. destruct o; reflexivity.
Qed.

(** ** The grid coordinates cached in Micros and cells *)

Lemma update_grid_grid parent m :
  (Micro.grid_x (Micro._update_grid_coordinates parent m),
   Micro.grid_y (Micro._update_grid_coordinates parent m))
  = SiteInfo.to_grid_coords (Micro.site_info m) (Micro.origin_x m)
                            (Micro.origin_y m).
Proof. destruct parent as [[ps px py]|]; reflexivity. Qed.

Lemma update_grid_cached parent m :
  grid_cached
    (Micro._update_absolute_positions (Micro._update_grid_coordinates parent m)).
Proof.
  unfold grid_cached.
  rewrite update_abs_origin_x, update_abs_origin_y, update_abs_site_info,
    update_grid_origin_x, update_grid_origin_y, update_grid_site_info.
  rewrite <- update_grid_grid with (parent := parent). reflexivity.
Qed.

Lemma calls_keep_grid_cached parent cs m :
  Forall grid_cached (tree_micros m) ->
  Forall grid_cached (tree_micros (do_calls parent cs m)).
Proof.
  apply do_calls_tree.
  - intros. rewrite set_origin_unfold. apply update_grid_cached.
  - intros. rewrite move_by_unfold. apply update_grid_cached.
  - intros m' cell H. destruct m'. exact H.
  - intros m' sub_micro H. destruct m'. exact H.
  - intros p m' _. destruct (flip_horizontal_shape p m') as (m'' & -> & _).
    apply update_grid_cached.
  - intros ss m' H. destruct m'. exact H.
Qed.

(** X17.  The grid coordinates stored in a Micro are those of its origin:
    in a Micro made by the constructor, and in every Micro below it, after
    any sequence of calls (on the Micro or on sub-micros at any depth),
    (grid_x, grid_y) is [to_grid_coords] of the origin.  In particular
    [set_origin_by_grid(i, j)] leaves as origin the snap of
    [from_grid_coords(i, j)], with the grid coordinates of that origin. *)
Theorem grid_coordinates_follow_origin (parent : option Micro.parent_ctx) :
  (forall cs nm ox oy d s,
      Forall grid_cached
             (tree_micros (do_calls parent cs (Micro.init nm ox oy d s)))) /\
  (forall cs m,
      Forall grid_cached (tree_micros m) ->
      Forall grid_cached (tree_micros (do_calls parent cs m))) /\
  (forall m i j,
      (Micro.origin_x (Micro.set_origin_by_grid parent m i j),
       Micro.origin_y (Micro.set_origin_by_grid parent m i j))
      = SiteInfo.snap_to_grid (Micro.site_info m)
          (fst (SiteInfo.from_grid_coords (Micro.site_info m) i j))
          (snd (SiteInfo.from_grid_coords (Micro.site_info m) i j)) /\
      grid_cached (Micro.set_origin_by_grid parent m i j)).
Proof.
  split; [|split].
  - intros cs nm ox oy d s. apply calls_keep_grid_cached, init_tree.
    unfold grid_cached, Micro.init.
    destruct (SiteInfo.to_grid_coords s ox oy) as [gx gy] eqn:E.
    cbn [Micro._update_absolute_positions Micro.grid_x Micro.grid_y
         Micro.site_info Micro.origin_x Micro.origin_y Micro.with_cells
         Micro.with_sub_micros Micro.cells Micro.sub_micros List.map].
    symmetry. exact E.
  - intros cs m. apply calls_keep_grid_cached.
  - intros m i j. unfold Micro.set_origin_by_grid.
    cbn [SiteInfo.from_grid_coords fst snd]. split.
    + rewrite set_origin_origin_x, set_origin_origin_y.
      destruct (SiteInfo.snap_to_grid (Micro.site_info m)
                  (imul i (SiteInfo.width (Micro.site_info m)))
                  (imul j (SiteInfo.height (Micro.site_info m)))).
      reflexivity.
    + rewrite set_origin_unfold. apply update_grid_cached.
Qed.

Lemma set_absolute_position_grid_cached ox oy s c :
  cell_grid_cached s (Cell.set_absolute_position ox oy (Some s) c).
Proof.
  rewrite set_absolute_position_fields.
  generalize (fadd ox (Cell.x c)) as ax, (fadd oy (Cell.y c)) as ay.
  intros ax ay. unfold cell_grid_cached.
  cbn [Cell.site_info Cell.grid_x Cell.grid_y Cell.rel_grid_x Cell.rel_grid_y
       Cell.absolute_x Cell.absolute_y Cell.x Cell.y].
  split; [reflexivity|].
  split; symmetry; apply surjective_pairing.
Qed.

Lemma set_orientation_grid_cached s o c :
  cell_grid_cached s c -> cell_grid_cached s (Cell.set_orientation o c).
Proof. destruct c. exact (fun H => H). Qed.

Lemma cell_set_hierarchical_path_grid_cached s path c :
  cell_grid_cached s c -> cell_grid_cached s (Cell.set_hierarchical_path path c).
Proof.
  unfold Cell.set_hierarchical_path.
  destruct (String.eqb path EmptyString); destruct c; exact (fun H => H).
Qed.

Lemma refresh_cell_grid_cached ox oy s c :
  cell_grid_cached s (Micro.refresh_cell ox oy s c).
Proof.
  unfold Micro.refresh_cell. cbv zeta.
  apply set_orientation_grid_cached, set_absolute_position_grid_cached.
Qed.

Lemma placed_grid_cached self c :
  cell_grid_cached (Micro.site_info self) (placed self c).
Proof.
  unfold placed.
  apply cell_set_hierarchical_path_grid_cached,
    set_absolute_position_grid_cached.
Qed.

Lemma update_cells_grid_cached parent m :
  cells_grid_cached
    (Micro._update_absolute_positions (Micro._update_grid_coordinates parent m)).
Proof.
  unfold cells_grid_cached.
  rewrite update_abs_cells, update_abs_site_info.
  apply List.Forall_map, List.Forall_forall. intros c _.
  apply refresh_cell_grid_cached.
Qed.

Lemma calls_keep_cells_grid_cached parent cs m :
  Forall cells_grid_cached (tree_micros m) ->
  Forall cells_grid_cached (tree_micros (do_calls parent cs m)).
Proof.
  apply do_calls_tree.
  - intros. rewrite set_origin_unfold. apply update_cells_grid_cached.
  - intros. rewrite move_by_unfold. apply update_cells_grid_cached.
  - intros m' cell H. rewrite add_cell_eq. unfold cells_grid_cached in *.
    destruct m' as [nm ox oy d s cs0 subs path gx gy rgx rgy].
    cbn [Micro.cells Micro.with_cells Micro.site_info] in *.
    apply List.Forall_app. split; [exact H|].
    constructor; [|constructor].
    apply (placed_grid_cached
             (Micro.mk nm ox oy d s cs0 subs path gx gy rgx rgy)).
  - intros m' sub_micro H. destruct m'. exact H.
  - intros p m' _. destruct (flip_horizontal_shape p m') as (m'' & -> & _).
    apply update_cells_grid_cached.
  - intros ss m' H. destruct m'. exact H.
Qed.

(** X18.  The cells keep their cached grid data: in a Micro made by the
    constructor, and in every Micro below it, after any sequence of calls
    (on the Micro or on sub-micros at any depth), every owned cell carries
    the grid of the Micro that owns it, its (grid_x, grid_y) is
    [to_grid_coords] of its absolute position and its
    (rel_grid_x, rel_grid_y) is [to_grid_coords] of its stored position. *)
Theorem cell_grid_coordinates_follow_position
        (parent : option Micro.parent_ctx) (cs : list call) :
  (forall nm ox oy d s,
      Forall cells_grid_cached
             (tree_micros (do_calls parent cs (Micro.init nm ox oy d s)))) /\
  (forall m,
      Forall cells_grid_cached (tree_micros m) ->
      Forall cells_grid_cached (tree_micros (do_calls parent cs m))).
Proof.
  split.
  - intros nm ox oy d s. apply calls_keep_cells_grid_cached, init_tree.
    unfold cells_grid_cached.
    destruct (init_fields nm ox oy d s) as (_ & _ & _ & _ & -> & _).
    constructor.
  - intros m. apply calls_keep_cells_grid_cached.
Qed.
